(** * SusBot: the game-session state and its orchestrator

    A shallow embedding of [src/game/GameState.ts] (the session record, the
    vote recording and the plurality tally) and of [src/game/GameManager.ts]
    (the per-group orchestrator with its timers), followed by the properties
    of the specification that are stated about them.  Also embedded, with
    properties of their own, are the chat-message handlers
    ([handlers/messageHandlers.ts]), the word list ([game/WordList.ts]), the
    validation of poll contents ([types/PollContent.ts]) and the name
    resolution with its cache ([helpers/nameResolver.ts]).

    Conventions of the embedding.
    - A JavaScript [Map] is an association list kept in insertion order:
      [set] on a present key overwrites the value in place, [set] on an
      absent key appends, and iteration ([keys], [values], [entries]) goes
      front to back.
    - An optional field is an [option]; [undefined] is [None].
    - [Date] values and delays are integers (milliseconds).
    - The mutable [GameState] objects held by the manager are reached through
      the manager's [games] map only; an entry of that map is never replaced
      by another object, so a closure over the object is a closure over its
      group identifier.
    - Every handler of the manager runs to completion before the next event
      is looked at; what the outside world answers during the handler (the
      member list, which private messages could be delivered, the random
      draws, name resolution) is passed in as an environment value.  What
      happens when an event arrives while a handler is suspended at an
      [await] is outside the embedding: [run] and [reachable] speak of
      handlers that follow one another.
    - The clock does not move while a handler runs: the times a handler
      stores and the delays of the timeouts it arms are all counted from
      the one instant [now] at which it runs.
    - The runtime's timers are part of the manager state: [pending] lists
      the armed [setTimeout] calls with the instant they are due, [elapse]
      moves the clock, and [fire] runs an armed timeout once it is due (a
      timeout may be late, never early).  Everything a handler sends or
      throws is appended to [outbox]. *)

From Stdlib Require Import List String Ascii Bool Arith ZArith Lia Permutation.
Import ListNotations.

Local Open Scope list_scope.

(* ================================================================== *)
(** ** Keys with a decidable equality ([===] on strings and numbers)    *)
(* ================================================================== *)

Class EqKey (K : Type) := {
  keqb : K -> K -> bool;
  keqb_eq : forall a b, keqb a b = true <-> a = b
}.

#[export] Instance EqKey_string : EqKey string :=
  {| keqb := String.eqb; keqb_eq := String.eqb_eq |}.

Lemma keqb_refl {K} `{EqKey K} (a : K) : keqb a a = true.
Proof. apply keqb_eq; reflexivity. Qed.

Lemma keqb_neq {K} `{EqKey K} (a b : K) : keqb a b = false <-> a <> b.
Proof.
  split.
  - intros E Hab. apply keqb_eq in Hab. congruence.
  - intros N. destruct (keqb a b) eqn:E; [|reflexivity].
    apply keqb_eq in E. contradiction.
Qed.

Lemma keqb_sym {K} `{EqKey K} (a b : K) : keqb a b = keqb b a.
Proof.
  destruct (keqb a b) eqn:E.
  - apply keqb_eq in E. subst. symmetry. apply keqb_refl.
  - symmetry. apply keqb_neq. apply keqb_neq in E. congruence.
Qed.

(* ================================================================== *)
(** ** JavaScript [Map] in insertion order                              *)
(* ================================================================== *)

Module JsMap.
Section Defs.
Context {K V : Type} `{EqKey K}.

Definition t := list (K * V).

Definition empty : t := [].

Fixpoint get (k : K) (m : t) : option V :=
  match m with
  | [] => None
  | (k', v) :: rest => if keqb k' k then Some v else get k rest
  end.

Definition has (k : K) (m : t) : bool :=
  match get k m with Some _ => true | None => false end.

(** [m.set(k, v)]: a present key keeps its position. *)
Fixpoint set (k : K) (v : V) (m : t) : t :=
  match m with
  | [] => [(k, v)]
  | (k', v') :: rest =>
      if keqb k' k then (k', v) :: rest else (k', v') :: set k v rest
  end.

Fixpoint delete (k : K) (m : t) : t :=
  match m with
  | [] => []
  | (k', v') :: rest =>
      if keqb k' k then rest else (k', v') :: delete k rest
  end.

Definition size (m : t) : nat := List.length m.
Definition keys (m : t) : list K := map fst m.
Definition values (m : t) : list V := map snd m.
Definition entries (m : t) : list (K * V) := m.
End Defs.
Arguments t : clear implicits.
End JsMap.

(* ================================================================== *)
(** ** GameState.ts: the data model                                     *)
(* ================================================================== *)

Inductive GameStatus :=
| idle | voting_duration | assigning_roles | discussion | voting | ended.

(** [type GameDuration = 5 | 7 | 10] *)
Inductive GameDuration := D5 | D7 | D10.

Definition minutes (d : GameDuration) : Z :=
  match d with D5 => 5 | D7 => 7 | D10 => 10 end%Z.

Definition GameDuration_eqb (a b : GameDuration) : bool :=
  match a, b with
  | D5, D5 | D7, D7 | D10, D10 => true
  | _, _ => false
  end.

Lemma GameDuration_eqb_eq a b : GameDuration_eqb a b = true <-> a = b.
Proof. destruct a, b; simpl; split; intros E; congruence. Qed.

#[export] Instance EqKey_GameDuration : EqKey GameDuration :=
  {| keqb := GameDuration_eqb; keqb_eq := GameDuration_eqb_eq |}.

Definition GameStatus_eqb (a b : GameStatus) : bool :=
  match a, b with
  | idle, idle | voting_duration, voting_duration
  | assigning_roles, assigning_roles | discussion, discussion
  | voting, voting | ended, ended => true
  | _, _ => false
  end.

Lemma GameStatus_eqb_eq a b : GameStatus_eqb a b = true <-> a = b.
Proof. destruct a, b; simpl; split; intros E; congruence. Qed.

Record Player := mkPlayer {
  inboxId : string;
  address : string;
  isImposter : bool;
  hasVoted : bool;
  votedFor : option string
}.

Record DurationVote := mkDurationVote {
  voterInboxId : string;
  duration : GameDuration
}.

Inductive Winner := imposter | group.

Record GameState := mkGameState {
  groupId : string;
  status : GameStatus;
  durationVotes : list DurationVote;
  selectedDuration : option GameDuration;
  players : JsMap.t string Player;
  imposterInboxId : option string;
  secretWord : option string;
  startedAt : option Z;
  discussionEndTime : option Z;
  currentSpeakerInboxId : option string;
  votingStartedAt : option Z;
  votes : JsMap.t string string;
  votedOutInboxId : option string;
  winner : option Winner
}.

(** Field assignments [state.f = v]. *)
Definition set_status (x : GameStatus) (s : GameState) : GameState :=
  mkGameState (groupId s) x (durationVotes s) (selectedDuration s)
    (players s) (imposterInboxId s) (secretWord s) (startedAt s)
    (discussionEndTime s) (currentSpeakerInboxId s) (votingStartedAt s)
    (votes s) (votedOutInboxId s) (winner s).

Definition set_durationVotes (x : list DurationVote) (s : GameState) :=
  mkGameState (groupId s) (status s) x (selectedDuration s)
    (players s) (imposterInboxId s) (secretWord s) (startedAt s)
    (discussionEndTime s) (currentSpeakerInboxId s) (votingStartedAt s)
    (votes s) (votedOutInboxId s) (winner s).

Definition set_selectedDuration (x : option GameDuration) (s : GameState) :=
  mkGameState (groupId s) (status s) (durationVotes s) x
    (players s) (imposterInboxId s) (secretWord s) (startedAt s)
    (discussionEndTime s) (currentSpeakerInboxId s) (votingStartedAt s)
    (votes s) (votedOutInboxId s) (winner s).

Definition set_players (x : JsMap.t string Player) (s : GameState) :=
  mkGameState (groupId s) (status s) (durationVotes s) (selectedDuration s)
    x (imposterInboxId s) (secretWord s) (startedAt s)
    (discussionEndTime s) (currentSpeakerInboxId s) (votingStartedAt s)
    (votes s) (votedOutInboxId s) (winner s).

Definition set_imposterInboxId (x : option string) (s : GameState) :=
  mkGameState (groupId s) (status s) (durationVotes s) (selectedDuration s)
    (players s) x (secretWord s) (startedAt s)
    (discussionEndTime s) (currentSpeakerInboxId s) (votingStartedAt s)
    (votes s) (votedOutInboxId s) (winner s).

Definition set_secretWord (x : option string) (s : GameState) :=
  mkGameState (groupId s) (status s) (durationVotes s) (selectedDuration s)
    (players s) (imposterInboxId s) x (startedAt s)
    (discussionEndTime s) (currentSpeakerInboxId s) (votingStartedAt s)
    (votes s) (votedOutInboxId s) (winner s).

Definition set_startedAt (x : option Z) (s : GameState) :=
  mkGameState (groupId s) (status s) (durationVotes s) (selectedDuration s)
    (players s) (imposterInboxId s) (secretWord s) x
    (discussionEndTime s) (currentSpeakerInboxId s) (votingStartedAt s)
    (votes s) (votedOutInboxId s) (winner s).

Definition set_discussionEndTime (x : option Z) (s : GameState) :=
  mkGameState (groupId s) (status s) (durationVotes s) (selectedDuration s)
    (players s) (imposterInboxId s) (secretWord s) (startedAt s)
    x (currentSpeakerInboxId s) (votingStartedAt s)
    (votes s) (votedOutInboxId s) (winner s).

Definition set_currentSpeakerInboxId (x : option string) (s : GameState) :=
  mkGameState (groupId s) (status s) (durationVotes s) (selectedDuration s)
    (players s) (imposterInboxId s) (secretWord s) (startedAt s)
    (discussionEndTime s) x (votingStartedAt s)
    (votes s) (votedOutInboxId s) (winner s).

Definition set_votingStartedAt (x : option Z) (s : GameState) :=
  mkGameState (groupId s) (status s) (durationVotes s) (selectedDuration s)
    (players s) (imposterInboxId s) (secretWord s) (startedAt s)
    (discussionEndTime s) (currentSpeakerInboxId s) x
    (votes s) (votedOutInboxId s) (winner s).

Definition set_votes (x : JsMap.t string string) (s : GameState) :=
  mkGameState (groupId s) (status s) (durationVotes s) (selectedDuration s)
    (players s) (imposterInboxId s) (secretWord s) (startedAt s)
    (discussionEndTime s) (currentSpeakerInboxId s) (votingStartedAt s)
    x (votedOutInboxId s) (winner s).

Definition set_votedOutInboxId (x : option string) (s : GameState) :=
  mkGameState (groupId s) (status s) (durationVotes s) (selectedDuration s)
    (players s) (imposterInboxId s) (secretWord s) (startedAt s)
    (discussionEndTime s) (currentSpeakerInboxId s) (votingStartedAt s)
    (votes s) x (winner s).

Definition set_winner (x : option Winner) (s : GameState) :=
  mkGameState (groupId s) (status s) (durationVotes s) (selectedDuration s)
    (players s) (imposterInboxId s) (secretWord s) (startedAt s)
    (discussionEndTime s) (currentSpeakerInboxId s) (votingStartedAt s)
    (votes s) (votedOutInboxId s) x.

(* ================================================================== *)
(** ** GameState.ts: the functions                                      *)
(* ================================================================== *)

Definition createGameState (g : string) : GameState :=
  mkGameState g idle [] None JsMap.empty None None None None None None
    JsMap.empty None None.

Definition isGameActive (s : GameState) : bool :=
  negb (GameStatus_eqb (status s) idle)
  && negb (GameStatus_eqb (status s) ended).

Definition getPlayerCount (s : GameState) : nat := JsMap.size (players s).

Definition getPlayer (s : GameState) (id : string) : option Player :=
  JsMap.get id (players s).

Definition addPlayer (s : GameState) (id addr : string) : GameState :=
  if JsMap.has id (players s) then s
  else set_players
         (JsMap.set id (mkPlayer id addr false false None) (players s)) s.

(** [player.isImposter = true] writes through the object held by the map. *)
Definition setImposter (s : GameState) (id : string) : GameState :=
  match JsMap.get id (players s) with
  | Some p =>
      set_imposterInboxId (Some id)
        (set_players
           (JsMap.set id
              (mkPlayer (inboxId p) (address p) true (hasVoted p) (votedFor p))
              (players s)) s)
  | None => s
  end.

Definition recordDurationVote (s : GameState) (voter : string)
    (d : GameDuration) : GameState :=
  set_durationVotes
    (filter (fun v => negb (String.eqb (voterInboxId v) voter))
            (durationVotes s)
     ++ [mkDurationVote voter d]) s.

(** The tally shared by the two plurality functions.  [countVotes] is the
    first loop ([counts.set(k, (counts.get(k) || 0) + 1)]), [pickMax] the
    second one (strict [count > maxCount] over [counts.entries()]). *)
Section Tally.
Context {K : Type} `{EqKey K}.

Definition orZero (c : option nat) : nat :=
  match c with Some n => n | None => 0 end.

Definition bump (counts : JsMap.t K nat) (k : K) : JsMap.t K nat :=
  JsMap.set k (orZero (JsMap.get k counts) + 1) counts.

Definition countVotes (ks : list K) : JsMap.t K nat :=
  fold_left bump ks JsMap.empty.

Definition pickStep (acc : nat * option K) (e : K * nat) : nat * option K :=
  if fst acc <? snd e then (snd e, Some (fst e)) else acc.

Definition pickMax (es : list (K * nat)) : nat * option K :=
  fold_left pickStep es (0, None).

(** Number of votes for [k], and arrival position of its first vote. *)
Fixpoint occ (k : K) (ks : list K) : nat :=
  match ks with
  | [] => 0
  | x :: r => (if keqb x k then 1 else 0) + occ k r
  end.

Fixpoint firstIndex (k : K) (ks : list K) : nat :=
  match ks with
  | [] => 0
  | x :: r => if keqb x k then 0 else S (firstIndex k r)
  end.

(** [w] has the highest count, and every other option with the same count
    received its first vote later than [w] did. *)
Definition pluralityFirst (w : K) (ks : list K) : Prop :=
  In w ks
  /\ (forall k, occ k ks <= occ w ks)
  /\ (forall k, k <> w -> occ k ks = occ w ks ->
                firstIndex w ks < firstIndex k ks).
End Tally.

Definition calculateWinningDuration (s : GameState) : option GameDuration :=
  match durationVotes s with
  | [] => None
  | _ => snd (pickMax (JsMap.entries (countVotes (map duration (durationVotes s)))))
  end.

Definition recordVote (s : GameState) (voter votee : string) : GameState :=
  let s1 := set_votes (JsMap.set voter votee (votes s)) s in
  match JsMap.get voter (players s1) with
  | Some p =>
      set_players
        (JsMap.set voter
           (mkPlayer (inboxId p) (address p) (isImposter p) true (Some votee))
           (players s1)) s1
  | None => s1
  end.

Record VoteResults := mkVoteResults {
  votedOut : string;
  voteCount : nat
}.

(** [if (!votedOutInboxId) return null] also rejects the empty string. *)
Definition calculateVoteResults (s : GameState) : option VoteResults :=
  if JsMap.size (votes s) =? 0 then None
  else
    let r := pickMax (JsMap.entries (countVotes (JsMap.values (votes s)))) in
    match snd r with
    | None => None
    | Some id =>
        if String.eqb id EmptyString then None
        else Some (mkVoteResults id (fst r))
    end.

Definition determineWinner (s : GameState) (votedOutId : string) : Winner :=
  match imposterInboxId s with
  | Some i => if String.eqb votedOutId i then group else imposter
  | None => imposter
  end.

Definition resetGameState (s : GameState) : GameState :=
  mkGameState (groupId s) idle [] None JsMap.empty None None None None None
    None JsMap.empty None None.

(* ================================================================== *)
(** ** GameManager.ts: messages, timers and the manager record          *)
(* ================================================================== *)

(** The deferred calls the manager hands to [setTimeout].  Each closure of
    the source captures the conversation, of which only the identifier is
    used (the member list is asked again when the closure runs). *)
Inductive Callback :=
| cbFinalizeDurationVote (g : string)
| cbSelectRandomSpeaker (g : string)
| cbEndDiscussionPhase (g : string)
| cbFinalizeVoting (g : string)
| cbResetGameState (g : string).

(** The texts sent to the group, one constructor per [conversation.send]
    of the source, with the values interpolated into the text. *)
Inductive Message :=
| MsgAlreadyInProgress   (* "A game is already in progress! ..." *)
| MsgNeedThreeToStart    (* "You need at least 3 players to start the game! ..." *)
| MsgGameStarting        (* "SUSBOT GAME STARTING! ..." *)
| MsgDurationPoll (sentAt : Z)  (* actions 5 / 7 / 10, id duration-<now> *)
| MsgNoDurationVotes     (* "No votes received! Game cancelled. ..." *)
| MsgDurationSelected (d : GameDuration)
| MsgNotEnoughPlayers    (* "Not enough players! Need at least 3 players." *)
| MsgDmFailed            (* "Failed to send DMs to players. ..." *)
| MsgRolesAssigned (delivered total : nat)
| MsgSpeaker (name : string) (d : option GameDuration)
| MsgTimesUp
| MsgVotingPoll (sentAt : Z) (actions : list (string * string))
| MsgNoVotesDraw         (* "No votes received! Game ends in a draw." *)
| MsgVoteError           (* "Error processing votes. Game cancelled." *)
| MsgResults (votedOutName : string) (count : nat) (correct : bool)
             (imposterName : string) (word : option string) (w : Winner)
             (breakdown : list (string * string))
| MsgNoActiveGame        (* "No active game to cancel." *)
| MsgCancelled.          (* "Game cancelled." *)

Inductive DirectMessage :=
| DmYouAreImposter
| DmSecretWord (word : string).

(** What a handler does to the outside world, in the order it does it.
    [Threw] records an exception that escapes the handler. *)
Inductive Output :=
| Send (g : string) (msg : Message)
| SendDm (inbox : string) (msg : DirectMessage)
| Threw (cb : Callback).

(** An armed [setTimeout]: the handle it returned, the instant it is due and
    what it will call. *)
Record Timeout := mkTimeout {
  handle : nat;
  due : Z;
  callback : Callback
}.

Record GameManager := mkGameManager {
  games : JsMap.t string GameState;
  timers : JsMap.t string nat;
  clientInboxId : string;
  pending : list Timeout;
  nextHandle : nat;
  now : Z;
  outbox : list Output
}.

(** What the collaborators answer while a handler runs. *)
Record Env := mkEnv {
  members : list string;          (* inbox ids of [conversation.members()] *)
  addressOf : string -> string;   (* first identifier of the inbox, or the inbox id *)
  dmDelivered : string -> bool;   (* [newDm] and [send] both succeeded *)
  randomImposter : nat;           (* the draw behind the imposter index *)
  randomWord : string;            (* [getRandomWord()] *)
  randomSpeaker : nat;            (* the draw behind the speaker index *)
  resolveName : string -> string  (* [resolveAddressToNameCached] *)
}.

Definition set_games (x : JsMap.t string GameState) (m : GameManager) :=
  mkGameManager x (timers m) (clientInboxId m) (pending m) (nextHandle m)
    (now m) (outbox m).

Definition set_timers (x : JsMap.t string nat) (m : GameManager) :=
  mkGameManager (games m) x (clientInboxId m) (pending m) (nextHandle m)
    (now m) (outbox m).

Definition set_pending (x : list Timeout) (m : GameManager) :=
  mkGameManager (games m) (timers m) (clientInboxId m) x (nextHandle m)
    (now m) (outbox m).

Definition set_nextHandle (x : nat) (m : GameManager) :=
  mkGameManager (games m) (timers m) (clientInboxId m) (pending m) x
    (now m) (outbox m).

Definition set_now (x : Z) (m : GameManager) :=
  mkGameManager (games m) (timers m) (clientInboxId m) (pending m)
    (nextHandle m) x (outbox m).

Definition emit (o : Output) (m : GameManager) :=
  mkGameManager (games m) (timers m) (clientInboxId m) (pending m)
    (nextHandle m) (now m) (outbox m ++ [o]).

(** [new GameManager(client)] *)
Definition newGameManager (bot : string) (t0 : Z) : GameManager :=
  mkGameManager JsMap.empty JsMap.empty bot [] 0 t0 [].

(** *** The timer primitives of the runtime *)

Definition setTimeout (cb : Callback) (delay : Z) (m : GameManager)
  : nat * GameManager :=
  (nextHandle m,
   set_nextHandle (S (nextHandle m))
     (set_pending (pending m ++ [mkTimeout (nextHandle m) (now m + delay) cb]) m)).

Definition clearTimeout (h : nat) (m : GameManager) : GameManager :=
  set_pending (filter (fun t => negb (handle t =? h)) (pending m)) m.

(** [Math.floor(Math.random() * n)] for the draw [r]: an index below [n],
    and 0 when [n] is 0. *)
Definition randomIndex (r n : nat) : nat :=
  match n with 0 => 0 | _ => r mod n end.

(** *** The private helpers of the class *)

Definition getGameState (g : string) (m : GameManager)
  : GameState * GameManager :=
  match JsMap.get g (games m) with
  | Some s => (s, m)
  | None =>
      let s := createGameState g in
      (s, set_games (JsMap.set g s (games m)) m)
  end.

(** A write through the object obtained from [getGameState g]. *)
Definition storeGame (g : string) (s : GameState) (m : GameManager) :=
  set_games (JsMap.set g s (games m)) m.

Definition send (g : string) (msg : Message) (m : GameManager) :=
  emit (Send g msg) m.

Definition setTimer (g : string) (cb : Callback) (delay : Z)
    (m : GameManager) : GameManager :=
  let m1 := match JsMap.get g (timers m) with
            | Some existing => clearTimeout existing m
            | None => m
            end in
  let '(timer, m2) := setTimeout cb delay m1 in
  set_timers (JsMap.set g timer (timers m2)) m2.

Definition clearTimer (g : string) (m : GameManager) : GameManager :=
  match JsMap.get g (timers m) with
  | Some timer =>
      let m1 := clearTimeout timer m in
      set_timers (JsMap.delete g (timers m1)) m1
  | None => m
  end.

Definition getGameStatus (g : string) (m : GameManager) : option GameState :=
  JsMap.get g (games m).

(* ================================================================== *)
(** ** GameManager.ts: the handlers                                     *)
(* ================================================================== *)

Definition handleDurationVote (g voter : string) (d : GameDuration)
    (m : GameManager) : GameManager :=
  let '(s, m1) := getGameState g m in
  if negb (GameStatus_eqb (status s) voting_duration) then m1
  else storeGame g (recordDurationVote s voter d) m1.

Definition handlePlayerVote (g voter votee : string) (m : GameManager)
  : GameManager :=
  let '(s, m1) := getGameState g m in
  if negb (GameStatus_eqb (status s) voting) then m1
  else storeGame g (recordVote s voter votee) m1.

(** The loop that sends every player their role; a failed delivery is
    caught and only the successes are counted. *)
Definition dmStep (env : Env) (word : string) (acc : nat * GameManager)
    (p : Player) : nat * GameManager :=
  if dmDelivered env (inboxId p)
  then (S (fst acc),
        emit (SendDm (inboxId p)
                (if isImposter p then DmYouAreImposter else DmSecretWord word))
             (snd acc))
  else acc.

Definition dmPlayers (env : Env) (word : string) (ps : list Player)
    (m : GameManager) : nat * GameManager :=
  fold_left (dmStep env word) ps (0, m).

Definition addMembers (bot : string) (env : Env) (s : GameState)
  : GameState :=
  fold_left
    (fun st member =>
       if negb (String.eqb member bot)
       then addPlayer st member (addressOf env member) else st)
    (members env) s.

Definition assignRoles (g : string) (env : Env) (m : GameManager)
  : GameManager :=
  let '(s, m1) := getGameState g m in
  let s1 := set_status assigning_roles s in
  let ids := filter (fun id => negb (String.eqb id (clientInboxId m1)))
                    (members env) in
  if List.length ids <? 3 then
    storeGame g (resetGameState s1) (send g MsgNotEnoughPlayers m1)
  else
    let s2 := addMembers (clientInboxId m1) env s1 in
    let s3 := match nth_error ids (randomIndex (randomImposter env)
                                               (List.length ids)) with
              | Some id => setImposter s2 id
              | None => s2
              end in
    let s4 := set_secretWord (Some (randomWord env)) s3 in
    let '(dmSuccessCount, m2) :=
      dmPlayers env (randomWord env) (JsMap.values (players s4))
                (storeGame g s4 m1) in
    if dmSuccessCount =? 0 then
      storeGame g (resetGameState s4) (send g MsgDmFailed m2)
    else
      let m3 := send g (MsgRolesAssigned dmSuccessCount (List.length ids)) m2 in
      snd (setTimeout (cbSelectRandomSpeaker g) 2000 m3).

Definition finalizeDurationVote (g : string) (env : Env) (m : GameManager)
  : GameManager :=
  let '(s, m1) := getGameState g m in
  if negb (GameStatus_eqb (status s) voting_duration) then m1
  else
    match calculateWinningDuration s with
    | None => storeGame g (resetGameState s) (send g MsgNoDurationVotes m1)
    | Some winningDuration =>
        let s1 := set_selectedDuration (Some winningDuration) s in
        assignRoles g env
          (send g (MsgDurationSelected winningDuration) (storeGame g s1 m1))
    end.

(** [new Date()], [Date.now()] and the [setTimeout] of this handler all see
    the instant [now] at which the handler runs. *)
Definition startDiscussionPhase (g : string) (m : GameManager)
  : GameManager :=
  let '(s, m1) := getGameState g m in
  let durationMs :=
    ((match selectedDuration s with Some d => minutes d | None => 5 end)
     * 60 * 1000)%Z in
  let s1 := set_discussionEndTime (Some (now m1 + durationMs)%Z)
              (set_startedAt (Some (now m1))
                 (set_status discussion s)) in
  setTimer g (cbEndDiscussionPhase g) durationMs (storeGame g s1 m1).

(** [speaker.inboxId] on an empty player list reads a property of
    [undefined]: the handler throws before it has changed anything. *)
Definition selectRandomSpeaker (g : string) (env : Env) (m : GameManager)
  : GameManager :=
  let '(s, m1) := getGameState g m in
  let playerArray := JsMap.values (players s) in
  match nth_error playerArray
          (randomIndex (randomSpeaker env) (List.length playerArray)) with
  | None => emit (Threw (cbSelectRandomSpeaker g)) m1
  | Some speaker =>
      let s1 := set_currentSpeakerInboxId (Some (inboxId speaker)) s in
      let m2 := send g (MsgSpeaker (resolveName env (address speaker))
                                   (selectedDuration s1))
                     (storeGame g s1 m1) in
      startDiscussionPhase g m2
  end.

(** The time that passes between [votingStartedAt = new Date()] and
    [setTimer], while the names are resolved and the poll is sent, is not
    represented: both see the instant [now]. *)
Definition startVotingPhase (g : string) (env : Env) (m : GameManager)
  : GameManager :=
  let '(s, m1) := getGameState g m in
  let s1 := set_votingStartedAt (Some (now m1)) (set_status voting s) in
  let actions := map (fun p => (inboxId p, resolveName env (address p)))
                     (JsMap.values (players s1)) in
  let m2 := send g (MsgVotingPoll (now m1) actions) (storeGame g s1 m1) in
  setTimer g (cbFinalizeVoting g) 60000 m2.

Definition endDiscussionPhase (g : string) (env : Env) (m : GameManager)
  : GameManager :=
  let '(s, m1) := getGameState g m in
  if negb (GameStatus_eqb (status s) discussion) then m1
  else startVotingPhase g env (send g MsgTimesUp m1).

Definition displayName (env : Env) (s : GameState) (id : string) : string :=
  match JsMap.get id (players s) with
  | Some p => resolveName env (address p)
  | None => id
  end.

Definition finalizeVoting (g : string) (env : Env) (m : GameManager)
  : GameManager :=
  let '(s, m1) := getGameState g m in
  if negb (GameStatus_eqb (status s) voting) then m1
  else
    match calculateVoteResults s with
    | None => storeGame g (resetGameState s) (send g MsgNoVotesDraw m1)
    | Some r =>
        match JsMap.get (votedOut r) (players s) with
        | None => storeGame g (resetGameState s) (send g MsgVoteError m1)
        | Some votedOutPlayer =>
            let w := determineWinner s (votedOut r) in
            let s1 := set_winner (Some w)
                        (set_votedOutInboxId (Some (votedOut r)) s) in
            let imposterName :=
              match imposterInboxId s1 with
              | Some i =>
                  match JsMap.get i (players s1) with
                  | Some p => resolveName env (address p)
                  | None => "Unknown"%string
                  end
              | None => "Unknown"%string
              end in
            let breakdown :=
              map (fun e => (displayName env s1 (fst e),
                             displayName env s1 (snd e)))
                  (JsMap.entries (votes s1)) in
            let m2 :=
              send g (MsgResults (resolveName env (address votedOutPlayer))
                        (voteCount r) (isImposter votedOutPlayer)
                        imposterName (secretWord s1) w breakdown)
                   (storeGame g s1 m1) in
            let m3 := storeGame g (set_status ended s1) m2 in
            snd (setTimeout (cbResetGameState g) 5000 m3)
        end
    end.

Definition startGame (g : string) (env : Env) (m : GameManager)
  : GameManager :=
  let '(s, m1) := getGameState g m in
  if isGameActive s then send g MsgAlreadyInProgress m1
  else if List.length (members env) <? 3 then send g MsgNeedThreeToStart m1
  else
    let s1 := set_status voting_duration (resetGameState s) in
    let m2 := send g (MsgDurationPoll (now m1))
                (send g MsgGameStarting (storeGame g s1 m1)) in
    setTimer g (cbFinalizeDurationVote g) 60000 m2.

Definition cancelGame (g : string) (m : GameManager) : GameManager :=
  let '(s, m1) := getGameState g m in
  if negb (isGameActive s) then send g MsgNoActiveGame m1
  else
    let m2 := clearTimer g m1 in
    send g MsgCancelled (storeGame g (resetGameState s) m2).

Definition shutdown (m : GameManager) : GameManager :=
  set_timers JsMap.empty
    (fold_left (fun acc timer => clearTimeout timer acc)
               (JsMap.values (timers m)) m).

(** The reset closure scheduled by [finalizeVoting]. *)
Definition resetCallback (g : string) (m : GameManager) : GameManager :=
  let '(s, m1) := getGameState g m in
  storeGame g (resetGameState s) m1.

(* ================================================================== *)
(** ** The event loop                                                   *)
(* ================================================================== *)

Definition runCallback (cb : Callback) (env : Env) (m : GameManager)
  : GameManager :=
  match cb with
  | cbFinalizeDurationVote g => finalizeDurationVote g env m
  | cbSelectRandomSpeaker g => selectRandomSpeaker g env m
  | cbEndDiscussionPhase g => endDiscussionPhase g env m
  | cbFinalizeVoting g => finalizeVoting g env m
  | cbResetGameState g => resetCallback g m
  end.

Definition findTimeout (h : nat) (m : GameManager) : option Timeout :=
  find (fun t => handle t =? h) (pending m).

(** A timeout fires only while it is armed and once it is due; it is
    disarmed before its callback runs. *)
Definition fire (h : nat) (env : Env) (m : GameManager) : GameManager :=
  match findTimeout h m with
  | Some t =>
      if (due t <=? now m)%Z
      then runCallback (callback t) env (clearTimeout h m)
      else m
  | None => m
  end.

Definition elapse (dt : Z) (m : GameManager) : GameManager :=
  if (0 <=? dt)%Z then set_now (now m + dt)%Z m else m.

Inductive Event :=
| evStartGame (g : string) (env : Env)
| evCancelGame (g : string)
| evDurationVote (g voter : string) (d : GameDuration)
| evPlayerVote (g voter votee : string)
| evElapse (dt : Z)
| evFire (h : nat) (env : Env).

(** One event, handled to completion. *)
Definition step (m : GameManager) (e : Event) : GameManager :=
  match e with
  | evStartGame g env => startGame g env m
  | evCancelGame g => cancelGame g m
  | evDurationVote g voter d => handleDurationVote g voter d m
  | evPlayerVote g voter votee => handlePlayerVote g voter votee m
  | evElapse dt => elapse dt m
  | evFire h env => fire h env m
  end.

Definition run (m : GameManager) (es : list Event) : GameManager :=
  fold_left step es m.

(** The session of a group as every handler sees it. *)
Definition session (g : string) (m : GameManager) : GameState :=
  fst (getGameState g m).

(* ================================================================== *)
(** ** Vocabulary of the properties                                    *)
(* ================================================================== *)

(** The armed timeouts once the timer tracked for [g], if any, is cleared. *)
Definition withoutTracked (g : string) (m : GameManager) : list Timeout :=
  match JsMap.get g (timers m) with
  | Some h => filter (fun t => negb (handle t =? h)) (pending m)
  | None => pending m
  end.

(** The fully cleared session that [startGame] installs. *)
Definition freshVotingDuration (g : string) : GameState :=
  mkGameState g voting_duration [] None JsMap.empty None None None None None
    None JsMap.empty None None.

(** Every armed timeout carries a handle that was already handed out. *)
Definition handlesIssued (m : GameManager) : Prop :=
  Forall (fun t => handle t < nextHandle m) (pending m).

(** Every handle tracked in [timers] was already handed out. *)
Definition timersIssued (m : GameManager) : Prop :=
  forall e, In e (timers m) -> snd e < nextHandle m.

(** From [m] to [m'] handles were only handed out upwards, and every
    timeout armed in [m'], and every handle tracked in [m'], was so in [m]
    or got its handle issued since. *)
Definition grows (m m' : GameManager) : Prop :=
  nextHandle m <= nextHandle m'
  /\ (forall t, In t (pending m') ->
        In t (pending m) \/ nextHandle m <= handle t < nextHandle m')
  /\ (forall e, In e (timers m') ->
        In e (timers m) \/ nextHandle m <= snd e < nextHandle m').

(** The handle [h] was issued and is not armed (any more). *)
Definition retired (h : nat) (m : GameManager) : Prop :=
  h < nextHandle m /\ forall t, In t (pending m) -> handle t <> h.

Inductive VoteCall :=
| callDurationVote (voter : string) (d : GameDuration)
| callVote (voter votee : string).

Definition applyCall (s : GameState) (c : VoteCall) : GameState :=
  match c with
  | callDurationVote voter d => recordDurationVote s voter d
  | callVote voter votee => recordVote s voter votee
  end.

Definition applyCalls (s : GameState) (cs : list VoteCall) : GameState :=
  fold_left applyCall cs s.

(** The most recent duration, resp. accusation, of a voter in a sequence of
    calls. *)
Definition lastDuration (voter : string) (cs : list VoteCall)
  : option GameDuration :=
  fold_left
    (fun acc c =>
       match c with
       | callDurationVote v d => if String.eqb v voter then Some d else acc
       | callVote _ _ => acc
       end) cs None.

Definition lastVote (voter : string) (cs : list VoteCall) : option string :=
  fold_left
    (fun acc c =>
       match c with
       | callVote v w => if String.eqb v voter then Some w else acc
       | callDurationVote _ _ => acc
       end) cs None.

(** The standing accusations of a sequence of calls in the order in which
    they arrived: a voter's new accusation replaces the earlier one and
    arrives when it is cast. *)
Definition accusationsByArrival (cs : list VoteCall)
  : list (string * string) :=
  fold_left
    (fun acc c =>
       match c with
       | callVote v w =>
           filter (fun e => negb (String.eqb (fst e) v)) acc ++ [(v, w)]
       | callDurationVote _ _ => acc
       end) cs [].

(** The durations the array holds for a voter. *)
Definition durationsOf (voter : string) (s : GameState) : list GameDuration :=
  map duration
      (filter (fun v => String.eqb (voterInboxId v) voter) (durationVotes s)).

Definition oneVotePerVoter (s : GameState) : Prop :=
  NoDup (map voterInboxId (durationVotes s)) /\ NoDup (JsMap.keys (votes s)).

(** The invariant of the data model: a set imposter identifier is a key of
    [players], that player is flagged, and nobody else is. *)
Definition imposterInvariant (s : GameState) : Prop :=
  forall id, imposterInboxId s = Some id ->
    (exists p, JsMap.get id (players s) = Some p /\ isImposter p = true)
    /\ (forall k p, In (k, p) (players s) -> isImposter p = true -> k = id).

(** While no imposter is set, no player is flagged. *)
Definition noneFlaggedYet (s : GameState) : Prop :=
  imposterInboxId s = None ->
  forall k p, In (k, p) (players s) -> isImposter p = false.

Definition rolesConsistent (s : GameState) : Prop :=
  imposterInvariant s /\ noneFlaggedYet s.

(** What the manager maintains for each session: the roles are consistent,
    and a session that is idle or voting on the duration has no players and
    no imposter. *)
Definition sessionInv (s : GameState) : Prop :=
  rolesConsistent s
  /\ (status s = idle \/ status s = voting_duration ->
      players s = [] /\ imposterInboxId s = None).

Definition managerInv (m : GameManager) : Prop :=
  forall g s, JsMap.get g (games m) = Some s -> sessionInv s.

(* ================================================================== *)
(** ** Sample sessions                                                 *)
(* ================================================================== *)

(** The session obtained from a fresh one by the given duration votes, in
    order of arrival. *)
Definition afterDurationVotes (g : string)
    (vs : list (string * GameDuration)) : GameState :=
  fold_left (fun s v => recordDurationVote s (fst v) (snd v)) vs
            (createGameState g).

(** A session with duration votes and accusations, used to exercise the
    statements on concrete data. *)
Definition sampleVotes : GameState :=
  recordVote
    (recordVote
       (recordVote
          (afterDurationVotes "g" [("A", D5); ("B", D7); ("C", D5)]%string)
          "A" "B") "B" "B") "C" "A".

(** Two players, the first made imposter. *)
Definition twoPlayersOneImposter : GameState :=
  setImposter
    (addPlayer (addPlayer (createGameState "g") "A" "0xA") "B" "0xB") "A".

(** A group of three players and the bot; every private message is
    delivered, the draws pick the second player as imposter and the third
    as first speaker. *)
Definition sampleEnv : Env :=
  mkEnv ["bot"; "P1"; "P2"; "P3"]%string (fun id => id) (fun _ => true)
        1 "Apple"%string 2 (fun a => a).

Definition sampleManager : GameManager := newGameManager "bot" 0.

(** Start, three duration votes, and the duration deadline: the roles are
    assigned and the speaker selection is waiting for its 2000 ms. *)
Definition toAssigningRoles : list Event :=
  [evStartGame "g" sampleEnv;
   evDurationVote "g" "P1" D5; evDurationVote "g" "P2" D7;
   evDurationVote "g" "P3" D5;
   evElapse 60000; evFire 0 sampleEnv]%string.

(** ... then the speaker is selected and the discussion runs out. *)
Definition toVoting : list Event :=
  toAssigningRoles
  ++ [evElapse 2000; evFire 1 sampleEnv; evElapse 300000; evFire 2 sampleEnv].

Definition votingWithVotes : GameManager :=
  run sampleManager
      (toVoting ++ [evPlayerVote "g" "P1" "P2"; evPlayerVote "g" "P2" "P2";
                    evPlayerVote "g" "P3" "P1"]%string).

(** The only vote names somebody who is not a player. *)
Definition votingForStranger : GameManager :=
  run sampleManager (toVoting ++ [evPlayerVote "g" "P1" "ghost"]%string).

Definition afterDurationVoting : GameManager :=
  run sampleManager
      [evStartGame "g" sampleEnv;
       evDurationVote "g" "P1" D5; evDurationVote "g" "P2" D7;
       evDurationVote "g" "P3" D5; evElapse 60000]%string.

(* ================================================================== *)
(** ** The transitions of a session                                     *)
(* ================================================================== *)

(** The members the manager deals roles to: everybody but the bot. *)
Definition nonBotMembers (bot : string) (env : Env) : list string :=
  filter (fun id => negb (String.eqb id bot)) (members env).

(** The session [assignRoles] builds before it sends the roles: players
    added, imposter drawn, secret word set. *)
Definition assignedSession (bot : string) (env : Env) (s : GameState)
  : GameState :=
  let s2 := addMembers bot env (set_status assigning_roles s) in
  let s3 := match nth_error (nonBotMembers bot env)
                    (randomIndex (randomImposter env)
                                 (List.length (nonBotMembers bot env))) with
            | Some id => setImposter s2 id
            | None => s2
            end in
  set_secretWord (Some (randomWord env)) s3.

(** The number of players whose role message is delivered. *)
Definition dmCount (env : Env) (s : GameState) : nat :=
  List.length (filter (fun p => dmDelivered env (inboxId p))
                      (JsMap.values (players s))).

(** [(gameState.selectedDuration || 5) * 60 * 1000] *)
Definition discussionMs (s : GameState) : Z :=
  ((match selectedDuration s with Some d => minutes d | None => 5 end)
   * 60 * 1000)%Z.

(** The session after [selectRandomSpeaker] has picked [speaker] and
    [startDiscussionPhase] has run at instant [t]. *)
Definition discussionSession (t : Z) (speaker : Player) (s : GameState)
  : GameState :=
  set_discussionEndTime (Some (t + discussionMs s)%Z)
    (set_startedAt (Some t)
       (set_status discussion
          (set_currentSpeakerInboxId (Some (inboxId speaker)) s))).

(** The session after [startVotingPhase] has run at instant [t]. *)
Definition votingSession (t : Z) (s : GameState) : GameState :=
  set_votingStartedAt (Some t) (set_status voting s).

(** The session after [finalizeVoting] has recorded the result [r]. *)
Definition endedSession (r : VoteResults) (s : GameState) : GameState :=
  set_status ended
    (set_winner (Some (determineWinner s (votedOut r)))
       (set_votedOutInboxId (Some (votedOut r)) s)).

(** The ways in which an event of the manager replaces a session. *)
Inductive sessionStep (bot : string) : GameState -> GameState -> Prop :=
| stepReset s :
    sessionStep bot s (resetGameState s)
| stepStart s :
    isGameActive s = false ->
    sessionStep bot s (set_status voting_duration (resetGameState s))
| stepDurationVote s voter d :
    status s = voting_duration ->
    sessionStep bot s (recordDurationVote s voter d)
| stepAssign s env w :
    status s = voting_duration ->
    calculateWinningDuration s = Some w ->
    3 <= List.length (nonBotMembers bot env) ->
    sessionStep bot s
      (assignedSession bot env (set_selectedDuration (Some w) s))
| stepSpeaker s t speaker :
    In speaker (JsMap.values (players s)) ->
    sessionStep bot s (discussionSession t speaker s)
| stepVoting s t :
    status s = discussion ->
    sessionStep bot s (votingSession t s)
| stepPlayerVote s voter votee :
    status s = voting ->
    sessionStep bot s (recordVote s voter votee)
| stepResults s r p :
    status s = voting ->
    calculateVoteResults s = Some r ->
    JsMap.get (votedOut r) (players s) = Some p ->
    sessionStep bot s (endedSession r s).

(** The group an event acts on: the addressed one, or the one captured by
    the callback of the timeout that fires. *)
Definition callbackGroup (cb : Callback) : string :=
  match cb with
  | cbFinalizeDurationVote g | cbSelectRandomSpeaker g
  | cbEndDiscussionPhase g | cbFinalizeVoting g | cbResetGameState g => g
  end.

Definition eventGroup (m : GameManager) (e : Event) : option string :=
  match e with
  | evStartGame g _ | evCancelGame g
  | evDurationVote g _ _ | evPlayerVote g _ _ => Some g
  | evElapse _ => None
  | evFire h _ =>
      match findTimeout h m with
      | Some t => if (due t <=? now m)%Z then Some (callbackGroup (callback t))
                  else None
      | None => None
      end
  end.

(** From [m] to [m'] nothing changed for the groups other than [g]: their
    sessions and their tracked timers are the same. *)
Definition elsewhereSame (g : string) (m m' : GameManager) : Prop :=
  forall g', g <> g' ->
    JsMap.get g' (games m') = JsMap.get g' (games m)
    /\ JsMap.get g' (timers m') = JsMap.get g' (timers m).

(** Two groups with a game each, on the same manager. *)
Definition twoGroups : GameManager :=
  run sampleManager [evStartGame "g" sampleEnv; evStartGame "h" sampleEnv]%string.

(** What holds of every session of every run of the manager. *)
Record sessionWF (s : GameState) : Prop := mkSessionWF {
  (* the player map: one record per identifier, stored under its own id *)
  wf_playerKeys : NoDup (JsMap.keys (players s));
  wf_playerIds : forall k p, In (k, p) (players s) -> inboxId p = k;
  (* one vote per voter *)
  wf_voteKeys : NoDup (JsMap.keys (votes s));
  wf_voters : NoDup (map voterInboxId (durationVotes s));
  (* the flags of a player say what the votes map says *)
  wf_flags : forall k p, In (k, p) (players s) ->
      hasVoted p = JsMap.has k (votes s)
      /\ votedFor p = JsMap.get k (votes s);
  wf_roles : rolesConsistent s;
  (* nothing is left over in an idle session or during the duration poll *)
  wf_blank : status s = idle -> s = createGameState (groupId s);
  wf_polling : status s = voting_duration ->
      s = set_durationVotes (durationVotes s)
            (freshVotingDuration (groupId s));
  (* from the role assignment on the game is fully set up *)
  wf_dealt : status s <> idle -> status s <> voting_duration ->
      (exists i, imposterInboxId s = Some i)
      /\ (exists w, secretWord s = Some w)
      /\ (exists d, selectedDuration s = Some d
                    /\ calculateWinningDuration s = Some d)
      /\ players s <> [];
  (* a recorded result names a player and the winner that goes with it *)
  wf_result : match votedOutInboxId s with
              | Some v => winner s = Some (determineWinner s v)
                          /\ JsMap.has v (players s) = true
              | None => winner s = None
              end;
  wf_ended : status s = ended -> votedOutInboxId s <> None;
  (* the discussion ends its voted number of minutes after it started *)
  wf_timing : match startedAt s with
              | Some t => discussionEndTime s = Some (t + discussionMs s)%Z
              | None => discussionEndTime s = None
              end;
  wf_speaker : forall id, currentSpeakerInboxId s = Some id ->
      JsMap.has id (players s) = true
}.

(** Every player record is stored under its own identifier and has not
    voted yet. *)
Definition freshPlayers (ps : JsMap.t string Player) : Prop :=
  NoDup (JsMap.keys ps)
  /\ forall k p, In (k, p) ps ->
       inboxId p = k /\ hasVoted p = false /\ votedFor p = None.

(** The managers that arise from a new one by a sequence of events. *)
Definition reachable (m : GameManager) : Prop :=
  exists bot t0 es, m = run (newGameManager bot t0) es.

(** The private message [assignRoles] sends to a player. *)
Definition roleMessage (word : string) (p : Player) : Output :=
  SendDm (inboxId p)
         (if isImposter p then DmYouAreImposter else DmSecretWord word).

(** The players whose private message is delivered, in map order. *)
Definition deliveredPlayers (env : Env) (s : GameState) : list Player :=
  filter (fun p => dmDelivered env (inboxId p)) (JsMap.values (players s)).

(** Right after the duration poll of the sample game, with its votes. *)
Definition pollClosed : GameManager :=
  run (newGameManager "bot" 0)
      [evStartGame "g" sampleEnv;
       evDurationVote "g" "P1" D5; evDurationVote "g" "P2" D7;
       evDurationVote "g" "P3" D5; evElapse 60000]%string.

(** A group of the bot and two players; and one in which no private
    message can be delivered. *)
Definition smallGroupEnv : Env :=
  mkEnv ["bot"; "P1"; "P2"]%string (fun id => id) (fun _ => true)
        1 "Apple"%string 2 (fun a => a).

Definition unreachableEnv : Env :=
  mkEnv ["bot"; "P1"; "P2"; "P3"]%string (fun id => id) (fun _ => false)
        1 "Apple"%string 2 (fun a => a).



(** The sample game with its roles dealt, resp. in its discussion. *)
Definition rolesDealt : GameManager := run sampleManager toAssigningRoles.

Definition inDiscussion : GameManager :=
  run sampleManager
      (toAssigningRoles ++ [evElapse 2000; evFire 1 sampleEnv; evElapse 300000]).

(** The callbacks armed through [setTimer], which keeps one handle per
    group; the speaker selection and the reset are armed with a bare
    [setTimeout]. *)
Definition trackedKind (cb : Callback) : bool :=
  match cb with
  | cbFinalizeDurationVote _ | cbEndDiscussionPhase _ | cbFinalizeVoting _ =>
      true
  | cbSelectRandomSpeaker _ | cbResetGameState _ => false
  end.

(** The book-keeping of the timers. *)
Record timersWF (m : GameManager) : Prop := mkTimersWF {
  tw_issued : handlesIssued m;
  tw_tracked : timersIssued m;
  tw_keys : NoDup (JsMap.keys (timers m));
  (* no handle is armed twice *)
  tw_nodup : NoDup (map handle (pending m));
  (* an armed timeout of a tracked kind is the one tracked for its group *)
  tw_single : forall t, In t (pending m) ->
      trackedKind (callback t) = true ->
      JsMap.get (callbackGroup (callback t)) (timers m) = Some (handle t);
  (* an armed timeout whose handle a group tracks is of a tracked kind and
     calls back into that group *)
  tw_owner : forall g t, In t (pending m) ->
      JsMap.get g (timers m) = Some (handle t) ->
      trackedKind (callback t) = true /\ callbackGroup (callback t) = g
}.

(** What a handler acting on group [g] does to the timers: nothing, re-arm
    the tracked timer of [g], arm an untracked timeout, or clear the
    tracked timer of [g]. *)
Inductive timerEffect (g : string) (m m' : GameManager) : Prop :=
| teNone :
    timers m' = timers m -> pending m' = pending m ->
    nextHandle m' = nextHandle m ->
    timerEffect g m m'
| teTracked cb d :
    trackedKind cb = true -> callbackGroup cb = g ->
    timers m' = JsMap.set g (nextHandle m) (timers m) ->
    pending m' = withoutTracked g m ++ [mkTimeout (nextHandle m) d cb] ->
    nextHandle m' = S (nextHandle m) ->
    timerEffect g m m'
| teUntracked cb d :
    trackedKind cb = false ->
    timers m' = timers m ->
    pending m' = pending m ++ [mkTimeout (nextHandle m) d cb] ->
    nextHandle m' = S (nextHandle m) ->
    timerEffect g m m'
| teClear :
    timers m' = JsMap.delete g (timers m) ->
    pending m' = withoutTracked g m ->
    nextHandle m' = nextHandle m ->
    timerEffect g m m'.

(** Two managers with the same timers, armed timeouts, next handle and
    clock; they may differ in sessions and messages. *)
Definition sameTimers (m m' : GameManager) : Prop :=
  timers m' = timers m /\ pending m' = pending m
  /\ nextHandle m' = nextHandle m /\ now m' = now m.

(** The handles the manager tracks. *)
Definition trackedHandles (m : GameManager) : list nat :=
  JsMap.values (timers m).

(* ================================================================== *)
(** ** messageHandlers.ts                                               *)
(* ================================================================== *)

(** The handlers as they stand next to the manager above (the other copy of
    the file adds a name-registration phase that [GameState.ts] does not
    have).  Each handler either calls one method of the manager or sends one
    message of its own, so its result is the manager afterwards and,
    possibly, a reply.

    Message texts are taken to be ASCII: [toLowerCase] maps A..Z to a..z,
    and [trim] strips the ASCII white space and line terminators of
    ECMAScript (tab, line feed, vertical tab, form feed, carriage return,
    space) from both ends. *)
Definition lowerAscii (c : ascii) : ascii :=
  let n := nat_of_ascii c in
  if (65 <=? n) && (n <=? 90) then ascii_of_nat (n + 32) else c.

Fixpoint toLowerCase (s : string) : string :=
  match s with
  | EmptyString => EmptyString
  | String c r => String (lowerAscii c) (toLowerCase r)
  end.

Definition isWhiteSpace (c : ascii) : bool :=
  let n := nat_of_ascii c in
  ((9 <=? n) && (n <=? 13)) || (n =? 32).

Fixpoint trimStart (s : string) : string :=
  match s with
  | EmptyString => EmptyString
  | String c r => if isWhiteSpace c then trimStart r else s
  end.

Fixpoint trimEnd (s : string) : string :=
  match s with
  | EmptyString => EmptyString
  | String c r =>
      match trimEnd r with
      | EmptyString =>
          if isWhiteSpace c then EmptyString else String c EmptyString
      | r' => String c r'
      end
  end.

Definition trim (s : string) : string := trimEnd (trimStart s).

(** The strings that pass [/^[1-3]$/]. *)
Inductive Digit := one | two | three.

Definition digitOf (command : string) : option Digit :=
  if String.eqb command "1" then Some one
  else if String.eqb command "2" then Some two
  else if String.eqb command "3" then Some three
  else None.

(** [durationMap[number]], and [parseInt(number) - 1]. *)
Definition durationMap (number : Digit) : GameDuration :=
  match number with one => D5 | two => D7 | three => D10 end.

Definition playerIndex (number : Digit) : nat :=
  match number with one => 0 | two => 1 | three => 2 end.

(** The status message, with the numbers that are printed into it. *)
Inductive StatusReport :=
| StNoActiveGame
| StVotingDuration (votesReceived : nat)
| StAssigningRoles (playerCount : nat)
| StDiscussion (minutesLeft secondsLeft : Z) (playerCount : nat)
| StVoting (votesCast playerCount : nat)
| StEnded (imposterWon : bool).

(** What a handler sends to the conversation by itself. *)
Inductive Reply :=
| ReplyHelp
| ReplyStatus (r : StatusReport).

Definition handleNumberResponse (g : string) (number : Digit)
    (senderInboxId : string) (m : GameManager) : GameManager :=
  match getGameStatus g m with
  | None => m
  | Some s =>
      if GameStatus_eqb (status s) voting_duration
      then handleDurationVote g senderInboxId (durationMap number) m
      else if GameStatus_eqb (status s) voting
      then match nth_error (JsMap.values (players s)) (playerIndex number) with
           | Some p => handlePlayerVote g senderInboxId (inboxId p) m
           | None => m
           end
      else m
  end.

(** [Math.max(0, Math.floor((end - now) / 1000))] *)
Definition timeLeft (s : GameState) (t : Z) : Z :=
  match discussionEndTime s with
  | Some e => Z.max 0 ((e - t) / 1000)
  | None => 0
  end.

Definition handleStatusCommand (g : string) (m : GameManager)
  : StatusReport :=
  match getGameStatus g m with
  | None => StNoActiveGame
  | Some s =>
      match status s with
      | idle => StNoActiveGame
      | voting_duration => StVotingDuration (List.length (durationVotes s))
      | assigning_roles => StAssigningRoles (JsMap.size (players s))
      | discussion =>
          StDiscussion (timeLeft s (now m) / 60) (Z.rem (timeLeft s (now m)) 60)
                       (JsMap.size (players s))
      | voting => StVoting (JsMap.size (votes s)) (JsMap.size (players s))
      | ended =>
          StEnded (match winner s with Some imposter => true | _ => false end)
      end
  end.

Definition isCommand (command long short : string) : bool :=
  String.eqb command long || String.eqb command short.

Definition handleTextMessage (g : string) (env : Env)
    (messageContent senderInboxId : string) (m : GameManager)
  : GameManager * option Reply :=
  let command := trim (toLowerCase messageContent) in
  if isCommand command "/imposter start" "/start"
  then (startGame g env m, None)
  else if isCommand command "/imposter cancel" "/cancel"
  then (cancelGame g m, None)
  else if isCommand command "/imposter help" "/help"
  then (m, Some ReplyHelp)
  else if isCommand command "/imposter status" "/status"
  then (m, Some (ReplyStatus (handleStatusCommand g m)))
  else match digitOf command with
       | Some number =>
           (handleNumberResponse g number senderInboxId m, None)
       | None => (m, None)
       end.

(** [[5, 7, 10].includes(duration)] *)
Definition durationOf (z : Z) : option GameDuration :=
  if (z =? 5)%Z then Some D5
  else if (z =? 7)%Z then Some D7
  else if (z =? 10)%Z then Some D10
  else None.

(** [parseInt] is left to the caller: [None] stands for [NaN]. *)
Definition handleIntentMessage (parseInt : string -> option Z)
    (g id actionId voterInboxId : string) (m : GameManager) : GameManager :=
  match getGameStatus g m with
  | None => m
  | Some _ =>
      if String.prefix "duration-" id then
        match parseInt actionId with
        | Some z =>
            match durationOf z with
            | Some duration => handleDurationVote g voterInboxId duration m
            | None => m
            end
        | None => m
        end
      else if String.prefix "voting-" id
      then handlePlayerVote g voterInboxId actionId m
      else m
  end.

(** The events a chat message can cause in group [g]. *)
Definition isCommandEvent (g : string) (e : Event) : Prop :=
  match e with
  | evStartGame g' _ | evCancelGame g'
  | evDurationVote g' _ _ | evPlayerVote g' _ _ => g' = g
  | evElapse _ | evFire _ _ => False
  end.

(* ================================================================== *)
(** ** WordList.ts                                                      *)
(* ================================================================== *)

Definition WORD_LIST : list string :=
  ["Pizza"; "Hamburger"; "Sushi"; "Taco"; "Coffee"; "Smoothie";
   "Pancakes"; "Chocolate"; "Popcorn"; "Ice Cream"; "Elephant";
   "Penguin"; "Dolphin"; "Giraffe"; "Butterfly"; "Kangaroo"; "Octopus";
   "Flamingo"; "Hedgehog"; "Chameleon"; "Smartphone"; "Laptop";
   "Headphones"; "Keyboard"; "Camera"; "Drone"; "Router"; "Smartwatch";
   "Tablet"; "USB Cable"; "Rainbow"; "Waterfall"; "Mountain"; "Volcano";
   "Aurora"; "Sunset"; "Lightning"; "Tornado"; "Earthquake"; "Tsunami";
   "Basketball"; "Soccer"; "Chess"; "Bowling"; "Surfing"; "Skateboard";
   "Tennis"; "Golf"; "Baseball"; "Swimming"; "Umbrella"; "Sunglasses";
   "Backpack"; "Watch"; "Bicycle"; "Skateboard"; "Telescope";
   "Microscope"; "Globe"; "Compass"; "Guitar"; "Piano"; "Microphone";
   "Karaoke"; "Cinema"; "Painting"; "Sculpture"; "Theater"; "Concert";
   "Festival"; "Astronaut"; "Rocket"; "Satellite"; "Galaxy";
   "Telescope"; "Black Hole"; "Comet"; "Meteor"; "Space Station";
   "Mars Rover"; "Dragon"; "Unicorn"; "Phoenix"; "Mermaid"; "Wizard";
   "Fairy"; "Giant"; "Centaur"; "Kraken"; "Griffin"; "Chef";
   "Firefighter"; "Astronaut"; "Detective"; "Scientist"; "Artist";
   "Musician"; "Pilot"; "Surgeon"; "Architect"; "Airplane"; "Submarine";
   "Helicopter"; "Hot Air Balloon"; "Roller Coaster"; "Spaceship";
   "Cruise Ship"; "Motorcycle"; "Train"; "Scooter"; "Snowflake";
   "Sunshine"; "Raindrop"; "Thunder"; "Breeze"; "Fog"; "Hailstorm";
   "Blizzard"; "Hurricane"; "Sandstorm"]%string.

(** [WORD_LIST[Math.floor(Math.random() * WORD_LIST.length)]] for the draw
    [r]. *)
Definition getRandomWord (r : nat) : option string :=
  nth_error WORD_LIST (randomIndex r (List.length WORD_LIST)).

(** [array.slice(0, end)] for an integer [end]: a negative [end] counts
    from the end of the array. *)
Definition sliceTo {A : Type} (l : list A) (e : Z) : list A :=
  let n := Z.of_nat (List.length l) in
  let k := if (e <? 0)%Z then Z.max (n + e) 0 else Z.min e n in
  firstn (Z.to_nat k) l.

(** [shuffled] is what [[...WORD_LIST].sort(() => Math.random() - 0.5)]
    produced, some rearrangement of the list; [count] is an integer. *)
Definition getRandomWords (shuffled : list string) (count : Z) : list string :=
  sliceTo shuffled (Z.min count (Z.of_nat (List.length WORD_LIST))).

Definition isValidWord (word : string) : bool :=
  existsb (String.eqb word) WORD_LIST.

(* ================================================================== *)
(** ** PollContent.ts                                                   *)
(* ================================================================== *)

Record PollOption := mkPollOption {
  option_id : string;
  label : string
}.

Record PollContent := mkPollContent {
  poll_id : string;
  question : string;
  options : list PollOption;
  expiresAt : option string;
  showResultsBeforeVoting : option bool
}.

Record PollResponse := mkPollResponse {
  pollId : string;
  optionId : string;
  response_voterInboxId : string
}.

(** The errors [validateContent] throws, in the order of its checks. *)
Inductive PollError :=
| PollIdRequired
| PollQuestionRequired
| PollOptionsRequired
| PollOptionsExceedTen
| OptionIdRequired (index : nat)
| OptionLabelRequired (index : nat)
| OptionIdsNotUnique
| PollExpiresAtInvalid.

Definition isEmpty (s : string) : bool := String.eqb s EmptyString.

(** The [forEach] over the options: the first option with an empty id or
    label throws. *)
Fixpoint checkOptions (os : list PollOption) (index : nat)
  : option PollError :=
  match os with
  | [] => None
  | o :: rest =>
      if isEmpty (option_id o) then Some (OptionIdRequired index)
      else if isEmpty (label o) then Some (OptionLabelRequired index)
      else checkOptions rest (S index)
  end.

(** [new Set(optionIds).size] *)
Definition distinctCount (ids : list string) : nat :=
  List.length (nodup string_dec ids).

(** The values are of the types of [PollContent]; [isValidISO8601] stands
    for the [Date] round trip.  [None]: the content is accepted. *)
Definition validateContent (isValidISO8601 : string -> bool)
    (content : PollContent) : option PollError :=
  if isEmpty (poll_id content) then Some PollIdRequired
  else if isEmpty (question content) then Some PollQuestionRequired
  else if List.length (options content) =? 0 then Some PollOptionsRequired
  else if 10 <? List.length (options content) then Some PollOptionsExceedTen
  else
    match checkOptions (options content) 0 with
    | Some e => Some e
    | None =>
        let optionIds := map option_id (options content) in
        if negb (List.length optionIds =? distinctCount optionIds)
        then Some OptionIdsNotUnique
        else
          match expiresAt content with
          | Some timestamp =>
              if negb (isEmpty timestamp) && negb (isValidISO8601 timestamp)
              then Some PollExpiresAtInvalid
              else None
          | None => None
          end
    end.

Definition createPoll (id question : string) (options : list PollOption)
  : PollContent :=
  mkPollContent id question options None None.

Definition createPollResponse (pollId optionId voterInboxId : string)
  : PollResponse :=
  mkPollResponse pollId optionId voterInboxId.

(* ================================================================== *)
(** ** nameResolver.ts                                                  *)
(* ================================================================== *)

(** [`${address.slice(0, 6)}...${address.slice(-4)}`] for an address of at
    least ten characters. *)
Definition shortenAddress (address : string) : string :=
  if String.length address <? 10 then address
  else (String.substring 0 6 address ++ "..."
        ++ String.substring (String.length address - 4) 4 address)%string.

(** A name that was found: neither [null] nor empty. *)
Definition found (name : option string) : option string :=
  match name with
  | Some n => if isEmpty n then None else Some n
  | None => None
  end.


Definition noLookup (address : string) : option string := None.





(* ================================================================== *)
(** ** Facts about the insertion-ordered map                            *)
(* ================================================================== *)

Section JsMapFacts.
Context {K V : Type} `{EqKey K}.
Implicit Types (m : JsMap.t K V) (k : K) (v : V).

Lemma get_set_same k v m : JsMap.get k (JsMap.set k v m) = Some v.
Proof.
  induction m as [|[k' v'] m IH]; simpl.
  - now rewrite keqb_refl.
  - destruct (keqb k' k) eqn:E; simpl; rewrite E; auto.
Qed.

Lemma get_set_other k k' v m :
  k <> k' -> JsMap.get k' (JsMap.set k v m) = JsMap.get k' m.
Proof.
  intros N. induction m as [|[k0 v0] m IH]; simpl.
  - apply keqb_neq in N. now rewrite N.
  - destruct (keqb k0 k) eqn:E; simpl.
    + apply keqb_eq in E. subst k0. apply keqb_neq in N. now rewrite N.
    + now rewrite IH.
Qed.

Lemma has_In_keys k m : JsMap.has k m = true <-> In k (JsMap.keys m).
Proof.
  unfold JsMap.has.
  induction m as [|[k0 v0] m IH]; simpl.
  - split; [discriminate | tauto].
  - destruct (keqb k0 k) eqn:E.
    + apply keqb_eq in E. tauto.
    + apply keqb_neq in E. rewrite IH. tauto.
Qed.

Lemma get_None_keys k m : JsMap.get k m = None <-> ~ In k (JsMap.keys m).
Proof.
  rewrite <- has_In_keys. unfold JsMap.has.
  destruct (JsMap.get k m); split; intros; congruence.
Qed.

Lemma keys_set k v m :
  JsMap.keys (JsMap.set k v m)
  = if JsMap.has k m then JsMap.keys m else JsMap.keys m ++ [k].
Proof.
  unfold JsMap.has.
  induction m as [|[k0 v0] m IH]; simpl; [reflexivity|].
  destruct (keqb k0 k) eqn:E; simpl; [reflexivity|].
  rewrite IH. now destruct (JsMap.get k m).
Qed.

Lemma In_get k v m :
  NoDup (JsMap.keys m) -> In (k, v) m -> JsMap.get k m = Some v.
Proof.
  induction m as [|[k0 v0] m IH]; simpl; [tauto|].
  intros ND [E|I].
  - inversion E; subst. now rewrite keqb_refl.
  - inversion ND as [|? ? Hn ND']; subst.
    destruct (keqb k0 k) eqn:E.
    + apply keqb_eq in E. subst k0. exfalso. apply Hn.
      change k with (fst (k, v)). now apply in_map.
    + auto.
Qed.

Lemma get_In k v m : JsMap.get k m = Some v -> In (k, v) m.
Proof.
  induction m as [|[k0 v0] m IH]; simpl; [discriminate|].
  destruct (keqb k0 k) eqn:E.
  - apply keqb_eq in E. intros [= ->]. subst. now left.
  - auto.
Qed.

Lemma NoDup_keys_set k v m :
  NoDup (JsMap.keys m) -> NoDup (JsMap.keys (JsMap.set k v m)).
Proof.
  intros ND. rewrite keys_set. destruct (JsMap.has k m) eqn:E; [assumption|].
  apply NoDup_app; [assumption | repeat constructor; simpl; tauto |].
  intros x Hx [<-|[]]. apply has_In_keys in Hx. congruence.
Qed.

Lemma get_delete_same k m :
  NoDup (JsMap.keys m) -> JsMap.get k (JsMap.delete k m) = None.
Proof.
  induction m as [|[k0 v0] m IH]; simpl; [reflexivity|].
  intros ND. inversion ND as [|? ? Hn ND']; subst.
  destruct (keqb k0 k) eqn:E; simpl.
  - apply keqb_eq in E. subst. now apply get_None_keys.
  - rewrite E. auto.
Qed.
End JsMapFacts.

(* ================================================================== *)
(** ** The plurality tally                                              *)
(* ================================================================== *)

Section TallyFacts.
Context {K : Type} `{EqKey K}.
Implicit Types (k w : K) (ks : list K).

Lemma occ_app k a b : occ k (a ++ b) = occ k a + occ k b.
Proof. induction a as [|x a IH]; simpl; [reflexivity | rewrite IH; lia]. Qed.

Lemma occ_pos_In k ks : 0 < occ k ks <-> In k ks.
Proof.
  induction ks as [|x r IH]; simpl; [split; [lia | tauto]|].
  destruct (keqb x k) eqn:E.
  - apply keqb_eq in E. split; [auto | lia].
  - apply keqb_neq in E. simpl. rewrite IH. tauto.
Qed.

Lemma occ_zero_notin k ks : occ k ks = 0 <-> ~ In k ks.
Proof. rewrite <- occ_pos_In. lia. Qed.

Lemma firstIndex_lt_In k ks : firstIndex k ks < List.length ks <-> In k ks.
Proof.
  induction ks as [|x r IH]; simpl; [split; [lia | tauto]|].
  destruct (keqb x k) eqn:E.
  - apply keqb_eq in E. split; [auto | lia].
  - apply keqb_neq in E. rewrite <- IH. split; [right; lia | intros [?|?]; [tauto | lia]].
Qed.

Lemma firstIndex_notin k ks : ~ In k ks -> firstIndex k ks = List.length ks.
Proof.
  induction ks as [|x r IH]; simpl; [reflexivity|].
  intros N. destruct (keqb x k) eqn:E.
  - apply keqb_eq in E. tauto.
  - rewrite IH; tauto.
Qed.

Lemma firstIndex_app_in k a b : In k a -> firstIndex k (a ++ b) = firstIndex k a.
Proof.
  induction a as [|x a IH]; simpl; [tauto|].
  intros I. destruct (keqb x k) eqn:E; [reflexivity|].
  apply keqb_neq in E. rewrite IH; [reflexivity | tauto].
Qed.

Lemma firstIndex_app_notin k a b :
  ~ In k a -> firstIndex k (a ++ b) = List.length a + firstIndex k b.
Proof.
  induction a as [|x a IH]; simpl; [reflexivity|].
  intros N. destruct (keqb x k) eqn:E.
  - apply keqb_eq in E. tauto.
  - rewrite IH; tauto.
Qed.

(** *** First loop: the counts, in order of first arrival *)

Lemma countVotes_snoc ks k : countVotes (ks ++ [k]) = bump (countVotes ks) k.
Proof. unfold countVotes. now rewrite fold_left_app. Qed.

Lemma countVotes_get ks k :
  JsMap.get k (countVotes ks)
  = if occ k ks =? 0 then None else Some (occ k ks).
Proof.
  induction ks as [|x ks IH] using rev_ind; [reflexivity|].
  rewrite countVotes_snoc, occ_app. unfold bump.
  change (occ k [x]) with ((if keqb x k then 1 else 0) + 0).
  destruct (keqb x k) eqn:E.
  - apply keqb_eq in E. subst x. rewrite get_set_same, IH.
    destruct (Nat.eqb_spec (occ k ks + (1 + 0)) 0) as [Z|NZ]; [lia|].
    f_equal. destruct (Nat.eqb_spec (occ k ks) 0) as [O|O]; simpl; lia.
  - apply keqb_neq in E. rewrite get_set_other by assumption.
    rewrite IH. now replace (occ k ks + (0 + 0)) with (occ k ks) by lia.
Qed.

Lemma countVotes_keys_In ks k : In k (JsMap.keys (countVotes ks)) <-> In k ks.
Proof.
  rewrite <- has_In_keys. unfold JsMap.has. rewrite countVotes_get.
  rewrite <- occ_pos_In.
  destruct (occ k ks); simpl; split; intros; (lia || congruence).
Qed.

Lemma countVotes_keys_snoc ks k :
  JsMap.keys (countVotes (ks ++ [k]))
  = if occ k ks =? 0 then JsMap.keys (countVotes ks) ++ [k]
    else JsMap.keys (countVotes ks).
Proof.
  rewrite countVotes_snoc. unfold bump. rewrite keys_set.
  unfold JsMap.has. rewrite countVotes_get. now destruct (occ k ks =? 0).
Qed.

Lemma countVotes_NoDup ks : NoDup (JsMap.keys (countVotes ks)).
Proof.
  induction ks as [|x ks IH] using rev_ind; [constructor|].
  rewrite countVotes_snoc. now apply NoDup_keys_set.
Qed.

Lemma countVotes_length ks :
  List.length (JsMap.keys (countVotes ks)) <= List.length ks.
Proof.
  induction ks as [|x ks IH] using rev_ind; [simpl; lia|].
  rewrite countVotes_keys_snoc, length_app. simpl.
  destruct (occ x ks =? 0); [rewrite length_app; simpl|]; lia.
Qed.

(** The keys of the count map are ordered as the first votes arrived. *)
Lemma countVotes_order ks a b :
  In a ks -> In b ks ->
  (firstIndex a (JsMap.keys (countVotes ks))
     < firstIndex b (JsMap.keys (countVotes ks))
   <-> firstIndex a ks < firstIndex b ks).
Proof.
  induction ks as [|x ks IH] using rev_ind; [simpl; tauto|].
  intros Ia Ib. rewrite countVotes_keys_snoc.
  destruct (occ x ks =? 0) eqn:O.
  - apply Nat.eqb_eq, occ_zero_notin in O.
    assert (Ox : ~ In x (JsMap.keys (countVotes ks)))
      by now rewrite countVotes_keys_In.
    apply in_app_or in Ia, Ib. simpl in Ia, Ib.
    assert (Da : In a ks \/ (a = x /\ ~ In a ks)).
    { destruct Ia as [?|[<-|[]]]; auto. }
    assert (Db : In b ks \/ (b = x /\ ~ In b ks)).
    { destruct Ib as [?|[<-|[]]]; auto. }
    clear Ia Ib.
    destruct Da as [Ia|[-> Na]], Db as [Ib|[-> Nb]].
    + rewrite !firstIndex_app_in by (assumption || now apply countVotes_keys_In).
      now apply IH.
    + rewrite (firstIndex_app_in a) by now apply countVotes_keys_In.
      rewrite (firstIndex_app_in a ks) by assumption.
      rewrite !firstIndex_app_notin by assumption.
      pose proof (proj2 (firstIndex_lt_In a ks) Ia).
      pose proof (proj2 (firstIndex_lt_In a (JsMap.keys (countVotes ks)))
                    (proj2 (countVotes_keys_In ks a) Ia)).
      lia.
    + rewrite (firstIndex_app_in b) by now apply countVotes_keys_In.
      rewrite (firstIndex_app_in b ks) by assumption.
      rewrite !firstIndex_app_notin by assumption.
      pose proof (proj2 (firstIndex_lt_In b ks) Ib).
      pose proof (proj2 (firstIndex_lt_In b (JsMap.keys (countVotes ks)))
                    (proj2 (countVotes_keys_In ks b) Ib)).
      lia.
    + lia.
  - apply Nat.eqb_neq in O.
    assert (Ix : In x ks) by (apply occ_pos_In; lia).
    assert (Ia' : In a ks).
    { apply in_app_or in Ia. simpl in Ia. destruct Ia as [?|[<-|[]]]; auto. }
    assert (Ib' : In b ks).
    { apply in_app_or in Ib. simpl in Ib. destruct Ib as [?|[<-|[]]]; auto. }
    rewrite !firstIndex_app_in by assumption. now apply IH.
Qed.
End TallyFacts.

Section PickMaxFacts.
Context {K : Type} `{EqKey K}.

(** *** Second loop: the first entry that carries the maximum *)

Lemma pickMax_fold (es : list (K * nat)) : forall m0 w0 r,
  r = fold_left pickStep es (m0, w0) ->
  (forall e, In e es -> snd e <= fst r)
  /\ m0 <= fst r
  /\ ((fst r = m0 /\ snd r = w0)
      \/ (m0 < fst r
          /\ exists pre k post,
               es = pre ++ (k, fst r) :: post
               /\ snd r = Some k
               /\ forall e, In e pre -> snd e < fst r)).
Proof.
  induction es as [|[k c] es IH]; intros m0 w0 r Er.
  - subst r. simpl. split; [tauto|]. split; [lia|]. now left.
  - cbn [fold_left] in Er.
    assert (Est : pickStep (m0, w0) (k, c)
                  = if m0 <? c then (c, Some k) else (m0, w0)) by reflexivity.
    rewrite Est in Er. clear Est.
    destruct (Nat.ltb_spec m0 c) as [L|L].
    + destruct (IH _ _ _ Er) as (Hall & Hle & Hcase).
      split; [intros e [<-|I]; simpl; auto|].
      split; [lia|]. right. split; [lia|].
      destruct Hcase as [[E1 E2]|(L2 & pre & k' & post & E & E2 & Hpre)].
      * exists [], k, es. simpl. rewrite E1.
        split; [reflexivity|]. split; [assumption|]. intros e [].
      * exists ((k, c) :: pre), k', post. simpl. rewrite E at 1.
        repeat split; auto. intros e [<-|I]; simpl; auto.
    + destruct (IH _ _ _ Er) as (Hall & Hle & Hcase).
      split; [intros e [<-|I]; simpl; auto; lia|].
      split; [lia|].
      destruct Hcase as [[E1 E2]|(L2 & pre & k' & post & E & E2 & Hpre)].
      * now left.
      * right. split; [lia|].
        exists ((k, c) :: pre), k', post. simpl. rewrite E at 1.
        repeat split; auto. intros e [<-|I]; simpl; auto; lia.
Qed.

Lemma NoDup_app_disjoint (a b : list K) k :
  NoDup (a ++ b) -> In k b -> ~ In k a.
Proof.
  induction a as [|x a IH]; simpl; [tauto|].
  intros ND Ib [->|Ia].
  - inversion ND; subst. apply H2. apply in_or_app. now right.
  - inversion ND; subst. now apply IH.
Qed.

(** The two loops together: on a non-empty list of votes the tally returns
    the earliest-arrived option among those with the highest count, and
    that count. *)
Lemma tally_pluralityFirst (ks : list K) :
  ks <> [] ->
  exists w, pickMax (JsMap.entries (countVotes ks)) = (occ w ks, Some w)
            /\ pluralityFirst w ks.
Proof.
  intros NE. unfold pickMax, JsMap.entries.
  set (r := fold_left pickStep (countVotes ks) (0, None)).
  pose proof (pickMax_fold (countVotes ks) 0 None r eq_refl) as P.
  destruct P as (Hall & _ & Hcase).
  assert (Hcnt : forall k, In k ks -> In (k, occ k ks) (countVotes ks)).
  { intros k I. apply get_In. rewrite countVotes_get.
    apply occ_pos_In in I. destruct (Nat.eqb_spec (occ k ks) 0); [lia|reflexivity]. }
  assert (Hpos : 0 < fst r).
  { destruct ks as [|x ks']; [congruence|].
    assert (I : In x (x :: ks')) by now left.
    pose proof (Hall _ (Hcnt x I)) as Hx. cbn [snd] in Hx.
    apply occ_pos_In in I. lia. }
  destruct Hcase as [[E _]|(_ & pre & w & post & E & Ew & Hpre)]; [lia|].
  assert (Iw : In (w, fst r) (countVotes ks)).
  { rewrite E. apply in_or_app. right. now left. }
  apply (In_get _ _ _ (countVotes_NoDup ks)) in Iw.
  rewrite countVotes_get in Iw.
  destruct (Nat.eqb_spec (occ w ks) 0) as [Z|NZ]; [discriminate|].
  injection Iw as Ec.
  exists w. split.
  { rewrite (surjective_pairing r). now rewrite Ew, Ec. }
  assert (Iwk : In w ks) by (apply occ_pos_In; lia).
  split; [assumption|]. split.
  - intros k. destruct (Nat.eqb_spec (occ k ks) 0) as [Z|NZk]; [lia|].
    assert (Ik : In k ks) by (apply occ_pos_In; lia).
    pose proof (Hall _ (Hcnt k Ik)) as Hk. cbn [snd] in Hk. lia.
  - intros k Nkw Eocc.
    assert (Ik : In k ks) by (apply occ_pos_In; lia).
    apply (countVotes_order ks w k Iwk Ik).
    pose proof (countVotes_NoDup ks) as ND.
    pose proof (Hcnt k Ik) as Ike.
    unfold JsMap.keys in *. rewrite E in ND, Ike |- *.
    rewrite map_app in ND |- *. simpl in ND |- *.
    assert (Ikpost : In k (map fst post)).
    { apply in_app_or in Ike. destruct Ike as [I|[I|I]].
      - apply Hpre in I. simpl in I. lia.
      - inversion I. congruence.
      - change k with (fst (k, occ k ks)). now apply in_map. }
    assert (Nkpre : ~ In k (map fst pre)).
    { apply (NoDup_app_disjoint _ _ _ ND). now right. }
    assert (Nwpre : ~ In w (map fst pre)).
    { apply (NoDup_app_disjoint _ _ _ ND). now left. }
    rewrite !firstIndex_app_notin by assumption. simpl.
    rewrite keqb_refl.
    assert (Ewk : keqb w k = false) by (apply keqb_neq; congruence).
    rewrite Ewk. lia.
Qed.
End PickMaxFacts.

(** Closes an equation between closed terms by evaluation. *)
Ltac computes := vm_compute; reflexivity.

(* ================================================================== *)
(** ** Properties of the tally functions                                *)
(* ================================================================== *)

Lemma calculateWinningDuration_pluralityFirst (s : GameState) :
  durationVotes s <> [] ->
  exists w, calculateWinningDuration s = Some w
            /\ pluralityFirst w (map duration (durationVotes s)).
Proof.
  intros NE. unfold calculateWinningDuration.
  destruct (tally_pluralityFirst (map duration (durationVotes s))) as (w & E & P).
  { destruct (durationVotes s); [congruence | discriminate]. }
  exists w. rewrite E. destruct (durationVotes s); [congruence|]. now split.
Qed.

Lemma calculateVoteResults_pluralityFirst (s : GameState) :
  votes s <> [] ->
  exists w, pluralityFirst w (JsMap.values (votes s))
            /\ calculateVoteResults s
               = if String.eqb w EmptyString then None
                 else Some (mkVoteResults w (occ w (JsMap.values (votes s)))).
Proof.
  intros NE. unfold calculateVoteResults.
  destruct (tally_pluralityFirst (JsMap.values (votes s))) as (w & E & P).
  { unfold JsMap.values. destruct (votes s); [congruence | discriminate]. }
  exists w. split; [assumption|].
  unfold JsMap.size. destruct (votes s) as [|e v] eqn:Ev; [congruence|].
  simpl List.length. simpl Nat.eqb. rewrite E. reflexivity.
Qed.

(** C1, as the code has it.  Both tally functions return an option that has
    the highest count and whose first vote precedes the first vote of every
    other option with that count in the order in which the votes are
    stored: [calculateWinningDuration] over the duration votes in array
    order, [calculateVoteResults] over the accusations in the order the
    votes map iterates them (it also returns the count, and answers null for
    the empty identifier).  Votes 5, 7, 5 of three voters give 5; votes 7, 5
    of two voters give 7.  The array holds the duration votes in order of
    arrival, a voter who votes again moving to the end; the map holds the
    accusations in the order of the voters' first votes, a voter who votes
    again keeping their place. *)
Theorem plurality_breaks_ties_by_earliest_arrival (s : GameState) :
  (durationVotes s <> [] ->
   exists w, calculateWinningDuration s = Some w
             /\ pluralityFirst w (map duration (durationVotes s)))
  /\ (votes s <> [] ->
      exists w, pluralityFirst w (JsMap.values (votes s))
                /\ calculateVoteResults s
                   = if String.eqb w EmptyString then None
                     else Some (mkVoteResults w
                                  (occ w (JsMap.values (votes s)))))
  /\ calculateWinningDuration
       (afterDurationVotes "g" [("A", D5); ("B", D7); ("C", D5)]%string)
     = Some D5
  /\ calculateWinningDuration
       (afterDurationVotes "g" [("A", D7); ("B", D5)]%string)
     = Some D7
  /\ (forall voter d,
        durationVotes (recordDurationVote s voter d)
        = filter (fun v => negb (String.eqb (voterInboxId v) voter))
                 (durationVotes s)
          ++ [mkDurationVote voter d])
  /\ (forall voter votee,
        JsMap.keys (votes (recordVote s voter votee))
        = if JsMap.has voter (votes s) then JsMap.keys (votes s)
          else JsMap.keys (votes s) ++ [voter]).
Proof.
  split; [apply calculateWinningDuration_pluralityFirst|].
  split; [apply calculateVoteResults_pluralityFirst|].
  split; [reflexivity|]. split; [reflexivity|].
  split; [reflexivity|].
  intros voter votee.
  assert (E : votes (recordVote s voter votee)
              = JsMap.set voter votee (votes s)).
  { unfold recordVote. cbn [players set_votes].
    now destruct (JsMap.get voter (players s)). }
  rewrite E. apply keys_set.
Qed.

Lemma determineWinner_group (s : GameState) (votedOutId : string) :
  determineWinner s votedOutId = group
  <-> imposterInboxId s = Some votedOutId.
Proof.
  unfold determineWinner. destruct (imposterInboxId s) as [i|].
  - destruct (String.eqb_spec votedOutId i) as [->|N];
      split; intros; congruence.
  - split; intros; congruence.
Qed.

(** C6. [determineWinner] answers [group] exactly when the voted-out
    identifier is the session's imposter identifier, and [imposter] in every
    other case (also when no imposter is set). *)
Theorem determineWinner_group_iff_imposter (s : GameState) (votedOutId : string) :
  (determineWinner s votedOutId = group
   <-> imposterInboxId s = Some votedOutId)
  /\ (determineWinner s votedOutId = imposter
      <-> imposterInboxId s <> Some votedOutId).
Proof.
  split; [apply determineWinner_group|].
  rewrite <- determineWinner_group.
  destruct (determineWinner s votedOutId); split; intros; congruence.
Qed.

(** C9. [resetGameState] clears every optional field, empties the three
    collections and sets the phase to idle; the group identifier stays. *)
Theorem resetGameState_clears_session (s : GameState) :
  selectedDuration (resetGameState s) = None
  /\ imposterInboxId (resetGameState s) = None
  /\ secretWord (resetGameState s) = None
  /\ votedOutInboxId (resetGameState s) = None
  /\ winner (resetGameState s) = None
  /\ startedAt (resetGameState s) = None
  /\ discussionEndTime (resetGameState s) = None
  /\ votingStartedAt (resetGameState s) = None
  /\ currentSpeakerInboxId (resetGameState s) = None
  /\ players (resetGameState s) = JsMap.empty
  /\ JsMap.size (players (resetGameState s)) = 0
  /\ votes (resetGameState s) = JsMap.empty
  /\ durationVotes (resetGameState s) = []
  /\ status (resetGameState s) = idle
  /\ groupId (resetGameState s) = groupId s.
Proof. repeat split. Qed.

Lemma plurality_breaks_ties_by_earliest_arrival_witness :
  (exists w, calculateWinningDuration sampleVotes = Some w
             /\ pluralityFirst w (map duration (durationVotes sampleVotes)))
  /\ (exists w, pluralityFirst w (JsMap.values (votes sampleVotes))
                /\ calculateVoteResults sampleVotes
                   = if String.eqb w EmptyString then None
                     else Some (mkVoteResults w
                                  (occ w (JsMap.values (votes sampleVotes))))).
Proof.
  destruct (plurality_breaks_ties_by_earliest_arrival sampleVotes)
    as (Hd & Hv & _).
  split; [apply Hd | apply Hv]; discriminate.
Defined.

(** C1 as stated fails for the accusations.  A accuses X, B accuses Y, then
    A changes to Z: Y and Z stand with one vote each and the vote for Y
    arrived first, but the votes map still lists A before B, and the tally
    answers Z. *)
Lemma revote_tie_goes_to_the_later_arrival :
  let cs := [callVote "A" "X"; callVote "B" "Y"; callVote "A" "Z"]%string in
  let s := applyCalls (createGameState "g") cs in
  accusationsByArrival cs = [("B", "Y"); ("A", "Z")]%string
  /\ JsMap.entries (votes s) = [("A", "Z"); ("B", "Y")]%string
  /\ pluralityFirst "Y"%string (map snd (accusationsByArrival cs))
  /\ ~ pluralityFirst "Z"%string (map snd (accusationsByArrival cs))
  /\ calculateVoteResults s = Some (mkVoteResults "Z" 1).
Proof.
  cbv zeta.
  replace (accusationsByArrival _)
    with [("B", "Y"); ("A", "Z")]%string by computes.
  split; [reflexivity|]. split; [computes|]. cbn [map snd].
  split; [|split; [|computes]].
  - split; [now left|]. split.
    + intros k. cbn [occ]. cbn [keqb EqKey_string].
      rewrite String.eqb_refl.
      destruct (String.eqb_spec "Y" k) as [<-|_]; [vm_compute; lia|].
      destruct (String.eqb "Z" k); vm_compute; lia.
    + intros k N _. cbn [firstIndex]. cbn [keqb EqKey_string].
      rewrite String.eqb_refl.
      destruct (String.eqb_spec "Y" k) as [E|_];
        [elim N; now rewrite E | lia].
  - intros (_ & _ & F).
    assert (L : firstIndex "Z"%string ["Y"; "Z"]%string
                < firstIndex "Y"%string ["Y"; "Z"]%string).
    { apply F; [discriminate | reflexivity]. }
    cbn in L. lia.
Qed.

(** A second vote of the same voter keeps the voter's place in the votes
    map, while a second duration vote moves the voter to the end of the
    array: the two tallies see re-votes at different positions. *)
Remark revote_position :
  calculateVoteResults
    (recordVote (recordVote (recordVote (createGameState "g")
       "A" "X") "B" "Y") "A" "Z")
  = Some (mkVoteResults "Z" 1)
  /\ calculateWinningDuration
       (afterDurationVotes "g" [("A", D5); ("B", D7); ("A", D10)]%string)
     = Some D7.
Proof. split; computes. Qed.

(** Among tied options the one that was voted for first wins, also when
    another one reached the common count before it did. *)
Remark first_arrival_not_first_to_reach :
  calculateWinningDuration
    (afterDurationVotes "g"
       [("A", D5); ("B", D7); ("C", D7); ("D", D5)]%string)
  = Some D5.
Proof. computes. Qed.

(* ================================================================== *)
(** ** One vote per voter, last write wins                              *)
(* ================================================================== *)

Lemma recordVote_durationVotes s voter votee :
  durationVotes (recordVote s voter votee) = durationVotes s.
Proof.
  unfold recordVote. simpl.
  now destruct (JsMap.get voter (players s)).
Qed.

Lemma recordVote_votes s voter votee :
  votes (recordVote s voter votee) = JsMap.set voter votee (votes s).
Proof.
  unfold recordVote. simpl.
  now destruct (JsMap.get voter (players s)).
Qed.

Lemma NoDup_voters_filter (p : DurationVote -> bool) (l : list DurationVote) :
  NoDup (map voterInboxId l) -> NoDup (map voterInboxId (filter p l)).
Proof.
  induction l as [|v l IH]; simpl; [auto|].
  intros ND. inversion ND as [|? ? Hn ND']; subst.
  destruct (p v); simpl; [constructor|]; auto.
  intros I. apply Hn. apply in_map_iff in I. destruct I as (x & E & I).
  apply filter_In in I. apply in_map_iff. exists x. tauto.
Qed.

Lemma recordDurationVote_NoDup s voter d :
  NoDup (map voterInboxId (durationVotes s)) ->
  NoDup (map voterInboxId (durationVotes (recordDurationVote s voter d))).
Proof.
  intros ND. unfold recordDurationVote. simpl. rewrite map_app. simpl.
  apply NoDup_app.
  - now apply NoDup_voters_filter.
  - repeat constructor. simpl. tauto.
  - intros x I [<-|[]]. apply in_map_iff in I. destruct I as (v & E & I).
    apply filter_In in I. destruct I as [_ I]. rewrite E in I.
    now rewrite String.eqb_refl in I.
Qed.

Lemma recordDurationVote_durationsOf s voter d voter' :
  durationsOf voter' (recordDurationVote s voter d)
  = if String.eqb voter voter' then [d] else durationsOf voter' s.
Proof.
  unfold durationsOf, recordDurationVote. simpl.
  rewrite filter_app, map_app. simpl.
  destruct (String.eqb_spec voter voter') as [->|N].
  - replace (filter (fun v => String.eqb (voterInboxId v) voter')
               (filter (fun v => negb (String.eqb (voterInboxId v) voter'))
                  (durationVotes s))) with (@nil DurationVote); [reflexivity|].
    induction (durationVotes s) as [|v l IH]; simpl; [reflexivity|].
    destruct (String.eqb (voterInboxId v) voter') eqn:E; simpl; [assumption|].
    now rewrite E.
  - rewrite app_nil_r. f_equal.
    induction (durationVotes s) as [|v l IH]; simpl; [reflexivity|].
    destruct (String.eqb_spec (voterInboxId v) voter) as [E|E]; simpl.
    + destruct (String.eqb_spec (voterInboxId v) voter'); [congruence | assumption].
    + destruct (String.eqb (voterInboxId v) voter'); [f_equal|]; assumption.
Qed.

Lemma get_set_votes (m : JsMap.t string string) voter votee voter' :
  JsMap.get voter' (JsMap.set voter votee m)
  = if String.eqb voter voter' then Some votee else JsMap.get voter' m.
Proof.
  destruct (String.eqb_spec voter voter') as [->|N].
  - apply get_set_same.
  - now apply get_set_other.
Qed.

(** C7. Starting from a session that holds at most one entry per voter,
    every sequence of [recordDurationVote] and [recordVote] calls leaves at
    most one duration entry and one accusation per voter, and each holds the
    value of that voter's most recent call (the earlier value when the voter
    made no call). *)
Theorem one_vote_per_voter_last_write_wins (s : GameState) (cs : list VoteCall) :
  oneVotePerVoter s ->
  oneVotePerVoter (applyCalls s cs)
  /\ (forall voter,
        durationsOf voter (applyCalls s cs)
        = match lastDuration voter cs with
          | Some d => [d]
          | None => durationsOf voter s
          end)
  /\ (forall voter,
        JsMap.get voter (votes (applyCalls s cs))
        = match lastVote voter cs with
          | Some votee => Some votee
          | None => JsMap.get voter (votes s)
          end).
Proof.
  intros Hs. induction cs as [|c cs IH] using rev_ind.
  - repeat split; try apply Hs; reflexivity.
  - destruct IH as ((ND1 & ND2) & Hd & Hv).
    unfold applyCalls, lastDuration, lastVote in *.
    rewrite !fold_left_app. simpl.
    set (s' := fold_left applyCall cs s) in *.
    destruct c as [voter d | voter votee]; simpl.
    + split; [split|split].
      * now apply recordDurationVote_NoDup.
      * assumption.
      * intros v. rewrite fold_left_app. simpl.
        rewrite recordDurationVote_durationsOf, Hd.
        now destruct (String.eqb voter v).
      * intros v. rewrite fold_left_app. simpl. apply Hv.
    + split; [split|split].
      * now rewrite recordVote_durationVotes.
      * rewrite recordVote_votes. now apply NoDup_keys_set.
      * intros v. rewrite fold_left_app. simpl.
        unfold durationsOf. rewrite recordVote_durationVotes. apply Hd.
      * intros v. rewrite fold_left_app. simpl.
        rewrite recordVote_votes, get_set_votes, Hv.
        now destruct (String.eqb voter v).
Qed.

Lemma one_vote_per_voter_last_write_wins_witness :
  oneVotePerVoter
    (applyCalls sampleVotes
       [callDurationVote "A" D10; callVote "C" "B"; callDurationVote "A" D7]%string)
  /\ durationsOf "A"
       (applyCalls sampleVotes
          [callDurationVote "A" D10; callVote "C" "B"; callDurationVote "A" D7]%string)
     = [D7]
  /\ JsMap.get "C"%string
       (votes (applyCalls sampleVotes
          [callDurationVote "A" D10; callVote "C" "B"; callDurationVote "A" D7]%string))
     = Some "B"%string.
Proof.
  assert (H0 : oneVotePerVoter sampleVotes).
  { split; vm_compute; repeat constructor; simpl; intuition discriminate. }
  destruct (one_vote_per_voter_last_write_wins sampleVotes
              [callDurationVote "A" D10; callVote "C" "B";
               callDurationVote "A" D7]%string H0) as (Hn & Hd & Hv).
  split; [exact Hn|]. split; [exact (Hd "A"%string) | exact (Hv "C"%string)].
Defined.

(* ================================================================== *)
(** ** Properties of the manager                                        *)
(* ================================================================== *)

Lemma session_storeGame g s m : session g (storeGame g s m) = s.
Proof.
  unfold session, getGameState, storeGame. simpl.
  now rewrite get_set_same.
Qed.

Lemma getGameState_spec g m :
  getGameState g m
  = (session g m,
     match JsMap.get g (games m) with
     | Some _ => m
     | None => storeGame g (createGameState g) m
     end).
Proof.
  unfold session, getGameState, storeGame.
  now destruct (JsMap.get g (games m)).
Qed.

Lemma session_created g m :
  JsMap.get g (games m) = None -> session g m = createGameState g.
Proof. unfold session, getGameState. now intros ->. Qed.

Lemma session_present g m s :
  JsMap.get g (games m) = Some s -> session g m = s.
Proof. unfold session, getGameState. now intros ->. Qed.

(** Unfolds a handler down to the record fields of the manager. *)
Ltac unfold_manager :=
  unfold send, emit, storeGame, setTimer, clearTimer, setTimeout,
    clearTimeout, set_games, set_timers, set_pending, set_nextHandle,
    set_now in *; simpl in *.

Lemma session_ext g m m' : games m = games m' -> session g m = session g m'.
Proof.
  unfold session, getGameState. intros ->.
  now destruct (JsMap.get g (games m')).
Qed.

Lemma session_after_getGameState g m :
  session g (snd (getGameState g m)) = session g m.
Proof.
  unfold session, getGameState.
  destruct (JsMap.get g (games m)) eqn:G; simpl.
  - now rewrite G.
  - now rewrite get_set_same.
Qed.

Lemma getGameState_frame g m :
  timers (snd (getGameState g m)) = timers m
  /\ pending (snd (getGameState g m)) = pending m
  /\ nextHandle (snd (getGameState g m)) = nextHandle m
  /\ now (snd (getGameState g m)) = now m
  /\ outbox (snd (getGameState g m)) = outbox m
  /\ clientInboxId (snd (getGameState g m)) = clientInboxId m.
Proof.
  unfold getGameState. destruct (JsMap.get g (games m)); simpl; tauto.
Qed.

Lemma games_setTimer g cb d m : games (setTimer g cb d m) = games m.
Proof. unfold setTimer. now destruct (JsMap.get g (timers m)). Qed.

Lemma games_clearTimer g m : games (clearTimer g m) = games m.
Proof. unfold clearTimer. now destruct (JsMap.get g (timers m)). Qed.

Lemma setTimer_spec g cb d m :
  timers (setTimer g cb d m) = JsMap.set g (nextHandle m) (timers m)
  /\ pending (setTimer g cb d m)
     = withoutTracked g m ++ [mkTimeout (nextHandle m) (now m + d) cb]
  /\ outbox (setTimer g cb d m) = outbox m
  /\ nextHandle (setTimer g cb d m) = S (nextHandle m).
Proof.
  unfold setTimer, withoutTracked.
  destruct (JsMap.get g (timers m)); repeat split.
Qed.

Lemma startGame_cases
    (g : string) (env : Env) (m : GameManager) :
  (isGameActive (session g m) = true ->
     session g (startGame g env m) = session g m
     /\ timers (startGame g env m) = timers m
     /\ pending (startGame g env m) = pending m
     /\ outbox (startGame g env m) = outbox m ++ [Send g MsgAlreadyInProgress])
  /\ (isGameActive (session g m) = false ->
      List.length (members env) < 3 ->
        session g (startGame g env m) = session g m
        /\ (status (session g m) = idle ->
            status (session g (startGame g env m)) = idle)
        /\ timers (startGame g env m) = timers m
        /\ pending (startGame g env m) = pending m
        /\ outbox (startGame g env m)
           = outbox m ++ [Send g MsgNeedThreeToStart])
  /\ (isGameActive (session g m) = false ->
      3 <= List.length (members env) ->
        session g (startGame g env m)
        = freshVotingDuration (groupId (session g m))
        /\ status (session g (startGame g env m)) = voting_duration
        /\ JsMap.get g (timers (startGame g env m)) = Some (nextHandle m)
        /\ pending (startGame g env m)
           = withoutTracked g m
             ++ [mkTimeout (nextHandle m) (now m + 60000)
                    (cbFinalizeDurationVote g)]
        /\ outbox (startGame g env m)
           = outbox m ++ [Send g MsgGameStarting;
                          Send g (MsgDurationPoll (now m))]).
Proof.
  unfold startGame.
  rewrite (surjective_pairing (getGameState g m)).
  change (fst (getGameState g m)) with (session g m).
  destruct (getGameState_frame g m) as (Ht & Hp & Hn & Hw & Ho & _).
  pose proof (session_after_getGameState g m) as Hs.
  set (m1 := snd (getGameState g m)) in *.
  split; [|split].
  - intros A. rewrite A.
    rewrite (session_ext g _ m1) by reflexivity.
    cbn [send emit timers pending outbox]. now rewrite Ht, Hp, Ho.
  - intros A L. rewrite A.
    destruct (Nat.ltb_spec (List.length (members env)) 3) as [_|]; [|lia].
    rewrite (session_ext g _ m1) by reflexivity. rewrite Hs.
    cbn [send emit timers pending outbox]. rewrite Ht, Hp, Ho. auto.
  - intros A L. rewrite A.
    destruct (Nat.ltb_spec (List.length (members env)) 3) as [|_]; [lia|].
    set (s1 := set_status voting_duration (resetGameState (session g m))).
    set (m2 := send g (MsgDurationPoll (now m1))
                 (send g MsgGameStarting (storeGame g s1 m1))).
    destruct (setTimer_spec g (cbFinalizeDurationVote g) 60000 m2)
      as (Et & Ep & Eo & _).
    rewrite (session_ext g _ m2) by apply games_setTimer.
    rewrite (session_ext g m2 (storeGame g s1 m1)) by reflexivity.
    rewrite session_storeGame, Et, Ep, Eo.
    assert (Ew : withoutTracked g m2 = withoutTracked g m).
    { unfold withoutTracked. subst m2. cbn [send emit storeGame set_games timers pending].
      now rewrite Ht, Hp. }
    rewrite Ew. subst m2.
    cbn [send emit storeGame set_games timers pending outbox nextHandle now].
    rewrite Hn, Hw, Ho, get_set_same, <- app_assoc.
    repeat split.
Qed.

Lemma isGameActive_spec s :
  isGameActive s = true <-> status s <> idle /\ status s <> ended.
Proof. unfold isGameActive. destruct (status s); simpl; intuition congruence. Qed.

(** C3. [startGame] on an active session only reports that a game is in
    progress; on an inactive session of a group with fewer than three
    members it only reports that players are missing (an idle session stays
    idle); otherwise the session becomes a cleared one in the
    voting-duration phase, the two start messages are sent, the timer
    tracked for the group is replaced, and the new one calls
    [finalizeDurationVote] 60000 ms later. *)
Theorem startGame_guards_then_fresh_voting_duration
    (g : string) (env : Env) (m : GameManager) :
  (status (session g m) <> idle -> status (session g m) <> ended ->
     session g (startGame g env m) = session g m
     /\ timers (startGame g env m) = timers m
     /\ pending (startGame g env m) = pending m
     /\ outbox (startGame g env m) = outbox m ++ [Send g MsgAlreadyInProgress])
  /\ (status (session g m) = idle \/ status (session g m) = ended ->
      List.length (members env) < 3 ->
        session g (startGame g env m) = session g m
        /\ (status (session g m) = idle ->
            status (session g (startGame g env m)) = idle)
        /\ timers (startGame g env m) = timers m
        /\ pending (startGame g env m) = pending m
        /\ outbox (startGame g env m)
           = outbox m ++ [Send g MsgNeedThreeToStart])
  /\ (status (session g m) = idle \/ status (session g m) = ended ->
      3 <= List.length (members env) ->
        session g (startGame g env m)
        = freshVotingDuration (groupId (session g m))
        /\ status (session g (startGame g env m)) = voting_duration
        /\ JsMap.get g (timers (startGame g env m)) = Some (nextHandle m)
        /\ pending (startGame g env m)
           = withoutTracked g m
             ++ [mkTimeout (nextHandle m) (now m + 60000)
                    (cbFinalizeDurationVote g)]
        /\ outbox (startGame g env m)
           = outbox m ++ [Send g MsgGameStarting;
                          Send g (MsgDurationPoll (now m))]).
Proof.
  destruct (startGame_cases g env m) as (Ha & Hf & Hs).
  assert (Inactive : status (session g m) = idle \/ status (session g m) = ended ->
                     isGameActive (session g m) = false).
  { intros I. destruct (isGameActive (session g m)) eqn:A; [|reflexivity].
    apply isGameActive_spec in A. tauto. }
  split; [|split].
  - intros N1 N2. apply Ha. now apply isGameActive_spec.
  - intros I. now apply Hf, Inactive.
  - intros I. now apply Hs, Inactive.
Qed.

Lemma dmPlayers_frame env word ps : forall n m,
  let r := fold_left (dmStep env word) ps (n, m) in
  games (snd r) = games m /\ timers (snd r) = timers m
  /\ pending (snd r) = pending m /\ nextHandle (snd r) = nextHandle m
  /\ now (snd r) = now m /\ clientInboxId (snd r) = clientInboxId m.
Proof.
  induction ps as [|p ps IH]; intros n m; cbn [fold_left]; [cbn; tauto|].
  assert (E : dmStep env word (n, m) p
              = if dmDelivered env (inboxId p)
                then (S n, emit (SendDm (inboxId p)
                                   (if isImposter p then DmYouAreImposter
                                    else DmSecretWord word)) m)
                else (n, m)) by reflexivity.
  rewrite E. destruct (dmDelivered env (inboxId p)); [|apply IH].
  exact (IH (S n) (emit (SendDm (inboxId p)
                           (if isImposter p then DmYouAreImposter
                            else DmSecretWord word)) m)).
Qed.

Lemma addMembers_fields bot env s :
  status (addMembers bot env s) = status s
  /\ selectedDuration (addMembers bot env s) = selectedDuration s
  /\ groupId (addMembers bot env s) = groupId s.
Proof.
  unfold addMembers. revert s.
  induction (members env) as [|x l IH]; intros s; simpl; [tauto|].
  destruct (IH (if negb (String.eqb x bot)
                then addPlayer s x (addressOf env x) else s)) as (E1 & E2 & E3).
  rewrite E1, E2, E3.
  destruct (negb (String.eqb x bot)); [|tauto].
  unfold addPlayer. now destruct (JsMap.has x (players s)).
Qed.

Lemma setImposter_fields s id :
  status (setImposter s id) = status s
  /\ selectedDuration (setImposter s id) = selectedDuration s
  /\ groupId (setImposter s id) = groupId s.
Proof. unfold setImposter. now destruct (JsMap.get id (players s)). Qed.

(** Role assignment either aborts into a reset session or leaves the
    session in the assigning-roles phase with its selected duration. *)
Lemma assignRoles_outcome g env m :
  (status (session g (assignRoles g env m)) = assigning_roles
   /\ selectedDuration (session g (assignRoles g env m))
      = selectedDuration (session g m))
  \/ session g (assignRoles g env m) = resetGameState (session g m).
Proof.
  unfold assignRoles. rewrite getGameState_spec.
  set (m1 := match JsMap.get g (games m) with
             | Some _ => m
             | None => storeGame g (createGameState g) m
             end).
  set (s := session g m).
  destruct (List.length _ <? 3).
  - right. now rewrite session_storeGame.
  - set (s2 := addMembers (clientInboxId m1) env (set_status assigning_roles s)).
    set (s3 := match nth_error _ _ with Some id => setImposter s2 id | None => s2 end).
    set (s4 := set_secretWord (Some (randomWord env)) s3).
    assert (F : status s4 = assigning_roles
                /\ selectedDuration s4 = selectedDuration s
                /\ groupId s4 = groupId s).
    { subst s4. simpl.
      assert (F3 : status s3 = status s2
                   /\ selectedDuration s3 = selectedDuration s2
                   /\ groupId s3 = groupId s2).
      { subst s3. destruct (nth_error _ _); [apply setImposter_fields | tauto]. }
      destruct F3 as (-> & -> & ->). subst s2.
      destruct (addMembers_fields (clientInboxId m1) env
                  (set_status assigning_roles s)) as (-> & -> & ->).
      tauto. }
    destruct (dmPlayers env (randomWord env) (JsMap.values (players s4))
                (storeGame g s4 m1)) as [n m2] eqn:D.
    pose proof (dmPlayers_frame env (randomWord env)
                  (JsMap.values (players s4)) 0 (storeGame g s4 m1)) as Fr.
    unfold dmPlayers in D. rewrite D in Fr. simpl in Fr.
    destruct Fr as (Gm & _).
    destruct (n =? 0).
    + right. rewrite session_storeGame. unfold resetGameState.
      destruct F as (_ & _ & ->). reflexivity.
    + left.
      assert (E : session g (snd (setTimeout (cbSelectRandomSpeaker g) 2000
                     (send g (MsgRolesAssigned n (List.length
                        (filter (fun id => negb (String.eqb id (clientInboxId m1)))
                                (members env)))) m2))) = s4).
      { erewrite session_ext; [apply (session_storeGame g s4 m1)|].
        unfold_manager. exact Gm. }
      rewrite E. tauto.
Qed.

(** C5. When the duration-vote deadline finds the session in the
    voting-duration phase: without any recorded duration vote the failure is
    reported, the session is reset to idle and no duration is selected;
    otherwise the plurality winner is stored as [selectedDuration] and the
    handler continues as [assignRoles] on that session, which leaves the
    session in the assigning-roles phase with this duration unless role
    assignment itself aborts into a reset. *)
Theorem finalizeDurationVote_aborts_or_assigns_roles
    (g : string) (env : Env) (m : GameManager) :
  status (session g m) = voting_duration ->
  (durationVotes (session g m) = [] ->
     session g (finalizeDurationVote g env m) = resetGameState (session g m)
     /\ status (session g (finalizeDurationVote g env m)) = idle
     /\ selectedDuration (session g (finalizeDurationVote g env m)) = None
     /\ pending (finalizeDurationVote g env m) = pending m
     /\ outbox (finalizeDurationVote g env m)
        = outbox m ++ [Send g MsgNoDurationVotes])
  /\ (durationVotes (session g m) <> [] ->
      exists w,
        calculateWinningDuration (session g m) = Some w
        /\ pluralityFirst w (map duration (durationVotes (session g m)))
        /\ finalizeDurationVote g env m
           = assignRoles g env
               (send g (MsgDurationSelected w)
                  (storeGame g (set_selectedDuration (Some w) (session g m))
                     (snd (getGameState g m))))
        /\ ((status (session g (finalizeDurationVote g env m)) = assigning_roles
             /\ selectedDuration (session g (finalizeDurationVote g env m))
                = Some w)
            \/ session g (finalizeDurationVote g env m)
               = resetGameState (session g m))).
Proof.
  intros St. unfold finalizeDurationVote.
  rewrite (surjective_pairing (getGameState g m)).
  change (fst (getGameState g m)) with (session g m).
  rewrite St. simpl negb. cbv iota.
  split.
  - intros E. unfold calculateWinningDuration. rewrite E.
    rewrite session_storeGame. repeat split.
    + rewrite getGameState_spec. simpl.
      destruct (JsMap.get g (games m)); reflexivity.
    + rewrite getGameState_spec. simpl.
      destruct (JsMap.get g (games m)); reflexivity.
  - intros NE.
    destruct (calculateWinningDuration_pluralityFirst _ NE) as (w & E & P).
    exists w. rewrite E.
    split; [reflexivity|]. split; [exact P|]. split; [reflexivity|].
    set (m2 := send g (MsgDurationSelected w)
                 (storeGame g (set_selectedDuration (Some w) (session g m))
                    (snd (getGameState g m)))).
    assert (S2 : session g m2 = set_selectedDuration (Some w) (session g m)).
    { subst m2. erewrite session_ext; [apply session_storeGame|]. reflexivity. }
    destruct (assignRoles_outcome g env m2) as [[A B]|R].
    + left. rewrite A, B, S2. now split.
    + right. rewrite R, S2. reflexivity.
Qed.

Lemma calculateVoteResults_empty s :
  votes s = [] -> calculateVoteResults s = None.
Proof. unfold calculateVoteResults. now intros ->. Qed.

Lemma calculateVoteResults_Some s r :
  calculateVoteResults s = Some r ->
  votes s <> []
  /\ pluralityFirst (votedOut r) (JsMap.values (votes s))
  /\ voteCount r = occ (votedOut r) (JsMap.values (votes s)).
Proof.
  intros E.
  assert (NE : votes s <> []).
  { intros Z. rewrite (calculateVoteResults_empty _ Z) in E. discriminate. }
  split; [assumption|].
  destruct (calculateVoteResults_pluralityFirst s NE) as (w & P & E').
  rewrite E' in E. destruct (String.eqb w EmptyString); [discriminate|].
  injection E as <-. now split.
Qed.

Lemma find_issued_then_new (l : list Timeout) (t0 : Timeout) :
  Forall (fun t => handle t < handle t0) l ->
  find (fun t => handle t =? handle t0) (l ++ [t0]) = Some t0.
Proof.
  induction 1 as [|t l Ht _ IH]; simpl.
  - now rewrite Nat.eqb_refl.
  - destruct (Nat.eqb_spec (handle t) (handle t0)); [lia | assumption].
Qed.

Lemma elapse_fields dt m :
  (0 <= dt)%Z ->
  pending (elapse dt m) = pending m
  /\ now (elapse dt m) = (now m + dt)%Z
  /\ games (elapse dt m) = games m.
Proof.
  intros H. unfold elapse. destruct (Z.leb_spec 0 dt); [|lia]. repeat split.
Qed.

Lemma finalizeVoting_unfold g env m :
  status (session g m) = voting ->
  finalizeVoting g env m
  = let s := session g m in
    let m1 := snd (getGameState g m) in
    match calculateVoteResults s with
    | None => storeGame g (resetGameState s) (send g MsgNoVotesDraw m1)
    | Some r =>
        match JsMap.get (votedOut r) (players s) with
        | None => storeGame g (resetGameState s) (send g MsgVoteError m1)
        | Some votedOutPlayer =>
            let w := determineWinner s (votedOut r) in
            let s1 := set_winner (Some w)
                        (set_votedOutInboxId (Some (votedOut r)) s) in
            let imposterName :=
              match imposterInboxId s1 with
              | Some i =>
                  match JsMap.get i (players s1) with
                  | Some p => resolveName env (address p)
                  | None => "Unknown"%string
                  end
              | None => "Unknown"%string
              end in
            let breakdown :=
              map (fun e => (displayName env s1 (fst e),
                             displayName env s1 (snd e)))
                  (JsMap.entries (votes s1)) in
            let m2 :=
              send g (MsgResults (resolveName env (address votedOutPlayer))
                        (voteCount r) (isImposter votedOutPlayer)
                        imposterName (secretWord s1) w breakdown)
                   (storeGame g s1 m1) in
            let m3 := storeGame g (set_status ended s1) m2 in
            snd (setTimeout (cbResetGameState g) 5000 m3)
        end
    end.
Proof.
  intros St. unfold finalizeVoting.
  rewrite (surjective_pairing (getGameState g m)).
  change (fst (getGameState g m)) with (session g m).
  now rewrite St.
Qed.

Lemma pluralityFirst_unique (w w' : string) (ks : list string) :
  pluralityFirst w ks -> pluralityFirst w' ks -> w = w'.
Proof.
  intros (_ & Hm & Hf) (_ & Hm' & Hf').
  destruct (String.eqb_spec w w') as [E|N]; [exact E|].
  pose proof (Hm w') as L1. pose proof (Hm' w) as L2.
  assert (E : occ w' ks = occ w ks) by lia.
  pose proof (Hf w' (fun X => N (eq_sym X)) E) as F1.
  pose proof (Hf' w N (eq_sym E)) as F2. lia.
Qed.

(** C10, as the code has it.  When the voting deadline finds accusations
    whose plurality winner is not a key of [players], [finalizeVoting]
    resets the session to idle, sets neither [votedOutInboxId] nor
    [winner], sends no results and schedules nothing; what it reports is
    the error, unless the winner is the empty identifier, for which the
    tally answers null and the draw without votes is reported. *)
Theorem finalizeVoting_unknown_votee_resets
    (g : string) (env : Env) (m : GameManager) (w : string) :
  status (session g m) = voting ->
  pluralityFirst w (JsMap.values (votes (session g m))) ->
  JsMap.get w (players (session g m)) = None ->
  session g (finalizeVoting g env m) = resetGameState (session g m)
  /\ status (session g (finalizeVoting g env m)) = idle
  /\ winner (session g (finalizeVoting g env m)) = None
  /\ votedOutInboxId (session g (finalizeVoting g env m)) = None
  /\ outbox (finalizeVoting g env m)
     = outbox m ++ [Send g (if String.eqb w EmptyString then MsgNoVotesDraw
                            else MsgVoteError)]
  /\ pending (finalizeVoting g env m) = pending m.
Proof.
  intros St P N. rewrite (finalizeVoting_unfold _ _ _ St). cbv zeta.
  assert (NE : votes (session g m) <> []).
  { intros E. destruct P as (I & _). rewrite E in I. exact I. }
  destruct (calculateVoteResults_pluralityFirst _ NE) as (w0 & P0 & E).
  rewrite (pluralityFirst_unique w0 w _ P0 P) in E. rewrite E.
  destruct (getGameState_frame g m) as (_ & Hp & _ & _ & Ho & _).
  destruct (String.eqb w EmptyString).
  - rewrite session_storeGame. unfold_manager. rewrite Hp, Ho. repeat split.
  - cbn [votedOut]. rewrite N, session_storeGame.
    unfold_manager. rewrite Hp, Ho. repeat split.
Qed.

(** C4, as the code has it.  When the voting deadline finds the session in
    the voting phase: without votes the draw is reported and the session is
    reset; when the tally returns a winner that is a key of [players], that
    winner (the earliest-arrived option with the highest count) is stored as
    [votedOutInboxId], [winner] is [group] exactly when it is the imposter
    and [imposter] otherwise, the results are sent, the phase is ended, and
    a reset is scheduled 5000 ms later: a status query sees ended, the reset
    cannot fire earlier, and once fired it leaves the session idle. *)
Theorem finalizeVoting_draw_or_results
    (g : string) (env : Env) (m : GameManager) :
  status (session g m) = voting ->
  handlesIssued m ->
  (votes (session g m) = [] ->
     session g (finalizeVoting g env m) = resetGameState (session g m)
     /\ status (session g (finalizeVoting g env m)) = idle
     /\ pending (finalizeVoting g env m) = pending m
     /\ outbox (finalizeVoting g env m) = outbox m ++ [Send g MsgNoVotesDraw])
  /\ (forall r p,
        calculateVoteResults (session g m) = Some r ->
        JsMap.get (votedOut r) (players (session g m)) = Some p ->
        pluralityFirst (votedOut r) (JsMap.values (votes (session g m)))
        /\ votedOutInboxId (session g (finalizeVoting g env m))
           = Some (votedOut r)
        /\ winner (session g (finalizeVoting g env m))
           = Some (determineWinner (session g m) (votedOut r))
        /\ (winner (session g (finalizeVoting g env m)) = Some group
            <-> imposterInboxId (session g m) = Some (votedOut r))
        /\ status (session g (finalizeVoting g env m)) = ended
        /\ option_map status (getGameStatus g (finalizeVoting g env m))
           = Some ended
        /\ (exists votedOutName imposterName breakdown,
              outbox (finalizeVoting g env m)
              = outbox m
                ++ [Send g (MsgResults votedOutName (voteCount r)
                              (isImposter p) imposterName
                              (secretWord (session g m))
                              (determineWinner (session g m) (votedOut r))
                              breakdown)])
        /\ pending (finalizeVoting g env m)
           = pending m
             ++ [mkTimeout (nextHandle m) (now m + 5000) (cbResetGameState g)]
        /\ (forall dt env', (0 <= dt < 5000)%Z ->
              fire (nextHandle m) env' (elapse dt (finalizeVoting g env m))
              = elapse dt (finalizeVoting g env m))
        /\ (forall env',
              status (session g
                        (fire (nextHandle m) env'
                           (elapse 5000 (finalizeVoting g env m)))) = idle)).
Proof.
  intros St Hh. rewrite (finalizeVoting_unfold _ _ _ St). cbv zeta.
  destruct (getGameState_frame g m) as (_ & Hp & Hn & Hnow & Ho & _).
  split.
  - intros Ev. rewrite (calculateVoteResults_empty _ Ev), session_storeGame.
    unfold_manager. rewrite Hp, Ho. repeat split.
  - intros r p E G. rewrite E, G.
    destruct (calculateVoteResults_Some _ _ E) as (_ & P & _).
    set (s := session g m) in *.
    set (m1 := snd (getGameState g m)) in *.
    set (s1 := set_winner (Some (determineWinner s (votedOut r)))
                 (set_votedOutInboxId (Some (votedOut r)) s)).
    match goal with
    | |- context [snd (setTimeout _ _ ?x)] => set (m3 := x)
    end.
    set (M := snd (setTimeout (cbResetGameState g) 5000 m3)).
    assert (Sm : session g M = set_status ended s1).
    { rewrite (session_ext g M m3) by reflexivity.
      subst m3. apply session_storeGame. }
    assert (Pm : pending M
                 = pending m
                   ++ [mkTimeout (nextHandle m) (now m + 5000)
                         (cbResetGameState g)]).
    { subst M m3. unfold_manager. now rewrite Hp, Hn, Hnow. }
    assert (Fd : forall dt, (0 <= dt)%Z ->
                 findTimeout (nextHandle m) (elapse dt M)
                 = Some (mkTimeout (nextHandle m) (now m + 5000)
                           (cbResetGameState g))).
    { intros dt Hdt. unfold findTimeout.
      rewrite (proj1 (elapse_fields dt M Hdt)), Pm.
      apply (find_issued_then_new (pending m)
               (mkTimeout (nextHandle m) (now m + 5000) (cbResetGameState g))).
      exact Hh. }
    assert (Nw : forall dt, (0 <= dt)%Z -> now (elapse dt M) = (now m + dt)%Z).
    { intros dt Hdt. rewrite (proj1 (proj2 (elapse_fields dt M Hdt))).
      subst M m3. cbn. now rewrite Hnow. }
    rewrite Sm.
    split; [exact P|]. split; [reflexivity|]. split; [reflexivity|].
    split.
    { change (winner (set_status ended s1))
        with (Some (determineWinner s (votedOut r))).
      rewrite <- determineWinner_group. split; congruence. }
    split; [reflexivity|].
    split.
    { unfold getGameStatus. subst M m3. unfold_manager.
      now rewrite get_set_same. }
    split.
    { eexists _, _, _. subst M m3. unfold_manager. rewrite Ho. reflexivity. }
    split; [exact Pm|].
    split.
    { intros dt env' Hdt. unfold fire. rewrite Fd by lia. simpl due.
      rewrite Nw by lia.
      destruct (Z.leb_spec (now m + 5000) (now m + dt)); [lia | reflexivity]. }
    { intros env'. unfold fire. rewrite Fd by lia. simpl due.
      rewrite Nw by lia.
      destruct (Z.leb_spec (now m + 5000) (now m + 5000)); [|lia].
      simpl runCallback. unfold resetCallback.
      rewrite (surjective_pairing (getGameState g _)).
      now rewrite session_storeGame. }
Qed.

(* ================================================================== *)
(** ** A game played through the event loop                             *)
(* ================================================================== *)

Lemma finalizeVoting_draw_or_results_witness :
  status (session "g" (finalizeVoting "g" sampleEnv votingWithVotes)) = ended
  /\ votedOutInboxId (session "g" (finalizeVoting "g" sampleEnv votingWithVotes))
     = Some (votedOut (mkVoteResults "P2" 2))
  /\ (winner (session "g" (finalizeVoting "g" sampleEnv votingWithVotes))
      = Some group
      <-> imposterInboxId (session "g" votingWithVotes)
          = Some (votedOut (mkVoteResults "P2" 2))).
Proof.
  assert (St : status (session "g" votingWithVotes) = voting) by computes.
  assert (Hh : handlesIssued votingWithVotes).
  { unfold handlesIssued.
    replace (pending votingWithVotes)
      with [mkTimeout 3 422000 (cbFinalizeVoting "g")] by computes.
    replace (nextHandle votingWithVotes) with 4 by computes.
    repeat constructor. }
  assert (Er : calculateVoteResults (session "g" votingWithVotes)
               = Some (mkVoteResults "P2" 2)) by computes.
  assert (Ep : JsMap.get (votedOut (mkVoteResults "P2" 2))
                 (players (session "g" votingWithVotes))
               = Some (mkPlayer "P2" "P2" true true (Some "P2"%string)))
    by computes.
  destruct (finalizeVoting_draw_or_results "g" sampleEnv votingWithVotes St Hh)
    as [_ H].
  destruct (H _ _ Er Ep) as (_ & Hv & _ & Hw & Hs & _).
  split; [exact Hs|]. split; [exact Hv | exact Hw].
Defined.

(** C4 as stated fails: with one recorded vote, cast for an identifier that
    is not a player, the voting deadline leaves the session idle and sets
    neither [votedOutInboxId] nor [winner]. *)
Lemma finalizeVoting_with_votes_need_not_end :
  status (session "g" votingForStranger) = voting
  /\ JsMap.entries (votes (session "g" votingForStranger))
     = [("P1", "ghost")]%string
  /\ status (session "g" (finalizeVoting "g" sampleEnv votingForStranger)) = idle
  /\ votedOutInboxId (session "g" (finalizeVoting "g" sampleEnv votingForStranger))
     = None
  /\ winner (session "g" (finalizeVoting "g" sampleEnv votingForStranger)) = None
  /\ ~ (forall g env m,
          status (session g m) = voting ->
          votes (session g m) <> [] ->
          status (session g (finalizeVoting g env m)) = ended
          /\ votedOutInboxId (session g (finalizeVoting g env m)) <> None).
Proof.
  assert (St : status (session "g" votingForStranger) = voting) by computes.
  assert (Ev : JsMap.entries (votes (session "g" votingForStranger))
               = [("P1", "ghost")]%string) by computes.
  assert (Es : status (session "g" (finalizeVoting "g" sampleEnv votingForStranger))
               = idle) by computes.
  repeat (apply conj); try computes; try assumption.
  intros H.
  destruct (H "g"%string sampleEnv votingForStranger St) as [E _].
  - unfold JsMap.entries in Ev. rewrite Ev. discriminate.
  - rewrite Es in E. discriminate E.
Qed.

Lemma finalizeVoting_unknown_votee_resets_witness :
  status (session "g" (finalizeVoting "g" sampleEnv votingForStranger)) = idle
  /\ outbox (finalizeVoting "g" sampleEnv votingForStranger)
     = outbox votingForStranger ++ [Send "g" MsgVoteError].
Proof.
  assert (St : status (session "g" votingForStranger) = voting) by computes.
  assert (Er : calculateVoteResults (session "g" votingForStranger)
               = Some (mkVoteResults "ghost" 1)) by computes.
  assert (Ep : JsMap.get "ghost"%string
                 (players (session "g" votingForStranger)) = None) by computes.
  assert (Pw : pluralityFirst "ghost"%string
                 (JsMap.values (votes (session "g" votingForStranger)))).
  { destruct (calculateVoteResults_Some _ _ Er) as (_ & P & _). exact P. }
  destruct (finalizeVoting_unknown_votee_resets "g" sampleEnv votingForStranger
              "ghost" St Pw Ep) as (_ & Hs & _ & _ & Ho & _).
  split; [exact Hs | exact Ho].
Defined.

Lemma finalizeDurationVote_aborts_or_assigns_roles_witness :
  exists w,
    calculateWinningDuration (session "g" afterDurationVoting) = Some w
    /\ finalizeDurationVote "g" sampleEnv afterDurationVoting
       = assignRoles "g" sampleEnv
           (send "g" (MsgDurationSelected w)
              (storeGame "g"
                 (set_selectedDuration (Some w) (session "g" afterDurationVoting))
                 (snd (getGameState "g" afterDurationVoting)))).
Proof.
  assert (St : status (session "g" afterDurationVoting) = voting_duration)
    by computes.
  assert (Nv : durationVotes (session "g" afterDurationVoting) <> []).
  { replace (durationVotes (session "g" afterDurationVoting))
      with [mkDurationVote "P1" D5; mkDurationVote "P2" D7;
            mkDurationVote "P3" D5] by computes.
    discriminate. }
  destruct (finalizeDurationVote_aborts_or_assigns_roles "g" sampleEnv
              afterDurationVoting St) as [_ H].
  destruct (H Nv) as (w & E & _ & Eq & _).
  exists w. split; [exact E | exact Eq].
Defined.

Lemma startGame_guards_then_fresh_voting_duration_witness :
  status (session "g" (startGame "g" sampleEnv sampleManager)) = voting_duration
  /\ outbox (startGame "g" sampleEnv votingWithVotes)
     = outbox votingWithVotes ++ [Send "g" MsgAlreadyInProgress].
Proof.
  assert (A0 : status (session "g" sampleManager) = idle) by computes.
  assert (L0 : 3 <= List.length (members sampleEnv)) by (simpl; lia).
  assert (A1 : status (session "g" votingWithVotes) = voting) by computes.
  destruct (startGame_guards_then_fresh_voting_duration "g" sampleEnv
              sampleManager) as (_ & _ & H).
  destruct (H (or_introl A0) L0) as (_ & Hs & _).
  destruct (startGame_guards_then_fresh_voting_duration "g" sampleEnv
              votingWithVotes) as (A & _).
  destruct A as (_ & _ & _ & Ho); [rewrite A1; discriminate ..|].
  split; [exact Hs | exact Ho].
Defined.

(** C2 at the input where the code departs from it.  Once the roles are
    assigned, the only armed timeout is the raw 2000 ms [setTimeout] for the
    speaker selection, which no entry of [timers] tracks.  [cancelGame]
    returns the session to idle but leaves that timeout armed; 2000 ms
    later it fires, and [selectRandomSpeaker] runs on the emptied player
    list and throws. *)
Theorem cancelGame_leaves_speaker_timeout_armed :
  status (session "g" (run sampleManager toAssigningRoles)) = assigning_roles
  /\ pending (run sampleManager toAssigningRoles)
     = [mkTimeout 1 62000 (cbSelectRandomSpeaker "g")]
  /\ status (session "g" (cancelGame "g" (run sampleManager toAssigningRoles)))
     = idle
  /\ pending (cancelGame "g" (run sampleManager toAssigningRoles))
     = [mkTimeout 1 62000 (cbSelectRandomSpeaker "g")]
  /\ outbox (fire 1 sampleEnv
               (elapse 2000 (cancelGame "g" (run sampleManager toAssigningRoles))))
     = outbox (cancelGame "g" (run sampleManager toAssigningRoles))
       ++ [Threw (cbSelectRandomSpeaker "g")].
Proof. repeat (apply conj); computes. Qed.

(* ================================================================== *)
(** ** The imposter invariant                                           *)
(* ================================================================== *)

Lemma In_set_inv {V : Type} (k id : string) (q v : V) (m : JsMap.t string V) :
  In (k, q) (JsMap.set id v m) -> (k = id /\ q = v) \/ In (k, q) m.
Proof.
  induction m as [|[k0 v0] m IH]; simpl.
  - intros [E|[]]. inversion E. now left.
  - destruct (String.eqb_spec k0 id) as [->|N]; simpl.
    + intros [E|I]; [inversion E; now left | right; now right].
    + intros [E|I]; [right; now left|].
      destruct (IH I) as [?|?]; [now left | right; now right].
Qed.

Lemma rolesConsistent_ext s s' :
  players s' = players s -> imposterInboxId s' = imposterInboxId s ->
  rolesConsistent s -> rolesConsistent s'.
Proof.
  unfold rolesConsistent, imposterInvariant, noneFlaggedYet.
  intros -> ->. tauto.
Qed.

Lemma rolesConsistent_empty s :
  players s = [] -> imposterInboxId s = None -> rolesConsistent s.
Proof.
  unfold rolesConsistent, imposterInvariant, noneFlaggedYet.
  intros -> ->. split; [discriminate | intros _ k p []].
Qed.

Lemma addPlayer_rolesConsistent s id addr :
  rolesConsistent s -> rolesConsistent (addPlayer s id addr).
Proof.
  intros [Hi Hn]. unfold addPlayer, JsMap.has.
  destruct (JsMap.get id (players s)) eqn:G; [now split|].
  split.
  - intros i Ei. simpl in Ei. destruct (Hi i Ei) as ((p & Gp & Fp) & Ho).
    split.
    + exists p. split; [|assumption]. simpl.
      rewrite get_set_other; [assumption | congruence].
    + intros k q I F. simpl in I. apply In_set_inv in I.
      destruct I as [[_ ->]|I]; [discriminate | eauto].
  - intros En k q I. simpl in En, I. apply In_set_inv in I.
    destruct I as [[_ ->]|I]; [reflexivity | eauto].
Qed.

Lemma setImposter_rolesConsistent s id :
  imposterInboxId s = None \/ imposterInboxId s = Some id ->
  rolesConsistent s -> rolesConsistent (setImposter s id).
Proof.
  intros Pre [Hi Hn]. unfold setImposter.
  destruct (JsMap.get id (players s)) as [p|] eqn:G; [|now split].
  split.
  - intros i Ei. simpl in Ei. injection Ei as <-. split.
    + eexists. simpl. rewrite get_set_same. split; reflexivity.
    + intros k q I F. simpl in I. apply In_set_inv in I.
      destruct I as [[-> _]|I]; [reflexivity|].
      destruct Pre as [En|Es].
      * rewrite (Hn En k q I) in F. discriminate.
      * now apply (proj2 (Hi id Es) k q).
  - intros En. discriminate En.
Qed.

Lemma recordDurationVote_rolesConsistent s voter d :
  rolesConsistent s -> rolesConsistent (recordDurationVote s voter d).
Proof. now apply rolesConsistent_ext. Qed.

Lemma recordVote_rolesConsistent s voter votee :
  rolesConsistent s -> rolesConsistent (recordVote s voter votee).
Proof.
  intros [Hi Hn]. unfold recordVote. simpl.
  destruct (JsMap.get voter (players s)) as [p|] eqn:G; [|now split].
  assert (Old : forall k q,
            In (k, q) (JsMap.set voter
                         (mkPlayer (inboxId p) (address p) (isImposter p) true
                            (Some votee)) (players s)) ->
            exists q', In (k, q') (players s) /\ isImposter q' = isImposter q).
  { intros k q I. apply In_set_inv in I. destruct I as [[-> ->]|I].
    - exists p. split; [now apply get_In | reflexivity].
    - now exists q. }
  split.
  - intros i Ei. simpl in Ei. destruct (Hi i Ei) as ((pi & Gp & Fp) & Ho).
    split.
    + simpl. destruct (String.eqb_spec voter i) as [->|N].
      * rewrite get_set_same. eexists. split; [reflexivity|]. simpl.
        congruence.
      * rewrite get_set_other by assumption. eauto.
    + intros k q I F. simpl in I. destruct (Old k q I) as (q' & I' & E').
      apply (Ho k q' I'). congruence.
  - intros En k q I. simpl in En, I. destruct (Old k q I) as (q' & I' & E').
    rewrite <- E'. eauto.
Qed.

Lemma resetGameState_rolesConsistent s : rolesConsistent (resetGameState s).
Proof. now apply rolesConsistent_empty. Qed.

Lemma createGameState_rolesConsistent g : rolesConsistent (createGameState g).
Proof. now apply rolesConsistent_empty. Qed.

(** C8 as stated fails: [setImposter] on a session that already has an
    imposter flags the second player and leaves the first one flagged. *)
Lemma setImposter_twice_breaks_invariant :
  imposterInvariant twoPlayersOneImposter
  /\ map (fun e => (fst e, isImposter (snd e)))
         (players (setImposter twoPlayersOneImposter "B"))
     = [("A", true); ("B", true)]%string
  /\ imposterInboxId (setImposter twoPlayersOneImposter "B") = Some "B"%string
  /\ ~ imposterInvariant (setImposter twoPlayersOneImposter "B")
  /\ ~ (forall s id, imposterInvariant s -> imposterInvariant (setImposter s id)).
Proof.
  assert (H0 : imposterInvariant twoPlayersOneImposter).
  { intros id E. injection E as <-. split.
    - eexists. split; reflexivity.
    - intros k p [E|[E|[]]] F; inversion E; subst; [reflexivity | discriminate]. }
  assert (H1 : ~ imposterInvariant (setImposter twoPlayersOneImposter "B")).
  { intros H. destruct (H "B"%string eq_refl) as [_ Ho].
    specialize (Ho "A"%string (mkPlayer "A" "0xA" true false None)).
    assert (N : "A"%string = "B"%string) by (apply Ho; [now left | reflexivity]).
    discriminate N. }
  split; [exact H0|]. split; [reflexivity|]. split; [reflexivity|].
  split; [exact H1|].
  intros H. apply H1. now apply H.
Qed.

(** *** The invariant along every run of the manager *)

Lemma sessionInv_reset s : sessionInv (resetGameState s).
Proof. split; [apply resetGameState_rolesConsistent | now split]. Qed.

Lemma sessionInv_create g : sessionInv (createGameState g).
Proof. split; [apply createGameState_rolesConsistent | now split]. Qed.

Lemma sessionInv_keep s s' :
  players s' = players s -> imposterInboxId s' = imposterInboxId s ->
  status s' = status s -> sessionInv s -> sessionInv s'.
Proof.
  intros Ep Ei Es [R E]. split.
  - now apply (rolesConsistent_ext s).
  - rewrite Ep, Ei, Es. exact E.
Qed.

Lemma sessionInv_busy s :
  rolesConsistent s -> status s <> idle -> status s <> voting_duration ->
  sessionInv s.
Proof. intros R N1 N2. split; [assumption | intros [?|?]; contradiction]. Qed.

Lemma managerInv_ext m m' : games m' = games m -> managerInv m -> managerInv m'.
Proof. unfold managerInv. now intros ->. Qed.

Lemma managerInv_session g m : managerInv m -> sessionInv (session g m).
Proof.
  intros H. unfold session, getGameState.
  destruct (JsMap.get g (games m)) eqn:G; simpl.
  - exact (H _ _ G).
  - apply sessionInv_create.
Qed.

Lemma managerInv_storeGame g s m :
  sessionInv s -> managerInv m -> managerInv (storeGame g s m).
Proof.
  intros Hs Hm g' s'. unfold storeGame. simpl.
  destruct (String.eqb_spec g g') as [->|N].
  - rewrite get_set_same. now intros [= <-].
  - rewrite get_set_other by assumption. apply Hm.
Qed.

Lemma managerInv_getGameState g m :
  managerInv m -> managerInv (snd (getGameState g m)).
Proof.
  intros H. rewrite getGameState_spec. simpl.
  destruct (JsMap.get g (games m)); [assumption|].
  apply managerInv_storeGame; [apply sessionInv_create | assumption].
Qed.

Lemma addMembers_roles bot env s :
  rolesConsistent s ->
  rolesConsistent (addMembers bot env s)
  /\ imposterInboxId (addMembers bot env s) = imposterInboxId s.
Proof.
  unfold addMembers. revert s.
  induction (members env) as [|x l IH]; intros s R; simpl; [now split|].
  destruct (negb (String.eqb x bot)); [|now apply IH].
  destruct (IH (addPlayer s x (addressOf env x))) as [R' E'].
  { now apply addPlayer_rolesConsistent. }
  split; [assumption|]. rewrite E'. unfold addPlayer.
  now destruct (JsMap.has x (players s)).
Qed.

Lemma assignRoles_managerInv g env m :
  managerInv m ->
  imposterInboxId (session g m) = None ->
  managerInv (assignRoles g env m).
Proof.
  intros Hm Hi. unfold assignRoles.
  rewrite (surjective_pairing (getGameState g m)).
  change (fst (getGameState g m)) with (session g m).
  pose proof (managerInv_getGameState g m Hm) as Hm1.
  pose proof (managerInv_session g m Hm) as [Rs _].
  set (m1 := snd (getGameState g m)) in *.
  set (s := session g m) in *.
  destruct (List.length _ <? 3).
  - apply managerInv_storeGame; [apply sessionInv_reset|].
    now apply (managerInv_ext m1).
  - set (s2 := addMembers (clientInboxId m1) env (set_status assigning_roles s)).
    set (s3 := match nth_error _ _ with Some id => setImposter s2 id | None => s2 end).
    set (s4 := set_secretWord (Some (randomWord env)) s3).
    assert (R2 : rolesConsistent s2 /\ imposterInboxId s2 = None).
    { destruct (addMembers_roles (clientInboxId m1) env
                  (set_status assigning_roles s)) as [R E].
      - now apply (rolesConsistent_ext s).
      - split; [exact R | subst s2; rewrite E; exact Hi]. }
    assert (R3 : rolesConsistent s3).
    { subst s3. destruct (nth_error _ _); [|tauto].
      apply setImposter_rolesConsistent; [left|]; tauto. }
    assert (S4 : sessionInv s4).
    { apply sessionInv_busy.
      - now apply (rolesConsistent_ext s3).
      - subst s4. simpl.
        replace (status s3) with assigning_roles; [discriminate|].
        subst s3. destruct (nth_error _ _);
          [rewrite (proj1 (setImposter_fields s2 _))|];
          subst s2; now rewrite (proj1 (addMembers_fields _ _ _)).
      - subst s4. simpl.
        replace (status s3) with assigning_roles; [discriminate|].
        subst s3. destruct (nth_error _ _);
          [rewrite (proj1 (setImposter_fields s2 _))|];
          subst s2; now rewrite (proj1 (addMembers_fields _ _ _)). }
    destruct (dmPlayers env (randomWord env) (JsMap.values (players s4))
                (storeGame g s4 m1)) as [n m2] eqn:D.
    pose proof (dmPlayers_frame env (randomWord env)
                  (JsMap.values (players s4)) 0 (storeGame g s4 m1)) as Fr.
    unfold dmPlayers in D. rewrite D in Fr. simpl in Fr.
    destruct Fr as (Gm & _).
    assert (Hm2 : managerInv m2).
    { apply (managerInv_ext (storeGame g s4 m1)); [exact Gm|].
      now apply managerInv_storeGame. }
    destruct (n =? 0).
    + apply managerInv_storeGame; [apply sessionInv_reset|].
      now apply (managerInv_ext m2).
    + now apply (managerInv_ext m2).
Qed.

Lemma startDiscussionPhase_managerInv g m :
  managerInv m -> managerInv (startDiscussionPhase g m).
Proof.
  intros Hm. unfold startDiscussionPhase.
  rewrite (surjective_pairing (getGameState g m)).
  change (fst (getGameState g m)) with (session g m).
  pose proof (managerInv_getGameState g m Hm) as Hm1.
  pose proof (managerInv_session g m Hm) as [Rs _].
  eapply managerInv_ext; [apply games_setTimer|].
  apply managerInv_storeGame; [|assumption].
  apply sessionInv_busy; [|discriminate|discriminate].
  now apply (rolesConsistent_ext (session g m)).
Qed.

Lemma startVotingPhase_managerInv g env m :
  managerInv m -> managerInv (startVotingPhase g env m).
Proof.
  intros Hm. unfold startVotingPhase.
  rewrite (surjective_pairing (getGameState g m)).
  change (fst (getGameState g m)) with (session g m).
  pose proof (managerInv_getGameState g m Hm) as Hm1.
  pose proof (managerInv_session g m Hm) as [Rs _].
  eapply managerInv_ext; [apply games_setTimer|].
  eapply managerInv_ext; [reflexivity|].
  apply managerInv_storeGame; [|exact Hm1].
  apply sessionInv_busy; [|discriminate|discriminate].
  now apply (rolesConsistent_ext (session g m)).
Qed.

Lemma step_managerInv m e : managerInv m -> managerInv (step m e).
Proof.
  intros Hm.
  assert (Cb : forall cb env m0, managerInv m0 ->
                 managerInv (runCallback cb env m0)).
  { clear m Hm. intros cb env m Hm.
    destruct cb as [g|g|g|g|g]; simpl.
    - (* finalizeDurationVote *)
      unfold finalizeDurationVote.
      rewrite (surjective_pairing (getGameState g m)).
      change (fst (getGameState g m)) with (session g m).
      pose proof (managerInv_getGameState g m Hm) as Hm1.
      pose proof (managerInv_session g m Hm) as Hs.
      destruct (GameStatus_eqb (status (session g m)) voting_duration) eqn:St;
        simpl; [|assumption].
      apply GameStatus_eqb_eq in St.
      destruct (calculateWinningDuration (session g m)) as [w|].
      + destruct Hs as [Rs Es]. destruct (Es (or_intror St)) as [Ep Ei].
        apply assignRoles_managerInv.
        * eapply managerInv_ext; [reflexivity|].
          apply managerInv_storeGame; [|exact Hm1].
          apply (sessionInv_keep (session g m)); try reflexivity.
          now split.
        * erewrite session_ext; [rewrite session_storeGame|reflexivity].
          exact Ei.
      + apply managerInv_storeGame; [apply sessionInv_reset|].
        now apply (managerInv_ext (snd (getGameState g m))).
    - (* selectRandomSpeaker *)
      unfold selectRandomSpeaker.
      rewrite (surjective_pairing (getGameState g m)).
      change (fst (getGameState g m)) with (session g m).
      pose proof (managerInv_getGameState g m Hm) as Hm1.
      pose proof (managerInv_session g m Hm) as Hs.
      destruct (nth_error _ _) as [sp|].
      + apply startDiscussionPhase_managerInv.
        eapply managerInv_ext; [reflexivity|].
        apply managerInv_storeGame; [|exact Hm1].
        now apply (sessionInv_keep (session g m)).
      + now apply (managerInv_ext (snd (getGameState g m))).
    - (* endDiscussionPhase *)
      unfold endDiscussionPhase.
      rewrite (surjective_pairing (getGameState g m)).
      pose proof (managerInv_getGameState g m Hm) as Hm1.
      destruct (negb _); [assumption|].
      apply startVotingPhase_managerInv.
      now apply (managerInv_ext (snd (getGameState g m))).
    - (* finalizeVoting *)
      unfold finalizeVoting.
      rewrite (surjective_pairing (getGameState g m)).
      change (fst (getGameState g m)) with (session g m).
      pose proof (managerInv_getGameState g m Hm) as Hm1.
      pose proof (managerInv_session g m Hm) as [Rs _].
      destruct (GameStatus_eqb (status (session g m)) voting) eqn:St;
        simpl; [|assumption].
      apply GameStatus_eqb_eq in St.
      destruct (calculateVoteResults (session g m)) as [r|].
      + destruct (JsMap.get (votedOut r) (players (session g m))) as [p|].
        * eapply managerInv_ext; [reflexivity|].
          apply managerInv_storeGame.
          { apply sessionInv_busy; [|discriminate|discriminate].
            now apply (rolesConsistent_ext (session g m)). }
          eapply managerInv_ext; [reflexivity|].
          apply managerInv_storeGame; [|exact Hm1].
          apply sessionInv_busy.
          { now apply (rolesConsistent_ext (session g m)). }
          { simpl. rewrite St. discriminate. }
          { simpl. rewrite St. discriminate. }
        * apply managerInv_storeGame; [apply sessionInv_reset|].
          now apply (managerInv_ext (snd (getGameState g m))).
      + apply managerInv_storeGame; [apply sessionInv_reset|].
        now apply (managerInv_ext (snd (getGameState g m))).
    - (* the scheduled reset *)
      unfold resetCallback.
      rewrite (surjective_pairing (getGameState g m)).
      apply managerInv_storeGame; [apply sessionInv_reset|].
      now apply managerInv_getGameState. }
  destruct e as [g env|g|g voter d|g voter votee|dt|h env]; simpl.
  - (* startGame *)
    unfold startGame.
    rewrite (surjective_pairing (getGameState g m)).
    pose proof (managerInv_getGameState g m Hm) as Hm1.
    destruct (isGameActive _); [now apply (managerInv_ext (snd (getGameState g m)))|].
    destruct (_ <? 3); [now apply (managerInv_ext (snd (getGameState g m)))|].
    eapply managerInv_ext; [apply games_setTimer|].
    eapply managerInv_ext; [reflexivity|].
    apply managerInv_storeGame; [|exact Hm1].
    split; [now apply rolesConsistent_empty | now split].
  - (* cancelGame *)
    unfold cancelGame.
    rewrite (surjective_pairing (getGameState g m)).
    pose proof (managerInv_getGameState g m Hm) as Hm1.
    destruct (negb _); [now apply (managerInv_ext (snd (getGameState g m)))|].
    eapply managerInv_ext; [reflexivity|].
    apply managerInv_storeGame; [apply sessionInv_reset|].
    eapply managerInv_ext; [apply games_clearTimer | exact Hm1].
  - (* handleDurationVote *)
    unfold handleDurationVote.
    rewrite (surjective_pairing (getGameState g m)).
    change (fst (getGameState g m)) with (session g m).
    pose proof (managerInv_getGameState g m Hm) as Hm1.
    pose proof (managerInv_session g m Hm) as Hs.
    destruct (negb _); [assumption|].
    apply managerInv_storeGame; [|exact Hm1].
    now apply (sessionInv_keep (session g m)).
  - (* handlePlayerVote *)
    unfold handlePlayerVote.
    rewrite (surjective_pairing (getGameState g m)).
    change (fst (getGameState g m)) with (session g m).
    pose proof (managerInv_getGameState g m Hm) as Hm1.
    pose proof (managerInv_session g m Hm) as [Rs _].
    destruct (GameStatus_eqb (status (session g m)) voting) eqn:St;
      simpl; [|assumption].
    apply GameStatus_eqb_eq in St.
    apply managerInv_storeGame; [|exact Hm1].
    assert (Es : status (recordVote (session g m) voter votee) = voting).
    { unfold recordVote. simpl.
      now destruct (JsMap.get voter (players (session g m))). }
    apply sessionInv_busy;
      [now apply recordVote_rolesConsistent | rewrite Es; discriminate ..].
  - (* elapse *)
    unfold elapse. destruct (0 <=? dt)%Z; [|assumption].
    now apply (managerInv_ext m).
  - (* fire *)
    unfold fire. destruct (findTimeout h m) as [t|]; [|assumption].
    destruct (due t <=? now m)%Z; [|assumption].
    apply Cb. now apply (managerInv_ext m).
Qed.

Lemma run_managerInv es : forall m, managerInv m -> managerInv (run m es).
Proof.
  unfold run. induction es as [|e es IH]; intros m Hm; simpl; [assumption|].
  apply IH. now apply step_managerInv.
Qed.

Lemma newGameManager_managerInv bot t0 : managerInv (newGameManager bot t0).
Proof. intros g s. discriminate. Qed.

(** C8, as the code has it.  The imposter invariant, together with the fact
    that no player is flagged while no imposter is set, holds for a new
    session and is kept by [addPlayer], by the two vote recorders, by
    [resetGameState], and by [setImposter] when no imposter is set yet or
    the same one is set again; the manager only ever calls [setImposter]
    that way, so every session of every run of the manager satisfies the
    invariant. *)
Theorem imposter_invariant_kept_with_single_assignment (s : GameState) :
  rolesConsistent s ->
  imposterInvariant s
  /\ (forall id addr, rolesConsistent (addPlayer s id addr))
  /\ (forall id,
        imposterInboxId s = None \/ imposterInboxId s = Some id ->
        rolesConsistent (setImposter s id))
  /\ (forall voter d, rolesConsistent (recordDurationVote s voter d))
  /\ (forall voter votee, rolesConsistent (recordVote s voter votee))
  /\ rolesConsistent (resetGameState s)
  /\ (forall g, rolesConsistent (createGameState g))
  /\ (forall bot t0 es g,
        imposterInvariant (session g (run (newGameManager bot t0) es))).
Proof.
  intros R. split; [apply R|].
  split; [intros; now apply addPlayer_rolesConsistent|].
  split; [intros; now apply setImposter_rolesConsistent|].
  split; [intros; now apply recordDurationVote_rolesConsistent|].
  split; [intros; now apply recordVote_rolesConsistent|].
  split; [apply resetGameState_rolesConsistent|].
  split; [apply createGameState_rolesConsistent|].
  intros bot t0 es g.
  apply (managerInv_session g (run (newGameManager bot t0) es)).
  apply run_managerInv, newGameManager_managerInv.
Qed.

Lemma imposter_invariant_kept_with_single_assignment_witness :
  imposterInvariant twoPlayersOneImposter
  /\ rolesConsistent (recordVote twoPlayersOneImposter "B" "A")
  /\ rolesConsistent (setImposter twoPlayersOneImposter "A").
Proof.
  assert (R0 : rolesConsistent
                 (addPlayer (addPlayer (createGameState "g") "A" "0xA")
                    "B" "0xB")).
  { do 2 apply addPlayer_rolesConsistent. apply createGameState_rolesConsistent. }
  assert (R : rolesConsistent twoPlayersOneImposter).
  { apply setImposter_rolesConsistent; [now left | exact R0]. }
  destruct (imposter_invariant_kept_with_single_assignment
              twoPlayersOneImposter R) as (Hi & _ & Hs & _ & Hv & _).
  split; [exact Hi|]. split; [apply Hv | apply Hs; now right].
Defined.

(* ================================================================== *)
(** ** Timers: what a handler may do to the armed timeouts              *)
(* ================================================================== *)

Lemma grows_same m m' :
  pending m' = pending m -> nextHandle m' = nextHandle m ->
  timers m' = timers m -> grows m m'.
Proof.
  intros Ep En Et. split; [lia|].
  split; [intros t; rewrite Ep | intros e; rewrite Et]; tauto.
Qed.

Lemma grows_trans m1 m2 m3 : grows m1 m2 -> grows m2 m3 -> grows m1 m3.
Proof.
  intros (L1 & H1 & T1) (L2 & H2 & T2). split; [lia|]. split.
  - intros t I. destruct (H2 t I) as [I2|?]; [|lia].
    destruct (H1 t I2); [tauto | lia].
  - intros e I. destruct (T2 e I) as [I2|?]; [|lia].
    destruct (T1 e I2); [tauto | lia].
Qed.

Lemma grows_clearTimeout h m : grows m (clearTimeout h m).
Proof.
  split; [simpl; lia|]. split; [|simpl; tauto].
  simpl. intros t I. apply filter_In in I. tauto.
Qed.

Lemma grows_setTimeout cb d m : grows m (snd (setTimeout cb d m)).
Proof.
  split; [simpl; lia|]. split; [|simpl; tauto].
  simpl. intros t I. apply in_app_or in I.
  destruct I as [I|[<-|[]]]; [tauto | simpl; lia].
Qed.

Lemma grows_setTimer g cb d m : grows m (setTimer g cb d m).
Proof.
  destruct (setTimer_spec g cb d m) as (Et & Ep & _ & En).
  split; [lia|]. split.
  - rewrite Ep, En. intros t I. apply in_app_or in I.
    destruct I as [I|[<-|[]]]; [|simpl; lia].
    left. unfold withoutTracked in I.
    destruct (JsMap.get g (timers m)); [apply filter_In in I|]; tauto.
  - rewrite Et, En. intros [k h] I. apply In_set_inv in I.
    destruct I as [[_ ->]|I]; [simpl; lia | tauto].
Qed.

Lemma In_delete {V : Type} (k : string) (e : string * V) (m : JsMap.t string V) :
  In e (JsMap.delete k m) -> In e m.
Proof.
  induction m as [|[k0 v0] m IH]; simpl; [tauto|].
  destruct (String.eqb k0 k); simpl; tauto.
Qed.

Lemma grows_clearTimer g m : grows m (clearTimer g m).
Proof.
  unfold clearTimer. destruct (JsMap.get g (timers m));
    [|now apply grows_same].
  split; [simpl; lia|]. split; simpl.
  - intros t I. apply filter_In in I. tauto.
  - intros e I. left. now apply In_delete in I.
Qed.

Lemma grows_getGameState g m : grows m (snd (getGameState g m)).
Proof.
  destruct (getGameState_frame g m) as (Ht & Hp & Hn & _).
  now apply grows_same.
Qed.

Lemma grows_retired h m m' : grows m m' -> retired h m -> retired h m'.
Proof.
  intros (L & H & _) [Lh Hh]. split; [lia|].
  intros t I. destruct (H t I) as [I0|?]; [now apply Hh | lia].
Qed.

Lemma grows_handlesIssued m m' :
  grows m m' -> handlesIssued m -> handlesIssued m'.
Proof.
  unfold handlesIssued. intros (L & H & _) Hi. apply Forall_forall.
  intros t I. destruct (H t I) as [I0|?]; [|lia].
  pose proof (proj1 (Forall_forall _ _) Hi t I0). simpl in *. lia.
Qed.

Lemma grows_timersIssued m m' :
  grows m m' -> timersIssued m -> timersIssued m'.
Proof.
  intros (L & _ & T) Hi e I. destruct (T e I) as [I0|?]; [|lia].
  pose proof (Hi e I0). lia.
Qed.

(** Chains the frame steps of a handler: a step that leaves the armed
    timeouts and the next handle alone, or one of the timer primitives. *)
Ltac grows_step :=
  first
    [ apply grows_setTimer
    | apply grows_clearTimer
    | apply grows_setTimeout
    | apply grows_clearTimeout
    | apply grows_getGameState
    | apply grows_same; reflexivity ].

Lemma grows_assignRoles g env m : grows m (assignRoles g env m).
Proof.
  unfold assignRoles.
  rewrite (surjective_pairing (getGameState g m)).
  apply (grows_trans _ (snd (getGameState g m))); [grows_step|].
  set (m1 := snd (getGameState g m)).
  set (s := fst (getGameState g m)).
  destruct (List.length _ <? 3); [grows_step|].
  match goal with
  | |- context [dmPlayers ?e ?w ?ps ?x] =>
      destruct (dmPlayers e w ps x) as [n m2] eqn:D;
      pose proof (dmPlayers_frame e w ps 0 x) as Fr
  end.
  unfold dmPlayers in D. rewrite D in Fr. simpl in Fr.
  destruct Fr as (_ & Ht & Hp & Hn & _).
  assert (G2 : grows m1 m2) by now apply grows_same.
  apply (grows_trans _ _ _ G2).
  destruct (n =? 0); [grows_step|].
  eapply grows_trans; [|apply grows_setTimeout]. grows_step.
Qed.

Lemma grows_startDiscussionPhase g m : grows m (startDiscussionPhase g m).
Proof.
  unfold startDiscussionPhase.
  rewrite (surjective_pairing (getGameState g m)).
  apply (grows_trans _ (snd (getGameState g m))); [grows_step|].
  eapply grows_trans; [|apply grows_setTimer]. grows_step.
Qed.

Lemma grows_startVotingPhase g env m : grows m (startVotingPhase g env m).
Proof.
  unfold startVotingPhase.
  rewrite (surjective_pairing (getGameState g m)).
  apply (grows_trans _ (snd (getGameState g m))); [grows_step|].
  eapply grows_trans; [|apply grows_setTimer]. grows_step.
Qed.

Lemma grows_runCallback cb env m : grows m (runCallback cb env m).
Proof.
  destruct cb as [g|g|g|g|g]; simpl.
  - unfold finalizeDurationVote.
    rewrite (surjective_pairing (getGameState g m)).
    apply (grows_trans _ (snd (getGameState g m))); [grows_step|].
    destruct (negb _); [grows_step|].
    destruct (calculateWinningDuration _); [|grows_step].
    eapply grows_trans; [|apply grows_assignRoles]. grows_step.
  - unfold selectRandomSpeaker.
    rewrite (surjective_pairing (getGameState g m)).
    apply (grows_trans _ (snd (getGameState g m))); [grows_step|].
    destruct (nth_error _ _); [|grows_step].
    eapply grows_trans; [|apply grows_startDiscussionPhase]. grows_step.
  - unfold endDiscussionPhase.
    rewrite (surjective_pairing (getGameState g m)).
    apply (grows_trans _ (snd (getGameState g m))); [grows_step|].
    destruct (negb _); [grows_step|].
    eapply grows_trans; [|apply grows_startVotingPhase]. grows_step.
  - unfold finalizeVoting.
    rewrite (surjective_pairing (getGameState g m)).
    apply (grows_trans _ (snd (getGameState g m))); [grows_step|].
    destruct (negb _); [grows_step|].
    destruct (calculateVoteResults _) as [r|]; [|grows_step].
    destruct (JsMap.get _ _); [|grows_step].
    eapply grows_trans; [|apply grows_setTimeout]. grows_step.
  - unfold resetCallback.
    rewrite (surjective_pairing (getGameState g m)).
    apply (grows_trans _ (snd (getGameState g m))); grows_step.
Qed.

Lemma grows_step_event m e : grows m (step m e).
Proof.
  destruct e as [g env|g|g voter d|g voter votee|dt|h env]; simpl.
  - unfold startGame.
    rewrite (surjective_pairing (getGameState g m)).
    apply (grows_trans _ (snd (getGameState g m))); [grows_step|].
    destruct (isGameActive _); [grows_step|].
    destruct (_ <? 3); [grows_step|].
    eapply grows_trans; [|apply grows_setTimer]. grows_step.
  - unfold cancelGame.
    rewrite (surjective_pairing (getGameState g m)).
    apply (grows_trans _ (snd (getGameState g m))); [grows_step|].
    destruct (negb _); [grows_step|].
    apply (grows_trans _ (clearTimer g (snd (getGameState g m))));
      grows_step.
  - unfold handleDurationVote.
    rewrite (surjective_pairing (getGameState g m)).
    apply (grows_trans _ (snd (getGameState g m))); [grows_step|].
    destruct (negb _); grows_step.
  - unfold handlePlayerVote.
    rewrite (surjective_pairing (getGameState g m)).
    apply (grows_trans _ (snd (getGameState g m))); [grows_step|].
    destruct (negb _); grows_step.
  - unfold elapse. destruct (0 <=? dt)%Z; grows_step.
  - unfold fire. destruct (findTimeout h m); [|grows_step].
    destruct (due t <=? now m)%Z; [|grows_step].
    apply (grows_trans _ (clearTimeout h m)); [grows_step|].
    apply grows_runCallback.
Qed.

Lemma grows_run es : forall m, grows m (run m es).
Proof.
  unfold run. induction es as [|e es IH]; intros m; simpl.
  - now apply grows_same.
  - apply (grows_trans _ (step m e)); [apply grows_step_event | apply IH].
Qed.

Lemma retired_findTimeout h m : retired h m -> findTimeout h m = None.
Proof.
  intros [_ H]. unfold findTimeout.
  destruct (find _ (pending m)) as [t|] eqn:F; [|reflexivity].
  apply find_some in F. destruct F as [I E].
  apply Nat.eqb_eq in E. now apply H in I.
Qed.

(** *** What [cancelGame] does get right *)

Lemma cancelGame_inactive g m :
  isGameActive (session g m) = false ->
  session g (cancelGame g m) = session g m
  /\ timers (cancelGame g m) = timers m
  /\ pending (cancelGame g m) = pending m
  /\ outbox (cancelGame g m) = outbox m ++ [Send g MsgNoActiveGame].
Proof.
  intros A. unfold cancelGame.
  rewrite (surjective_pairing (getGameState g m)).
  change (fst (getGameState g m)) with (session g m). rewrite A. simpl negb.
  cbv iota.
  destruct (getGameState_frame g m) as (Ht & Hp & _ & _ & Ho & _).
  split.
  - rewrite (session_ext g _ (snd (getGameState g m))) by reflexivity.
    apply session_after_getGameState.
  - cbn [send emit timers pending outbox]. now rewrite Ht, Hp, Ho.
Qed.

Lemma cancelGame_active g m :
  isGameActive (session g m) = true ->
  session g (cancelGame g m) = resetGameState (session g m)
  /\ status (session g (cancelGame g m)) = idle
  /\ pending (cancelGame g m) = withoutTracked g m
  /\ outbox (cancelGame g m) = outbox m ++ [Send g MsgCancelled].
Proof.
  intros A. unfold cancelGame.
  rewrite (surjective_pairing (getGameState g m)).
  change (fst (getGameState g m)) with (session g m). rewrite A. simpl negb.
  cbv iota.
  destruct (getGameState_frame g m) as (Ht & Hp & _ & _ & Ho & _).
  rewrite (session_ext g _ (storeGame g (resetGameState (session g m))
                              (clearTimer g (snd (getGameState g m)))))
    by reflexivity.
  rewrite session_storeGame.
  split; [reflexivity|]. split; [reflexivity|].
  unfold withoutTracked, clearTimer. rewrite Ht.
  destruct (JsMap.get g (timers m)); unfold_manager; now rewrite Hp, Ho.
Qed.

(** Along every run of the manager the armed and the tracked handles have
    been handed out. *)
Lemma run_issued bot t0 es :
  handlesIssued (run (newGameManager bot t0) es)
  /\ timersIssued (run (newGameManager bot t0) es).
Proof.
  pose proof (grows_run es (newGameManager bot t0)) as G. split.
  - apply (grows_handlesIssued _ _ G). constructor.
  - apply (grows_timersIssued _ _ G). intros e [].
Qed.

(** The deadline tracked for the group at the time of a cancellation is
    disarmed, and no later sequence of events arms it again: its callback
    never runs. *)
Lemma cancelGame_tracked_deadline_never_fires bot t0 before g h after env :
  let m := run (newGameManager bot t0) before in
  JsMap.get g (timers m) = Some h ->
  isGameActive (session g m) = true ->
  findTimeout h (run (cancelGame g m) after) = None
  /\ fire h env (run (cancelGame g m) after) = run (cancelGame g m) after.
Proof.
  intros m Ht A.
  assert (Hh : h < nextHandle m).
  { apply (proj2 (run_issued bot t0 before) (g, h)). now apply get_In. }
  assert (R : retired h (cancelGame g m)).
  { split.
    - pose proof (grows_step_event m (evCancelGame g)) as [L _].
      simpl in L. lia.
    - destruct (cancelGame_active g m A) as (_ & _ & Hp & _).
      rewrite Hp. unfold withoutTracked. rewrite Ht.
      intros t I. apply filter_In in I. destruct I as [_ I].
      destruct (Nat.eqb_spec (handle t) h); [discriminate | assumption]. }
  pose proof (retired_findTimeout h _
                (grows_retired h _ _ (grows_run after (cancelGame g m)) R)) as F.
  split; [exact F|]. unfold fire. now rewrite F.
Qed.

(** *** Two corners of the timers and of the tally *)

(** A game started during the five seconds after a finished one is reset by
    the clean-up timeout of the finished game: that timeout is a raw
    [setTimeout] too, so [startGame] does not replace it. *)
Remark stale_reset_hits_new_game :
  let finished := finalizeVoting "g" sampleEnv votingWithVotes in
  let restarted := startGame "g" sampleEnv (elapse 1000 finished) in
  status (session "g" finished) = ended
  /\ status (session "g" restarted) = voting_duration
  /\ status (session "g" (fire 4 sampleEnv (elapse 4000 restarted))) = idle.
Proof. cbv zeta. repeat (apply conj); computes. Qed.

(** C10 as stated fails when the winner is the empty identifier.  It wins
    the tally like any other identifier and is not a key of [players], but
    [calculateVoteResults] answers null for it, and the voting deadline
    reports the draw without votes, not the error. *)
Lemma finalizeVoting_empty_votee_reports_a_draw :
  let m := run sampleManager (toVoting ++ [evPlayerVote "g" "P1" EmptyString]) in
  pluralityFirst EmptyString (JsMap.values (votes (session "g" m)))
  /\ JsMap.get EmptyString (players (session "g" m)) = None
  /\ calculateVoteResults (session "g" m) = None
  /\ outbox (finalizeVoting "g" sampleEnv m) = outbox m ++ [Send "g" MsgNoVotesDraw]
  /\ outbox (finalizeVoting "g" sampleEnv m) <> outbox m ++ [Send "g" MsgVoteError]
  /\ status (session "g" (finalizeVoting "g" sampleEnv m)) = idle.
Proof.
  cbv zeta.
  split; [|split; [computes|]; split; [computes|]; split; [computes|];
           split; [|computes]].
  2:{ replace (outbox (finalizeVoting "g" sampleEnv _))
        with (outbox (run sampleManager
                        (toVoting ++ [evPlayerVote "g" "P1" EmptyString]))
              ++ [Send "g" MsgNoVotesDraw]) by computes.
      intros E. apply app_inv_head in E. discriminate E. }
  replace (JsMap.values (votes (session "g"
             (run sampleManager (toVoting ++ [evPlayerVote "g" "P1" EmptyString])))))
    with [EmptyString] by computes.
  split; [now left|].
  split.
  - intros k. cbn [occ]. rewrite keqb_refl.
    destruct (keqb EmptyString k); lia.
  - intros k N Eo. cbn [occ firstIndex] in *. rewrite keqb_refl in *.
    destruct (keqb EmptyString k) eqn:E; [|lia].
    apply keqb_eq in E. congruence.
Qed.

(* ================================================================== *)
(** ** The manager, one session at a time                               *)
(* ================================================================== *)

Lemma session_storeGame_at g g' s m :
  session g' (storeGame g s m)
  = if String.eqb g g' then s else session g' m.
Proof.
  destruct (String.eqb_spec g g') as [->|N].
  - apply session_storeGame.
  - unfold session, getGameState, storeGame. cbn [games set_games].
    rewrite get_set_other by assumption.
    now destruct (JsMap.get g' (games m)).
Qed.

Lemma session_getGameState_at g g' m :
  session g' (snd (getGameState g m)) = session g' m.
Proof.
  rewrite getGameState_spec. cbn [snd].
  destruct (JsMap.get g (games m)) eqn:G; [reflexivity|].
  rewrite session_storeGame_at.
  destruct (String.eqb_spec g g') as [<-|N]; [|reflexivity].
  symmetry. now apply session_created.
Qed.

Lemma session_send g' g msg m : session g' (send g msg m) = session g' m.
Proof. now apply session_ext. Qed.

Lemma session_emit g' o m : session g' (emit o m) = session g' m.
Proof. now apply session_ext. Qed.

Lemma session_setTimer g' g cb d m :
  session g' (setTimer g cb d m) = session g' m.
Proof. apply session_ext, games_setTimer. Qed.

Lemma session_clearTimer g' g m : session g' (clearTimer g m) = session g' m.
Proof. apply session_ext, games_clearTimer. Qed.

Lemma session_setTimeout g' cb d m :
  session g' (snd (setTimeout cb d m)) = session g' m.
Proof. now apply session_ext. Qed.

Lemma session_clearTimeout g' h m :
  session g' (clearTimeout h m) = session g' m.
Proof. now apply session_ext. Qed.

Lemma session_elapse g' dt m : session g' (elapse dt m) = session g' m.
Proof.
  unfold elapse. destruct (0 <=? dt)%Z; [now apply session_ext | reflexivity].
Qed.

Lemma dmPlayers_count env word ps : forall n m,
  fst (fold_left (dmStep env word) ps (n, m))
  = n + List.length (filter (fun p => dmDelivered env (inboxId p)) ps).
Proof.
  induction ps as [|p ps IH]; intros n m; cbn [fold_left filter].
  - cbn. lia.
  - assert (E : dmStep env word (n, m) p
                = if dmDelivered env (inboxId p)
                  then (S n, emit (SendDm (inboxId p)
                                     (if isImposter p then DmYouAreImposter
                                      else DmSecretWord word)) m)
                  else (n, m)) by reflexivity.
    rewrite E. destruct (dmDelivered env (inboxId p)).
    + rewrite IH. cbn [List.length]. lia.
    + apply IH.
Qed.

Lemma session_dmPlayers g' env word ps m :
  session g' (snd (dmPlayers env word ps m)) = session g' m.
Proof.
  apply session_ext. exact (proj1 (dmPlayers_frame env word ps 0 m)).
Qed.

Create Rewrite HintDb session_db.

#[local] Hint Rewrite session_storeGame_at session_getGameState_at
  session_send session_emit session_setTimer session_clearTimer
  session_setTimeout session_clearTimeout session_elapse session_dmPlayers
  String.eqb_refl : session_db.

(** Opens a handler at its [getGameState] call. *)
Ltac open_handler g m :=
  rewrite (surjective_pairing (getGameState g m));
  change (fst (getGameState g m)) with (session g m).

Lemma startGame_session g env m :
  session g (startGame g env m)
  = if isGameActive (session g m) then session g m
    else if List.length (members env) <? 3 then session g m
         else set_status voting_duration (resetGameState (session g m)).
Proof.
  unfold startGame. open_handler g m.
  destruct (isGameActive (session g m)); [now autorewrite with session_db|].
  destruct (_ <? 3); now autorewrite with session_db.
Qed.

Lemma cancelGame_session g m :
  session g (cancelGame g m)
  = if isGameActive (session g m) then resetGameState (session g m)
    else session g m.
Proof.
  unfold cancelGame. open_handler g m.
  destruct (isGameActive (session g m)); cbn [negb];
    now autorewrite with session_db.
Qed.

Lemma handleDurationVote_session g voter d m :
  session g (handleDurationVote g voter d m)
  = if GameStatus_eqb (status (session g m)) voting_duration
    then recordDurationVote (session g m) voter d else session g m.
Proof.
  unfold handleDurationVote. open_handler g m.
  destruct (GameStatus_eqb _ _); cbn [negb]; now autorewrite with session_db.
Qed.

Lemma handlePlayerVote_session g voter votee m :
  session g (handlePlayerVote g voter votee m)
  = if GameStatus_eqb (status (session g m)) voting
    then recordVote (session g m) voter votee else session g m.
Proof.
  unfold handlePlayerVote. open_handler g m.
  destruct (GameStatus_eqb _ _); cbn [negb]; now autorewrite with session_db.
Qed.

Lemma assignRoles_session g env m :
  session g (assignRoles g env m)
  = if List.length (nonBotMembers (clientInboxId m) env) <? 3
    then resetGameState (session g m)
    else if dmCount env (assignedSession (clientInboxId m) env (session g m)) =? 0
         then resetGameState (session g m)
         else assignedSession (clientInboxId m) env (session g m).
Proof.
  unfold assignRoles. open_handler g m.
  destruct (getGameState_frame g m) as (_ & _ & _ & _ & _ & Hc).
  rewrite Hc. fold (nonBotMembers (clientInboxId m) env).
  destruct (_ <? 3); [now autorewrite with session_db|].
  fold (assignedSession (clientInboxId m) env (session g m)).
  set (s4 := assignedSession (clientInboxId m) env (session g m)).
  rewrite (surjective_pairing (dmPlayers _ _ _ _)).
  unfold dmPlayers at 1. rewrite dmPlayers_count. cbn [Nat.add].
  fold (dmCount env s4).
  assert (Eg : groupId s4 = groupId (session g m)).
  { subst s4. unfold assignedSession. cbn [groupId set_secretWord].
    destruct (nth_error _ _);
      [rewrite (proj2 (proj2 (setImposter_fields _ _)))|];
      now rewrite (proj2 (proj2 (addMembers_fields _ _ _))). }
  destruct (dmCount env s4 =? 0); autorewrite with session_db.
  - unfold resetGameState. now rewrite Eg.
  - reflexivity.
Qed.

Lemma finalizeDurationVote_session g env m :
  session g (finalizeDurationVote g env m)
  = if GameStatus_eqb (status (session g m)) voting_duration
    then match calculateWinningDuration (session g m) with
         | None => resetGameState (session g m)
         | Some w =>
             let s1 := set_selectedDuration (Some w) (session g m) in
             if List.length (nonBotMembers (clientInboxId m) env) <? 3
             then resetGameState (session g m)
             else if dmCount env (assignedSession (clientInboxId m) env s1) =? 0
                  then resetGameState (session g m)
                  else assignedSession (clientInboxId m) env s1
         end
    else session g m.
Proof.
  unfold finalizeDurationVote. open_handler g m.
  destruct (getGameState_frame g m) as (_ & _ & _ & _ & _ & Hc).
  destruct (GameStatus_eqb _ _); cbn [negb];
    [|now autorewrite with session_db].
  destruct (calculateWinningDuration (session g m)) as [w|];
    [|now autorewrite with session_db].
  rewrite assignRoles_session. autorewrite with session_db.
  cbn [send emit storeGame set_games clientInboxId]. rewrite Hc.
  cbv zeta. reflexivity.
Qed.

Lemma startDiscussionPhase_session g m :
  session g (startDiscussionPhase g m)
  = set_discussionEndTime (Some (now m + discussionMs (session g m))%Z)
      (set_startedAt (Some (now m)) (set_status discussion (session g m))).
Proof.
  unfold startDiscussionPhase. open_handler g m.
  destruct (getGameState_frame g m) as (_ & _ & _ & Hn & _).
  autorewrite with session_db. now rewrite Hn.
Qed.

Lemma selectRandomSpeaker_session g env m :
  session g (selectRandomSpeaker g env m)
  = match nth_error (JsMap.values (players (session g m)))
            (randomIndex (randomSpeaker env)
               (List.length (JsMap.values (players (session g m))))) with
    | Some speaker => discussionSession (now m) speaker (session g m)
    | None => session g m
    end.
Proof.
  unfold selectRandomSpeaker. open_handler g m.
  destruct (getGameState_frame g m) as (_ & _ & _ & Hn & _).
  destruct (nth_error _ _) as [sp|]; [|now autorewrite with session_db].
  rewrite startDiscussionPhase_session. autorewrite with session_db.
  cbn [send emit storeGame set_games now]. rewrite Hn. reflexivity.
Qed.

Lemma startVotingPhase_session g env m :
  session g (startVotingPhase g env m) = votingSession (now m) (session g m).
Proof.
  unfold startVotingPhase. open_handler g m.
  destruct (getGameState_frame g m) as (_ & _ & _ & Hn & _).
  autorewrite with session_db. now rewrite Hn.
Qed.

Lemma endDiscussionPhase_session g env m :
  session g (endDiscussionPhase g env m)
  = if GameStatus_eqb (status (session g m)) discussion
    then votingSession (now m) (session g m) else session g m.
Proof.
  unfold endDiscussionPhase. open_handler g m.
  destruct (getGameState_frame g m) as (_ & _ & _ & Hn & _).
  destruct (GameStatus_eqb _ _); cbn [negb];
    [|now autorewrite with session_db].
  rewrite startVotingPhase_session. autorewrite with session_db.
  cbn [send emit now]. now rewrite Hn.
Qed.

Lemma finalizeVoting_session g env m :
  session g (finalizeVoting g env m)
  = if GameStatus_eqb (status (session g m)) voting
    then match calculateVoteResults (session g m) with
         | None => resetGameState (session g m)
         | Some r =>
             match JsMap.get (votedOut r) (players (session g m)) with
             | None => resetGameState (session g m)
             | Some _ => endedSession r (session g m)
             end
         end
    else session g m.
Proof.
  unfold finalizeVoting. open_handler g m.
  destruct (GameStatus_eqb _ _); cbn [negb];
    [|now autorewrite with session_db].
  destruct (calculateVoteResults (session g m)) as [r|];
    [|now autorewrite with session_db].
  destruct (JsMap.get (votedOut r) (players (session g m)));
    now autorewrite with session_db.
Qed.

Lemma resetCallback_session g m :
  session g (resetCallback g m) = resetGameState (session g m).
Proof.
  unfold resetCallback. open_handler g m. now autorewrite with session_db.
Qed.

(* ================================================================== *)
(** ** Groups do not interfere                                          *)
(* ================================================================== *)

Lemma get_delete_other {V : Type} (k k' : string) (m : JsMap.t string V) :
  k <> k' -> JsMap.get k' (JsMap.delete k m) = JsMap.get k' m.
Proof.
  intros N. induction m as [|[k0 v0] m IH]; cbn [JsMap.delete JsMap.get];
    [reflexivity|].
  change (keqb k0 k) with (String.eqb k0 k).
  destruct (String.eqb_spec k0 k) as [->|N0].
  - change (keqb k k') with (String.eqb k k').
    destruct (String.eqb_spec k k'); [contradiction | reflexivity].
  - cbn [JsMap.get]. now rewrite IH.
Qed.

Lemma elsewhere_same g m m' :
  games m' = games m -> timers m' = timers m -> elsewhereSame g m m'.
Proof. intros Eg Et g' _. now rewrite Eg, Et. Qed.

Lemma elsewhere_trans g m1 m2 m3 :
  elsewhereSame g m1 m2 -> elsewhereSame g m2 m3 -> elsewhereSame g m1 m3.
Proof.
  intros H1 H2 g' N. destruct (H1 g' N) as [A1 B1], (H2 g' N) as [A2 B2].
  split; congruence.
Qed.

Lemma elsewhere_storeGame g s m : elsewhereSame g m (storeGame g s m).
Proof.
  intros g' N. split; [|reflexivity].
  unfold storeGame. cbn [games set_games]. now apply get_set_other.
Qed.

Lemma elsewhere_getGameState g m : elsewhereSame g m (snd (getGameState g m)).
Proof.
  rewrite getGameState_spec. cbn [snd].
  destruct (JsMap.get g (games m)); [now apply elsewhere_same|].
  apply elsewhere_storeGame.
Qed.

Lemma elsewhere_setTimer g cb d m : elsewhereSame g m (setTimer g cb d m).
Proof.
  intros g' N. split; [now rewrite games_setTimer|].
  rewrite (proj1 (setTimer_spec g cb d m)). now apply get_set_other.
Qed.

Lemma elsewhere_clearTimer g m : elsewhereSame g m (clearTimer g m).
Proof.
  intros g' N. split; [now rewrite games_clearTimer|].
  unfold clearTimer. destruct (JsMap.get g (timers m)); [|reflexivity].
  cbn [timers set_timers clearTimeout set_pending].
  now apply get_delete_other.
Qed.

Lemma elsewhere_dmPlayers g env word ps m :
  elsewhereSame g m (snd (dmPlayers env word ps m)).
Proof.
  destruct (dmPlayers_frame env word ps 0 m) as (Eg & Et & _).
  now apply elsewhere_same.
Qed.

(** One step of a frame argument about the other groups. *)
Ltac elsewhere_step :=
  first
    [ apply elsewhere_setTimer
    | apply elsewhere_clearTimer
    | apply elsewhere_storeGame
    | apply elsewhere_getGameState
    | apply elsewhere_dmPlayers
    | apply elsewhere_same; reflexivity ].

(** Splits a handler body [f (g (h m))] into its layers, outermost first. *)
Ltac elsewhere_chain :=
  repeat
    (first
       [ elsewhere_step
       | match goal with
         | |- elsewhereSame ?g ?m (send ?g' ?msg ?x) =>
             apply (elsewhere_trans g m x); [|elsewhere_step]
         | |- elsewhereSame ?g ?m (emit ?o ?x) =>
             apply (elsewhere_trans g m x); [|elsewhere_step]
         | |- elsewhereSame ?g ?m (storeGame ?g ?s ?x) =>
             apply (elsewhere_trans g m x); [|elsewhere_step]
         | |- elsewhereSame ?g ?m (setTimer ?g ?cb ?d ?x) =>
             apply (elsewhere_trans g m x); [|elsewhere_step]
         | |- elsewhereSame ?g ?m (clearTimer ?g ?x) =>
             apply (elsewhere_trans g m x); [|elsewhere_step]
         | |- elsewhereSame ?g ?m (clearTimeout ?h ?x) =>
             apply (elsewhere_trans g m x); [|elsewhere_step]
         | |- elsewhereSame ?g ?m (snd (setTimeout ?cb ?d ?x)) =>
             apply (elsewhere_trans g m x); [|elsewhere_step]
         | |- elsewhereSame ?g ?m (snd (dmPlayers ?e ?w ?ps ?x)) =>
             apply (elsewhere_trans g m x); [|elsewhere_step]
         end ]).

Lemma elsewhere_assignRoles g env m : elsewhereSame g m (assignRoles g env m).
Proof.
  unfold assignRoles. rewrite (surjective_pairing (getGameState g m)).
  destruct (_ <? 3); [elsewhere_chain|].
  rewrite (surjective_pairing (dmPlayers _ _ _ _)).
  destruct (_ =? 0); elsewhere_chain.
Qed.

Lemma elsewhere_startDiscussionPhase g m :
  elsewhereSame g m (startDiscussionPhase g m).
Proof.
  unfold startDiscussionPhase. rewrite (surjective_pairing (getGameState g m)).
  elsewhere_chain.
Qed.

Lemma elsewhere_startVotingPhase g env m :
  elsewhereSame g m (startVotingPhase g env m).
Proof.
  unfold startVotingPhase. rewrite (surjective_pairing (getGameState g m)).
  elsewhere_chain.
Qed.

Lemma elsewhere_runCallback cb env m :
  elsewhereSame (callbackGroup cb) m (runCallback cb env m).
Proof.
  destruct cb as [g|g|g|g|g]; cbn [callbackGroup runCallback].
  - unfold finalizeDurationVote. rewrite (surjective_pairing (getGameState g m)).
    destruct (negb _); [elsewhere_chain|].
    destruct (calculateWinningDuration _); [|elsewhere_chain].
    eapply elsewhere_trans; [|apply elsewhere_assignRoles]. elsewhere_chain.
  - unfold selectRandomSpeaker. rewrite (surjective_pairing (getGameState g m)).
    destruct (nth_error _ _); [|elsewhere_chain].
    eapply elsewhere_trans; [|apply elsewhere_startDiscussionPhase].
    elsewhere_chain.
  - unfold endDiscussionPhase. rewrite (surjective_pairing (getGameState g m)).
    destruct (negb _); [elsewhere_chain|].
    eapply elsewhere_trans; [|apply elsewhere_startVotingPhase].
    elsewhere_chain.
  - unfold finalizeVoting. rewrite (surjective_pairing (getGameState g m)).
    destruct (negb _); [elsewhere_chain|].
    destruct (calculateVoteResults _) as [r|]; [|elsewhere_chain].
    destruct (JsMap.get _ _); elsewhere_chain.
  - unfold resetCallback. rewrite (surjective_pairing (getGameState g m)).
    elsewhere_chain.
Qed.

Lemma step_elsewhere (m : GameManager) (e : Event) (g' : string) :
  eventGroup m e <> Some g' ->
  getGameStatus g' (step m e) = getGameStatus g' m
  /\ JsMap.get g' (timers (step m e)) = JsMap.get g' (timers m)
  /\ session g' (step m e) = session g' m.
Proof.
  intros N.
  assert (Hall : forall g, g <> g' -> elsewhereSame g m (step m e) ->
            getGameStatus g' (step m e) = getGameStatus g' m
            /\ JsMap.get g' (timers (step m e)) = JsMap.get g' (timers m)
            /\ session g' (step m e) = session g' m).
  { intros g Ng H. destruct (H g' Ng) as [Eg Et].
    unfold getGameStatus, session, getGameState. rewrite Eg, Et.
    repeat split. now destruct (JsMap.get g' (games m)). }
  assert (Hid : games (step m e) = games m -> timers (step m e) = timers m ->
            getGameStatus g' (step m e) = getGameStatus g' m
            /\ JsMap.get g' (timers (step m e)) = JsMap.get g' (timers m)
            /\ session g' (step m e) = session g' m).
  { intros Eg Et. unfold getGameStatus. rewrite Eg, Et.
    repeat split. now apply session_ext. }
  destruct e as [g env|g|g voter d|g voter votee|dt|h env];
    cbn [eventGroup] in N; cbn [step] in *.
  - apply (Hall g); [congruence|].
    unfold startGame. rewrite (surjective_pairing (getGameState g m)).
    destruct (isGameActive _); [elsewhere_chain|].
    destruct (_ <? 3); elsewhere_chain.
  - apply (Hall g); [congruence|].
    unfold cancelGame. rewrite (surjective_pairing (getGameState g m)).
    destruct (negb _); elsewhere_chain.
  - apply (Hall g); [congruence|].
    unfold handleDurationVote. rewrite (surjective_pairing (getGameState g m)).
    destruct (negb _); elsewhere_chain.
  - apply (Hall g); [congruence|].
    unfold handlePlayerVote. rewrite (surjective_pairing (getGameState g m)).
    destruct (negb _); elsewhere_chain.
  - apply Hid; unfold elapse; now destruct (0 <=? dt)%Z.
  - unfold fire in *. destruct (findTimeout h m) as [t|]; [|now apply Hid].
    destruct (due t <=? now m)%Z; [|now apply Hid].
    apply (Hall (callbackGroup (callback t))); [congruence|].
    apply (elsewhere_trans _ _ (clearTimeout h m)); [elsewhere_step|].
    apply elsewhere_runCallback.
Qed.

(** X1. Events of one group leave every other group alone: the stored
    session and the tracked timer of a group change only under an event
    that acts on that group (a command or vote addressed to it, or a
    timeout armed for it that fires); the passing of time changes
    neither. *)
Theorem other_groups_untouched (m : GameManager) (e : Event) (g' : string) :
  eventGroup m e <> Some g' ->
  getGameStatus g' (step m e) = getGameStatus g' m
  /\ JsMap.get g' (timers (step m e)) = JsMap.get g' (timers m)
  /\ session g' (step m e) = session g' m.
Proof. exact (step_elsewhere m e g'). Qed.

Lemma other_groups_untouched_witness :
  getGameStatus "h" (step twoGroups (evCancelGame "g"))
  = getGameStatus "h" twoGroups
  /\ JsMap.get "h"%string (timers (step twoGroups (evCancelGame "g")))
     = JsMap.get "h"%string (timers twoGroups).
Proof.
  destruct (other_groups_untouched twoGroups (evCancelGame "g") "h")
    as (Hs & Ht & _).
  - cbn [eventGroup]. intros E. discriminate E.
  - split; [exact Hs | exact Ht].
Defined.

(* ================================================================== *)
(** ** The state machine of a session                                   *)
(* ================================================================== *)

Lemma option_eq_dec_string (a b : option string) : {a = b} + {a <> b}.
Proof. decide equality. apply string_dec. Qed.

Lemma randomIndex_lt r n : 0 < n -> randomIndex r n < n.
Proof.
  intros H. unfold randomIndex. destruct n as [|n']; [lia|].
  apply Nat.mod_upper_bound. lia.
Qed.

Lemma runCallback_sessionStep cb env m :
  session (callbackGroup cb) (runCallback cb env m)
  = session (callbackGroup cb) m
  \/ sessionStep (clientInboxId m) (session (callbackGroup cb) m)
       (session (callbackGroup cb) (runCallback cb env m)).
Proof.
  destruct cb as [g|g|g|g|g]; cbn [callbackGroup runCallback].
  - rewrite finalizeDurationVote_session.
    destruct (GameStatus_eqb _ _) eqn:St; [|now left].
    apply GameStatus_eqb_eq in St. right.
    destruct (calculateWinningDuration (session g m)) as [w|] eqn:W;
      [|constructor].
    cbv zeta. destruct (Nat.ltb_spec (List.length (nonBotMembers (clientInboxId m) env)) 3);
      [constructor|].
    destruct (_ =? 0); [constructor | now constructor].
  - rewrite selectRandomSpeaker_session.
    destruct (nth_error _ _) as [sp|] eqn:E; [|now left].
    right. constructor. eapply nth_error_In, E.
  - rewrite endDiscussionPhase_session.
    destruct (GameStatus_eqb _ _) eqn:St; [|now left].
    apply GameStatus_eqb_eq in St. right. now constructor.
  - rewrite finalizeVoting_session.
    destruct (GameStatus_eqb _ _) eqn:St; [|now left].
    apply GameStatus_eqb_eq in St. right.
    destruct (calculateVoteResults (session g m)) as [r|] eqn:R; [|constructor].
    destruct (JsMap.get _ _) as [p|] eqn:G; [|constructor].
    now apply (stepResults _ _ r p).
  - rewrite resetCallback_session. right. constructor.
Qed.

Lemma clientInboxId_clearTimeout h m :
  clientInboxId (clearTimeout h m) = clientInboxId m.
Proof. reflexivity. Qed.

Lemma step_sessionStep (m : GameManager) (e : Event) (g : string) :
  session g (step m e) = session g m
  \/ sessionStep (clientInboxId m) (session g m) (session g (step m e)).
Proof.
  destruct (option_eq_dec_string (eventGroup m e) (Some g)) as [Eg|Ng];
    [|left; now apply step_elsewhere].
  destruct e as [g0 env|g0|g0 voter d|g0 voter votee|dt|h env];
    cbn [eventGroup] in Eg; cbn [step].
  - injection Eg as ->. rewrite startGame_session.
    destruct (isGameActive (session g m)) eqn:A; [now left|].
    destruct (_ <? 3); [now left|]. right. now constructor.
  - injection Eg as ->. rewrite cancelGame_session.
    destruct (isGameActive (session g m)); [right; constructor | now left].
  - injection Eg as ->. rewrite handleDurationVote_session.
    destruct (GameStatus_eqb _ _) eqn:St; [|now left].
    apply GameStatus_eqb_eq in St. right. now constructor.
  - injection Eg as ->. rewrite handlePlayerVote_session.
    destruct (GameStatus_eqb _ _) eqn:St; [|now left].
    apply GameStatus_eqb_eq in St. right. now constructor.
  - discriminate Eg.
  - unfold fire. destruct (findTimeout h m) as [t|]; [|discriminate Eg].
    destruct (due t <=? now m)%Z; [|discriminate Eg].
    injection Eg as <-.
    pose proof (runCallback_sessionStep (callback t) env (clearTimeout h m)) as H.
    now rewrite !session_clearTimeout, clientInboxId_clearTimeout in H.
Qed.


(** An invariant of the sessions is a property of the new session that
    every transition keeps. *)
Lemma run_session_invariant (P : GameState -> Prop) :
  (forall g, P (createGameState g)) ->
  (forall bot s s', P s -> sessionStep bot s s' -> P s') ->
  forall bot t0 es g, P (session g (run (newGameManager bot t0) es)).
Proof.
  intros Hc Hs bot t0 es. induction es as [|e es IH] using rev_ind; intros g.
  - apply Hc.
  - unfold run in *. rewrite fold_left_app. cbn [fold_left].
    destruct (step_sessionStep
                (fold_left step es (newGameManager bot t0)) e g) as [E|S].
    + rewrite E. apply IH.
    + eapply Hs; [apply IH | exact S].
Qed.

(* ================================================================== *)
(** ** Facts about the player map                                       *)
(* ================================================================== *)

Lemma In_set_strict {V : Type} (k id : string) (q v : V) (m : JsMap.t string V) :
  NoDup (JsMap.keys m) ->
  In (k, q) (JsMap.set id v m) -> (k = id /\ q = v) \/ (k <> id /\ In (k, q) m).
Proof.
  induction m as [|[k0 v0] m IH]; cbn [JsMap.set JsMap.keys map fst].
  - intros _ [E|[]]. inversion E. now left.
  - intros ND. inversion ND as [|? ? Hn ND']; subst.
    change (keqb k0 id) with (String.eqb k0 id).
    destruct (String.eqb_spec k0 id) as [->|N].
    + intros [E|I]; [inversion E; now left|].
      right. split; [|now right]. intros ->. apply Hn.
      change id with (fst (id, q)). now apply in_map.
    + intros [E|I].
      * inversion E; subst. right. split; [assumption | now left].
      * destruct (IH ND' I) as [?|[? ?]]; [now left | right; split; [assumption | now right]].
Qed.

Lemma has_set {V : Type} (k k' : string) (v : V) (m : JsMap.t string V) :
  JsMap.has k' (JsMap.set k v m) = String.eqb k k' || JsMap.has k' m.
Proof.
  unfold JsMap.has. destruct (String.eqb_spec k k') as [->|N].
  - now rewrite get_set_same.
  - now rewrite get_set_other.
Qed.

Lemma In_values_entry {V : Type} (p : V) (m : JsMap.t string V) :
  In p (JsMap.values m) -> exists k, In (k, p) m.
Proof.
  unfold JsMap.values. intros I. apply in_map_iff in I.
  destruct I as ([k q] & E & I). cbn in E. subst. now exists k.
Qed.

Lemma In_entry_has {V : Type} (k : string) (p : V) (m : JsMap.t string V) :
  In (k, p) m -> JsMap.has k m = true.
Proof.
  intros I. apply has_In_keys. change k with (fst (k, p)). now apply in_map.
Qed.

(** *** What the state functions leave alone *)

Lemma addPlayer_shape s id addr :
  addPlayer s id addr = set_players (players (addPlayer s id addr)) s.
Proof. unfold addPlayer. destruct (JsMap.has id (players s)); now destruct s. Qed.

Lemma addMembers_shape bot env s :
  addMembers bot env s = set_players (players (addMembers bot env s)) s.
Proof.
  unfold addMembers. revert s.
  induction (members env) as [|x l IH]; intros s; cbn [fold_left].
  - now destruct s.
  - rewrite IH. destruct (negb (String.eqb x bot)); [|reflexivity].
    rewrite (addPlayer_shape s x (addressOf env x)) at 2. reflexivity.
Qed.

Lemma setImposter_shape s id :
  setImposter s id
  = set_imposterInboxId (imposterInboxId (setImposter s id))
      (set_players (players (setImposter s id)) s).
Proof. unfold setImposter. destruct (JsMap.get id (players s)); now destruct s. Qed.

Lemma recordVote_shape s voter votee :
  recordVote s voter votee
  = set_players (players (recordVote s voter votee))
      (set_votes (JsMap.set voter votee (votes s)) s).
Proof.
  unfold recordVote. cbn [players set_votes].
  destruct (JsMap.get voter (players s)); now destruct s.
Qed.

Lemma assignedSession_shape bot env s :
  assignedSession bot env s
  = set_secretWord (Some (randomWord env))
      (set_imposterInboxId (imposterInboxId (assignedSession bot env s))
         (set_players (players (assignedSession bot env s))
            (set_status assigning_roles s))).
Proof.
  unfold assignedSession. cbv zeta.
  set (s2 := addMembers bot env (set_status assigning_roles s)).
  assert (E2 : s2 = set_players (players s2) (set_status assigning_roles s))
    by apply addMembers_shape.
  destruct (nth_error _ _) as [id|].
  - rewrite (setImposter_shape s2 id) at 1. rewrite E2 at 3. reflexivity.
  - cbn [imposterInboxId set_secretWord players].
    rewrite E2 at 1. cbn [imposterInboxId set_players set_status].
    rewrite E2 at 2. reflexivity.
Qed.

(** *** Dealing the roles *)

Lemma addPlayer_fresh s id addr :
  freshPlayers (players s) -> freshPlayers (players (addPlayer s id addr)).
Proof.
  intros [ND F]. unfold addPlayer.
  destruct (JsMap.has id (players s)) eqn:H; [now split|].
  cbn [players set_players]. split; [now apply NoDup_keys_set|].
  intros k p I. apply In_set_inv in I. destruct I as [[-> ->]|I]; [now cbn | auto].
Qed.

Lemma addPlayer_has s id addr k :
  JsMap.has k (players (addPlayer s id addr))
  = String.eqb id k || JsMap.has k (players s).
Proof.
  unfold addPlayer. destruct (JsMap.has id (players s)) eqn:H.
  - destruct (String.eqb_spec id k) as [<-|N]; [now rewrite H | reflexivity].
  - cbn [players set_players]. apply has_set.
Qed.

Lemma addMembers_fresh bot env s :
  freshPlayers (players s) -> freshPlayers (players (addMembers bot env s)).
Proof.
  unfold addMembers. revert s.
  induction (members env) as [|x l IH]; intros s F; cbn [fold_left];
    [assumption|].
  apply IH. destruct (negb (String.eqb x bot)); [|assumption].
  now apply addPlayer_fresh.
Qed.

Lemma addMembers_has bot env s k :
  JsMap.has k (players (addMembers bot env s))
  = JsMap.has k (players s)
    || existsb (String.eqb k) (nonBotMembers bot env).
Proof.
  unfold addMembers, nonBotMembers. revert s.
  induction (members env) as [|x l IH]; intros s; cbn [fold_left filter].
  - cbn. now rewrite orb_false_r.
  - rewrite IH. destruct (negb (String.eqb x bot)); [|reflexivity].
    rewrite addPlayer_has. cbn [existsb].
    rewrite (String.eqb_sym x k).
    destruct (String.eqb k x), (JsMap.has k (players s)); reflexivity.
Qed.

Lemma setImposter_players_In s id k q :
  NoDup (JsMap.keys (players s)) ->
  In (k, q) (players (setImposter s id)) ->
  exists p, In (k, p) (players s)
            /\ inboxId q = inboxId p /\ address q = address p
            /\ hasVoted q = hasVoted p /\ votedFor q = votedFor p
            /\ isImposter q = (isImposter p || String.eqb k id).
Proof.
  intros ND. unfold setImposter.
  destruct (JsMap.get id (players s)) as [p|] eqn:G.
  - cbn [players set_players set_imposterInboxId]. intros I.
    apply In_set_strict in I; [|assumption].
    destruct I as [[-> ->]|[N I]].
    + exists p. rewrite String.eqb_refl, orb_true_r.
      repeat split. now apply get_In.
    + exists q. apply String.eqb_neq in N. rewrite N, orb_false_r. tauto.
  - intros I. exists q.
    assert (N : String.eqb k id = false).
    { apply String.eqb_neq. intros ->.
      apply In_entry_has in I. unfold JsMap.has in I. now rewrite G in I. }
    rewrite N, orb_false_r. tauto.
Qed.

Lemma setImposter_keys s id :
  JsMap.keys (players (setImposter s id)) = JsMap.keys (players s).
Proof.
  unfold setImposter. destruct (JsMap.get id (players s)) eqn:G; [|reflexivity].
  cbn [players set_players set_imposterInboxId]. rewrite keys_set.
  unfold JsMap.has. now rewrite G.
Qed.

Lemma has_keys_eq {V W : Type} (a : JsMap.t string V) (b : JsMap.t string W) k :
  JsMap.keys a = JsMap.keys b -> JsMap.has k a = JsMap.has k b.
Proof.
  intros E. destruct (JsMap.has k b) eqn:Hb.
  - apply has_In_keys. rewrite E. now apply has_In_keys.
  - destruct (JsMap.has k a) eqn:Ha; [|reflexivity].
    apply has_In_keys in Ha. rewrite E in Ha. apply has_In_keys in Ha.
    congruence.
Qed.

Lemma setImposter_fresh s id :
  freshPlayers (players s) -> freshPlayers (players (setImposter s id)).
Proof.
  intros [ND F]. split; [now rewrite setImposter_keys|].
  intros k q I. destruct (setImposter_players_In s id k q ND I)
    as (p & Ip & E1 & _ & E3 & E4 & _).
  destruct (F k p Ip) as (A & B & C). rewrite E1, E3, E4. tauto.
Qed.

Lemma existsb_eqb_In k l : existsb (String.eqb k) l = true <-> In k l.
Proof.
  rewrite existsb_exists. split.
  - intros (x & I & E). apply String.eqb_eq in E. now subst.
  - intros I. exists k. split; [assumption | apply String.eqb_refl].
Qed.

(** What role assignment builds from a session without players: one fresh
    record per member other than the bot, and an imposter among them. *)
Lemma assignedSession_facts bot env s :
  players s = [] -> imposterInboxId s = None ->
  3 <= List.length (nonBotMembers bot env) ->
  freshPlayers (players (assignedSession bot env s))
  /\ (forall k, JsMap.has k (players (assignedSession bot env s)) = true
                <-> In k (nonBotMembers bot env))
  /\ (exists i, imposterInboxId (assignedSession bot env s) = Some i
                /\ nth_error (nonBotMembers bot env)
                     (randomIndex (randomImposter env)
                        (List.length (nonBotMembers bot env))) = Some i)
  /\ rolesConsistent (assignedSession bot env s).
Proof.
  intros Ep Ei L. unfold assignedSession. cbv zeta.
  set (s2 := addMembers bot env (set_status assigning_roles s)).
  assert (F2 : freshPlayers (players s2)).
  { apply addMembers_fresh. cbn [players set_status]. rewrite Ep.
    split; [constructor | intros k p []]. }
  assert (H2 : forall k, JsMap.has k (players s2) = true
                         <-> In k (nonBotMembers bot env)).
  { intros k. subst s2. rewrite addMembers_has. cbn [players set_status].
    rewrite Ep. cbn [JsMap.has JsMap.get orb]. apply existsb_eqb_In. }
  assert (R2 : rolesConsistent s2 /\ imposterInboxId s2 = None).
  { destruct (addMembers_roles bot env (set_status assigning_roles s)) as [R E].
    - apply rolesConsistent_empty; assumption.
    - split; [exact R | subst s2; rewrite E; exact Ei]. }
  destruct (nth_error (nonBotMembers bot env) _) as [i|] eqn:N.
  2:{ apply nth_error_None in N.
      pose proof (randomIndex_lt (randomImposter env)
                    (List.length (nonBotMembers bot env))). lia. }
  assert (Hi : JsMap.has i (players s2) = true).
  { apply H2. eapply nth_error_In, N. }
  cbn [players imposterInboxId set_secretWord].
  split; [now apply setImposter_fresh|].
  split.
  { intros k. rewrite (has_keys_eq _ (players s2)); [apply H2|].
    apply setImposter_keys. }
  split.
  { exists i. split; [|reflexivity]. unfold setImposter.
    unfold JsMap.has in Hi. now destruct (JsMap.get i (players s2)). }
  apply (rolesConsistent_ext (setImposter s2 i)); try reflexivity.
  apply setImposter_rolesConsistent; [left|]; tauto.
Qed.

(* ================================================================== *)
(** ** The invariant of the sessions                                    *)
(* ================================================================== *)

Lemma calculateWinningDuration_ext s s' :
  durationVotes s' = durationVotes s ->
  calculateWinningDuration s' = calculateWinningDuration s.
Proof. unfold calculateWinningDuration. now intros ->. Qed.

Lemma determineWinner_ext s s' v :
  imposterInboxId s' = imposterInboxId s ->
  determineWinner s' v = determineWinner s v.
Proof. unfold determineWinner. now intros ->. Qed.

Lemma discussionMs_ext s s' :
  selectedDuration s' = selectedDuration s -> discussionMs s' = discussionMs s.
Proof. unfold discussionMs. now intros ->. Qed.

Lemma sessionWF_polling_intro g dv :
  NoDup (map voterInboxId dv) ->
  sessionWF (set_durationVotes dv (freshVotingDuration g)).
Proof.
  intros ND. constructor; cbn.
  - constructor.
  - intros k p [].
  - constructor.
  - assumption.
  - intros k p [].
  - apply rolesConsistent_empty; reflexivity.
  - discriminate.
  - reflexivity.
  - intros _ N. contradiction.
  - reflexivity.
  - discriminate.
  - reflexivity.
  - discriminate.
Qed.

Lemma sessionWF_create g : sessionWF (createGameState g).
Proof.
  constructor; cbn.
  - constructor.
  - intros k p [].
  - constructor.
  - constructor.
  - intros k p [].
  - apply rolesConsistent_empty; reflexivity.
  - reflexivity.
  - discriminate.
  - intros N. contradiction.
  - reflexivity.
  - discriminate.
  - reflexivity.
  - discriminate.
Qed.

(** A session without a game holds nothing but its group identifier. *)
Lemma sessionWF_no_players s :
  sessionWF s -> status s = idle \/ status s = voting_duration ->
  players s = [] /\ votes s = [] /\ imposterInboxId s = None
  /\ secretWord s = None /\ selectedDuration s = None
  /\ startedAt s = None /\ discussionEndTime s = None
  /\ currentSpeakerInboxId s = None /\ votingStartedAt s = None
  /\ votedOutInboxId s = None /\ winner s = None.
Proof.
  intros W [St|St].
  - rewrite (wf_blank s W St). repeat split.
  - rewrite (wf_polling s W St). repeat split.
Qed.

Lemma sessionWF_players_dealt s :
  sessionWF s -> players s <> [] ->
  status s <> idle /\ status s <> voting_duration.
Proof.
  intros W N. split; intros St; apply N;
    apply (sessionWF_no_players s W); tauto.
Qed.

(** A transition that keeps the players, the votes and the set-up of a
    running game keeps the invariant, once the fields it writes are
    accounted for. *)
Lemma sessionWF_carry s s' :
  sessionWF s ->
  status s <> idle -> status s <> voting_duration ->
  status s' <> idle -> status s' <> voting_duration ->
  players s' = players s -> votes s' = votes s ->
  durationVotes s' = durationVotes s ->
  imposterInboxId s' = imposterInboxId s ->
  secretWord s' = secretWord s ->
  selectedDuration s' = selectedDuration s ->
  match votedOutInboxId s' with
  | Some v => winner s' = Some (determineWinner s' v)
              /\ JsMap.has v (players s') = true
  | None => winner s' = None
  end ->
  (status s' = ended -> votedOutInboxId s' <> None) ->
  match startedAt s' with
  | Some t => discussionEndTime s' = Some (t + discussionMs s')%Z
  | None => discussionEndTime s' = None
  end ->
  (forall id, currentSpeakerInboxId s' = Some id ->
              JsMap.has id (players s') = true) ->
  sessionWF s'.
Proof.
  intros W N1 N2 N1' N2' Ep Ev Ed Ei Ew Es Hr He Ht Hs.
  constructor.
  - rewrite Ep. apply W.
  - rewrite Ep. apply W.
  - rewrite Ev. apply W.
  - rewrite Ed. apply W.
  - rewrite Ep, Ev. apply W.
  - apply (rolesConsistent_ext s); [assumption .. | apply W].
  - intros St. contradiction.
  - intros St. contradiction.
  - intros _ _. destruct (wf_dealt s W N1 N2) as (Hi & Hw & (d & Hd & Hc) & Hp).
    rewrite Ei, Ew, Es, Ep, (calculateWinningDuration_ext s s' Ed).
    split; [assumption|]. split; [assumption|].
    split; [now exists d | assumption].
  - exact Hr.
  - exact He.
  - exact Ht.
  - exact Hs.
Qed.

Lemma recordVote_fields s voter votee :
  status (recordVote s voter votee) = status s
  /\ imposterInboxId (recordVote s voter votee) = imposterInboxId s
  /\ secretWord (recordVote s voter votee) = secretWord s
  /\ selectedDuration (recordVote s voter votee) = selectedDuration s
  /\ startedAt (recordVote s voter votee) = startedAt s
  /\ discussionEndTime (recordVote s voter votee) = discussionEndTime s
  /\ currentSpeakerInboxId (recordVote s voter votee) = currentSpeakerInboxId s
  /\ votedOutInboxId (recordVote s voter votee) = votedOutInboxId s
  /\ winner (recordVote s voter votee) = winner s.
Proof.
  unfold recordVote. cbn [players set_votes].
  destruct (JsMap.get voter (players s)); repeat split.
Qed.

Lemma recordVote_keys s voter votee :
  JsMap.keys (players (recordVote s voter votee)) = JsMap.keys (players s).
Proof.
  unfold recordVote. cbn [players set_votes].
  destruct (JsMap.get voter (players s)) eqn:G; [|reflexivity].
  cbn [players set_players]. rewrite keys_set. unfold JsMap.has.
  now rewrite G.
Qed.

(** A player of the session after a vote is a player of the session
    before it, with the same identity and role; only the voter's own
    record is marked. *)
Lemma recordVote_players_In s voter votee k q :
  NoDup (JsMap.keys (players s)) ->
  In (k, q) (players (recordVote s voter votee)) ->
  exists p, In (k, p) (players s)
            /\ inboxId q = inboxId p /\ isImposter q = isImposter p
            /\ (if String.eqb voter k
                then hasVoted q = true /\ votedFor q = Some votee
                else hasVoted q = hasVoted p /\ votedFor q = votedFor p).
Proof.
  intros ND. unfold recordVote. cbn [players set_votes].
  destruct (JsMap.get voter (players s)) as [p|] eqn:G.
  - cbn [players set_players]. intros I.
    apply In_set_strict in I; [|assumption].
    destruct I as [[-> ->]|[N I]].
    + exists p. rewrite String.eqb_refl. repeat split. now apply get_In.
    + exists q. assert (E : String.eqb voter k = false)
        by (apply String.eqb_neq; congruence).
      rewrite E. tauto.
  - cbn [players set_votes]. intros I. exists q.
    assert (E : String.eqb voter k = false).
    { apply String.eqb_neq. intros ->.
      apply In_entry_has in I. unfold JsMap.has in I. now rewrite G in I. }
    rewrite E. tauto.
Qed.

Lemma keys_nonempty {V : Type} (a b : JsMap.t string V) :
  JsMap.keys a = JsMap.keys b -> b <> [] -> a <> [].
Proof. destruct a, b; cbn; congruence. Qed.

Lemma sessionWF_recordVote s voter votee :
  sessionWF s -> status s = voting -> sessionWF (recordVote s voter votee).
Proof.
  intros W St.
  destruct (recordVote_fields s voter votee)
    as (Fst & Fi & Fw & Fd & Fs & Fe & Fc & Fo & Fn).
  pose proof (recordVote_keys s voter votee) as Fk.
  assert (N1 : status s <> idle) by (rewrite St; discriminate).
  assert (N2 : status s <> voting_duration) by (rewrite St; discriminate).
  constructor.
  - rewrite Fk. apply W.
  - intros k q I.
    destruct (recordVote_players_In s voter votee k q (wf_playerKeys s W) I)
      as (p & Ip & E & _). rewrite E. now apply (wf_playerIds s W).
  - rewrite recordVote_votes. apply NoDup_keys_set, W.
  - rewrite recordVote_durationVotes. apply W.
  - intros k q I.
    destruct (recordVote_players_In s voter votee k q (wf_playerKeys s W) I)
      as (p & Ip & _ & _ & H).
    rewrite recordVote_votes, has_set. unfold JsMap.has at 1.
    destruct (String.eqb_spec voter k) as [->|N].
    + rewrite get_set_same. cbn [orb]. tauto.
    + rewrite get_set_other by assumption. cbn [orb].
      destruct (wf_flags s W k p Ip) as [A B].
      destruct H as [-> ->]. split; [exact A | exact B].
  - apply recordVote_rolesConsistent, W.
  - rewrite Fst. intros E. contradiction.
  - rewrite Fst. intros E. contradiction.
  - intros _ _. destruct (wf_dealt s W N1 N2) as (Hi & Hw & (d & Hd & Hc) & Hp).
    rewrite Fi, Fw, Fd.
    rewrite (calculateWinningDuration_ext s _ (recordVote_durationVotes s voter votee)).
    split; [assumption|]. split; [assumption|].
    split; [now exists d|]. now apply (keys_nonempty _ _ Fk).
  - rewrite Fo, Fn. pose proof (wf_result s W) as R.
    destruct (votedOutInboxId s) as [v|]; [|exact R].
    rewrite (determineWinner_ext s _ v Fi), (has_keys_eq _ (players s) v Fk).
    exact R.
  - rewrite Fst, St. discriminate.
  - rewrite Fs, Fe, (discussionMs_ext s _ Fd). apply W.
  - intros id. rewrite Fc, (has_keys_eq _ (players s) id Fk). apply W.
Qed.

Lemma sessionWF_assigned bot env s w :
  sessionWF s -> status s = voting_duration ->
  calculateWinningDuration s = Some w ->
  3 <= List.length (nonBotMembers bot env) ->
  sessionWF (assignedSession bot env (set_selectedDuration (Some w) s)).
Proof.
  intros W St Hw L.
  destruct (sessionWF_no_players s W (or_intror St))
    as (Ep & Ev & Ei & Esw & Esd & Est & Ede & Ecs & Evs & Evo & Ewi).
  set (s1 := set_selectedDuration (Some w) s).
  destruct (assignedSession_facts bot env s1 Ep Ei L)
    as ([ND F] & Hh & (i & Hi & _) & R).
  pose proof (assignedSession_shape bot env s1) as Sh.
  set (s' := assignedSession bot env s1) in *.
  assert (Fv : votes s' = []) by (rewrite Sh; exact Ev).
  assert (Fdv : durationVotes s' = durationVotes s) by now rewrite Sh.
  assert (Fst : status s' = assigning_roles) by now rewrite Sh.
  constructor.
  - exact ND.
  - intros k p I. now apply (F k p I).
  - rewrite Fv. constructor.
  - rewrite Fdv. apply W.
  - intros k p I. rewrite Fv. destruct (F k p I) as (_ & -> & ->). now split.
  - exact R.
  - rewrite Fst. discriminate.
  - rewrite Fst. discriminate.
  - intros _ _. split; [now exists i|].
    split; [exists (randomWord env); now rewrite Sh|].
    split.
    + exists w. split; [now rewrite Sh|].
      now rewrite (calculateWinningDuration_ext s s' Fdv).
    + intros E. assert (H : JsMap.has i (players s') = true).
      { apply Hh. destruct (proj1 R i Hi) as ((p & G & _) & _).
        apply Hh. unfold JsMap.has. now rewrite G. }
      rewrite E in H. discriminate H.
  - rewrite Sh. cbn. now rewrite Evo.
  - rewrite Fst. discriminate.
  - rewrite Sh. cbn. now rewrite Est.
  - intros id. rewrite Sh. cbn. rewrite Ecs. discriminate.
Qed.

Lemma sessionWF_sessionStep bot s s' :
  sessionWF s -> sessionStep bot s s' -> sessionWF s'.
Proof.
  intros W S. destruct S as [s|s A|s voter d St|s env w St Hw L
                            |s t speaker I|s t St|s voter votee St
                            |s r p St R G].
  - exact (sessionWF_create (groupId s)).
  - exact (sessionWF_polling_intro (groupId s) [] (NoDup_nil _)).
  - pose proof (wf_polling s W St) as Es.
    assert (E : recordDurationVote s voter d
                = set_durationVotes (durationVotes (recordDurationVote s voter d))
                    (freshVotingDuration (groupId s))).
    { destruct s. cbn in *. injection Es. intros; subst. reflexivity. }
    rewrite E. apply sessionWF_polling_intro.
    apply recordDurationVote_NoDup, W.
  - now apply sessionWF_assigned.
  - assert (Np : players s <> []).
    { intros E. unfold JsMap.values in I. now rewrite E in I. }
    destruct (sessionWF_players_dealt s W Np) as [N1 N2].
    apply (sessionWF_carry s); try assumption; try reflexivity;
      try discriminate.
    + exact (wf_result s W).
    + cbn. intros id [= <-].
      destruct (In_values_entry _ _ I) as (k & Ik).
      rewrite (wf_playerIds s W k speaker Ik). now apply (In_entry_has k speaker).
  - assert (N1 : status s <> idle) by (rewrite St; discriminate).
    assert (N2 : status s <> voting_duration) by (rewrite St; discriminate).
    apply (sessionWF_carry s); try assumption; try reflexivity;
      try discriminate.
    + exact (wf_result s W).
    + exact (wf_timing s W).
    + exact (wf_speaker s W).
  - now apply sessionWF_recordVote.
  - assert (N1 : status s <> idle) by (rewrite St; discriminate).
    assert (N2 : status s <> voting_duration) by (rewrite St; discriminate).
    apply (sessionWF_carry s); try assumption; try reflexivity;
      try discriminate.
    + cbn. split; [reflexivity|]. unfold JsMap.has. now rewrite G.
    + exact (wf_timing s W).
    + exact (wf_speaker s W).
Qed.

Lemma run_sessionWF bot t0 es g :
  sessionWF (session g (run (newGameManager bot t0) es)).
Proof.
  apply (run_session_invariant sessionWF).
  - apply sessionWF_create.
  - apply sessionWF_sessionStep.
Qed.

Lemma sessionWF_reachable m g : reachable m -> sessionWF (session g m).
Proof. intros (bot & t0 & es & ->). apply run_sessionWF. Qed.

Lemma votingWithVotes_reachable : reachable votingWithVotes.
Proof.
  exists "bot"%string, 0%Z. eexists. unfold votingWithVotes, sampleManager.
  reflexivity.
Qed.

Lemma twoGroups_reachable : reachable twoGroups.
Proof.
  exists "bot"%string, 0%Z. eexists. unfold twoGroups, sampleManager.
  reflexivity.
Qed.

(** X5. The flags of a player record say what the votes map says: a player
    is stored under their own identifier, [hasVoted] is set exactly when
    the votes map has an entry of that player, and [votedFor] is that
    entry. *)
Theorem player_flags_agree_with_votes (m : GameManager) (g k : string)
    (p : Player) :
  reachable m ->
  JsMap.get k (players (session g m)) = Some p ->
  inboxId p = k
  /\ hasVoted p = JsMap.has k (votes (session g m))
  /\ votedFor p = JsMap.get k (votes (session g m)).
Proof.
  intros R G. pose proof (sessionWF_reachable m g R) as W.
  apply get_In in G. split; [now apply (wf_playerIds _ W)|].
  now apply (wf_flags _ W).
Qed.

Lemma player_flags_agree_with_votes_witness :
  inboxId (mkPlayer "P3" "P3" false true (Some "P1"%string)) = "P3"%string
  /\ hasVoted (mkPlayer "P3" "P3" false true (Some "P1"%string))
     = JsMap.has "P3"%string (votes (session "g" votingWithVotes))
  /\ votedFor (mkPlayer "P3" "P3" false true (Some "P1"%string))
     = JsMap.get "P3"%string (votes (session "g" votingWithVotes)).
Proof.
  apply (player_flags_agree_with_votes votingWithVotes "g" "P3" _
           votingWithVotes_reachable).
  computes.
Defined.

(* ================================================================== *)
(** ** The handlers one by one                                          *)
(* ================================================================== *)

Lemma dmPlayers_outbox env word ps : forall n m,
  outbox (snd (fold_left (dmStep env word) ps (n, m)))
  = outbox m
    ++ map (roleMessage word)
           (filter (fun p => dmDelivered env (inboxId p)) ps).
Proof.
  induction ps as [|p ps IH]; intros n m; cbn [fold_left filter].
  - cbn. now rewrite app_nil_r.
  - assert (E : dmStep env word (n, m) p
                = if dmDelivered env (inboxId p)
                  then (S n, emit (roleMessage word p) m)
                  else (n, m)) by reflexivity.
    rewrite E. destruct (dmDelivered env (inboxId p)).
    + rewrite IH. cbn [emit outbox map]. now rewrite <- app_assoc.
    + apply IH.
Qed.

(** The three outcomes of [assignRoles], with everything the handler does
    to the manager. *)
Lemma assignRoles_outcomes g env m :
  let bot := clientInboxId m in
  let s4 := assignedSession bot env (session g m) in
  (List.length (nonBotMembers bot env) < 3 ->
     session g (assignRoles g env m) = resetGameState (session g m)
     /\ outbox (assignRoles g env m) = outbox m ++ [Send g MsgNotEnoughPlayers]
     /\ pending (assignRoles g env m) = pending m
     /\ timers (assignRoles g env m) = timers m)
  /\ (3 <= List.length (nonBotMembers bot env) ->
      deliveredPlayers env s4 = [] ->
      session g (assignRoles g env m) = resetGameState (session g m)
      /\ outbox (assignRoles g env m) = outbox m ++ [Send g MsgDmFailed]
      /\ pending (assignRoles g env m) = pending m
      /\ timers (assignRoles g env m) = timers m)
  /\ (3 <= List.length (nonBotMembers bot env) ->
      deliveredPlayers env s4 <> [] ->
      session g (assignRoles g env m) = s4
      /\ outbox (assignRoles g env m)
         = outbox m
           ++ map (roleMessage (randomWord env)) (deliveredPlayers env s4)
           ++ [Send g (MsgRolesAssigned
                         (List.length (deliveredPlayers env s4))
                         (List.length (nonBotMembers bot env)))]
      /\ pending (assignRoles g env m)
         = pending m
           ++ [mkTimeout (nextHandle m) (now m + 2000)
                 (cbSelectRandomSpeaker g)]
      /\ timers (assignRoles g env m) = timers m).
Proof.
  cbv zeta.
  pose proof (assignRoles_session g env m) as Hs.
  unfold dmCount in Hs. fold (deliveredPlayers env
    (assignedSession (clientInboxId m) env (session g m))) in Hs.
  remember (session g (assignRoles g env m)) as sess eqn:Esess. clear Esess.
  destruct (getGameState_frame g m) as (Ht & Hp & Hn & Hw & Ho & Hc).
  unfold assignRoles. rewrite (surjective_pairing (getGameState g m)).
  change (fst (getGameState g m)) with (session g m).
  rewrite Hc. fold (nonBotMembers (clientInboxId m) env).
  fold (assignedSession (clientInboxId m) env (session g m)).
  set (s4 := assignedSession (clientInboxId m) env (session g m)) in *.
  set (m1 := snd (getGameState g m)) in *.
  destruct (Nat.ltb_spec (List.length (nonBotMembers (clientInboxId m) env)) 3)
    as [L|L].
  { split; [|split; intros; lia]. intros _. split; [exact Hs|].
    cbn [send emit storeGame set_games outbox pending timers].
    now rewrite Ho, Hp, Ht. }
  split; [intros; lia|].
  rewrite (surjective_pairing (dmPlayers _ _ _ _)).
  pose proof (dmPlayers_frame env (randomWord env) (JsMap.values (players s4))
                0 (storeGame g s4 m1)) as Fr.
  pose proof (dmPlayers_outbox env (randomWord env) (JsMap.values (players s4))
                0 (storeGame g s4 m1)) as Fo.
  pose proof (dmPlayers_count env (randomWord env) (JsMap.values (players s4))
                0 (storeGame g s4 m1)) as Fc.
  cbv zeta in Fr. unfold dmPlayers.
  fold (deliveredPlayers env s4) in Fo, Fc.
  destruct Fr as (_ & Ft & Fp & Fn & Fw & _).
  set (m2 := snd (fold_left (dmStep env (randomWord env))
                     (JsMap.values (players s4)) (0, storeGame g s4 m1))) in *.
  rewrite Fc. cbn [Nat.add].
  destruct (deliveredPlayers env s4) as [|p0 rest] eqn:D.
  - cbn [List.length Nat.eqb] in *. split; [|intros _ N; contradiction].
    intros _ _. split; [exact Hs|].
    cbn [send emit storeGame set_games outbox pending timers].
    rewrite Fo, Ft, Fp. cbn [map storeGame set_games outbox pending timers].
    now rewrite app_nil_r, Ho, Hp, Ht.
  - cbn [List.length Nat.eqb] in *. split; [intros _ N; discriminate N|].
    intros _ _. split; [exact Hs|].
    cbn [setTimeout snd send emit set_pending set_nextHandle outbox pending
         timers nextHandle now].
    rewrite Fo, Ft, Fp, Fn, Fw.
    cbn [storeGame set_games outbox pending timers nextHandle now].
    rewrite Ho, Hp, Ht, Hn, Hw, <- app_assoc. repeat split.
Qed.

Lemma filter_length_lt {A : Type} (f : A -> bool) (l : list A) (x : A) :
  In x l -> f x = false -> List.length (filter f l) < List.length l.
Proof.
  induction l as [|a l IH]; cbn [In filter List.length]; [tauto|].
  intros [->|I] F.
  - rewrite F. pose proof (filter_length_le f l). lia.
  - specialize (IH I F). destruct (f a); cbn [List.length]; lia.
Qed.

Lemma finalizeDurationVote_unfold g env m w :
  status (session g m) = voting_duration ->
  calculateWinningDuration (session g m) = Some w ->
  finalizeDurationVote g env m
  = assignRoles g env
      (send g (MsgDurationSelected w)
         (storeGame g (set_selectedDuration (Some w) (session g m))
            (snd (getGameState g m)))).
Proof.
  intros St W. unfold finalizeDurationVote.
  rewrite (surjective_pairing (getGameState g m)).
  change (fst (getGameState g m)) with (session g m).
  now rewrite St, W.
Qed.

(** X8. [startGame] counts the bot among the members, [assignRoles] does
    not: a group of the bot and two others passes the check at the start,
    and when its duration poll closes with votes the game is called off for
    lack of players, the session is reset and nothing is armed or sent
    privately. *)
Theorem bot_counts_at_start_but_not_at_assignment
    (g : string) (env : Env) (m : GameManager) (w : GameDuration) :
  In (clientInboxId m) (members env) ->
  List.length (members env) = 3 ->
  (isGameActive (session g m) = false ->
   status (session g (startGame g env m)) = voting_duration)
  /\ (status (session g m) = voting_duration ->
      calculateWinningDuration (session g m) = Some w ->
      session g (finalizeDurationVote g env m) = resetGameState (session g m)
      /\ outbox (finalizeDurationVote g env m)
         = outbox m ++ [Send g (MsgDurationSelected w);
                        Send g MsgNotEnoughPlayers]
      /\ pending (finalizeDurationVote g env m) = pending m
      /\ timers (finalizeDurationVote g env m) = timers m).
Proof.
  intros Ib L3. split.
  - intros A. rewrite startGame_session, A, L3. reflexivity.
  - intros St W. rewrite (finalizeDurationVote_unfold g env m w St W).
    destruct (getGameState_frame g m) as (Ht & Hp & Hn & Hw & Ho & Hc).
    set (m2 := send g (MsgDurationSelected w)
                 (storeGame g (set_selectedDuration (Some w) (session g m))
                    (snd (getGameState g m)))).
    assert (Ec : clientInboxId m2 = clientInboxId m) by exact Hc.
    assert (Lt : List.length (nonBotMembers (clientInboxId m2) env) < 3).
    { rewrite Ec, <- L3. unfold nonBotMembers.
      apply (filter_length_lt _ _ (clientInboxId m) Ib).
      now rewrite String.eqb_refl. }
    destruct (assignRoles_outcomes g env m2) as (H & _).
    destruct (H Lt) as (Hs & Hob & Hpe & Hti).
    rewrite Hs, Hob, Hpe, Hti. subst m2.
    autorewrite with session_db.
    cbn [send emit storeGame set_games outbox pending timers].
    rewrite Ho, Hp, Ht, <- app_assoc. repeat split.
Qed.

Lemma bot_counts_at_start_but_not_at_assignment_witness :
  status (session "g" (startGame "g" smallGroupEnv sampleManager))
  = voting_duration
  /\ outbox (finalizeDurationVote "g" smallGroupEnv pollClosed)
     = outbox pollClosed ++ [Send "g" (MsgDurationSelected D5);
                             Send "g" MsgNotEnoughPlayers].
Proof.
  assert (Ib : In (clientInboxId sampleManager) (members smallGroupEnv))
    by now left.
  assert (Ib' : In (clientInboxId pollClosed) (members smallGroupEnv)).
  { replace (clientInboxId pollClosed) with "bot"%string by computes.
    now left. }
  assert (A : isGameActive (session "g" sampleManager) = false) by computes.
  assert (St : status (session "g" pollClosed) = voting_duration) by computes.
  assert (W : calculateWinningDuration (session "g" pollClosed) = Some D5)
    by computes.
  destruct (bot_counts_at_start_but_not_at_assignment "g" smallGroupEnv
              sampleManager D5 Ib eq_refl) as [H1 _].
  destruct (bot_counts_at_start_but_not_at_assignment "g" smallGroupEnv
              pollClosed D5 Ib' eq_refl) as [_ H2].
  destruct (H2 St W) as (_ & Ho & _).
  split; [exact (H1 A) | exact Ho].
Defined.

Lemma In_values_iff {V : Type} (p : V) (m : JsMap.t string V) :
  In p (JsMap.values m) <-> exists k, In (k, p) m.
Proof.
  split; [apply In_values_entry|]. intros (k & I).
  unfold JsMap.values. change p with (snd (k, p)). now apply in_map.
Qed.

Lemma has_In_entry {V : Type} (k : string) (m : JsMap.t string V) :
  JsMap.has k m = true -> exists p, In (k, p) m.
Proof.
  unfold JsMap.has. destruct (JsMap.get k m) as [p|] eqn:G; [|discriminate].
  intros _. exists p. now apply get_In.
Qed.

(** With fresh player records, somebody's role message is delivered exactly
    when it can be delivered to one of the members other than the bot. *)
Lemma deliveredPlayers_spec bot env s :
  players s = [] -> imposterInboxId s = None ->
  3 <= List.length (nonBotMembers bot env) ->
  forall p, In p (deliveredPlayers env (assignedSession bot env s))
    <-> In (inboxId p, p) (players (assignedSession bot env s))
        /\ dmDelivered env (inboxId p) = true.
Proof.
  intros Ep Ei L p.
  destruct (assignedSession_facts bot env s Ep Ei L) as ([ND F] & _).
  unfold deliveredPlayers. rewrite filter_In, In_values_iff. split.
  - intros [(k & I) D]. split; [|assumption].
    now rewrite (proj1 (F k p I)).
  - intros [I D]. split; [now exists (inboxId p) | assumption].
Qed.

(** X9. A successful role assignment, from a session without players: the
    players are exactly the members other than the bot, all unvoted; the
    imposter is the member the draw points at, the only flagged player; the
    secret word is the drawn word; and the speaker selection is armed 2000
    ms later by a timeout that [timers] does not track. *)
Theorem assigned_roles_are_well_formed (g : string) (env : Env)
    (m : GameManager) (id0 : string) :
  players (session g m) = [] ->
  imposterInboxId (session g m) = None ->
  3 <= List.length (nonBotMembers (clientInboxId m) env) ->
  In id0 (nonBotMembers (clientInboxId m) env) ->
  dmDelivered env id0 = true ->
  status (session g (assignRoles g env m)) = assigning_roles
  /\ secretWord (session g (assignRoles g env m)) = Some (randomWord env)
  /\ (forall k, JsMap.has k (players (session g (assignRoles g env m))) = true
                <-> In k (members env) /\ k <> clientInboxId m)
  /\ (forall k p, In (k, p) (players (session g (assignRoles g env m))) ->
                  inboxId p = k /\ hasVoted p = false /\ votedFor p = None)
  /\ (exists i,
        imposterInboxId (session g (assignRoles g env m)) = Some i
        /\ nth_error (nonBotMembers (clientInboxId m) env)
             (randomIndex (randomImposter env)
                (List.length (nonBotMembers (clientInboxId m) env))) = Some i
        /\ forall k p, In (k, p) (players (session g (assignRoles g env m))) ->
                       (isImposter p = true <-> k = i))
  /\ pending (assignRoles g env m)
     = pending m ++ [mkTimeout (nextHandle m) (now m + 2000)
                       (cbSelectRandomSpeaker g)]
  /\ timers (assignRoles g env m) = timers m.
Proof.
  intros Ep Ei L I0 D0.
  set (bot := clientInboxId m) in *.
  destruct (assignedSession_facts bot env (session g m) Ep Ei L)
    as ([ND F] & Hh & (i & Hi & Hn) & R).
  assert (Dn : deliveredPlayers env (assignedSession bot env (session g m)) <> []).
  { destruct (has_In_entry id0 _ (proj2 (Hh id0) I0)) as (p & Ip).
    pose proof (proj1 (F id0 p Ip)) as E.
    assert (In p (deliveredPlayers env (assignedSession bot env (session g m)))).
    { apply (deliveredPlayers_spec bot env _ Ep Ei L). rewrite E. now split. }
    intros Z. now rewrite Z in H. }
  destruct (assignRoles_outcomes g env m) as (_ & _ & H).
  destruct (H L Dn) as (Hs & _ & Hp & Ht). fold bot in Hs.
  rewrite Hs, Hp, Ht.
  split; [now rewrite assignedSession_shape|].
  split; [now rewrite assignedSession_shape|].
  split.
  { intros k. rewrite Hh. unfold nonBotMembers. rewrite filter_In.
    rewrite negb_true_iff, String.eqb_neq. tauto. }
  split; [exact F|].
  split; [|now split].
  exists i. split; [assumption|]. split; [assumption|].
  intros k p Ip. destruct (proj1 R i Hi) as ((pi & Gi & Fi) & Ho). split.
  - intros Fl. now apply (Ho k p).
  - intros ->. rewrite (In_get _ _ _ ND Ip) in Gi. now injection Gi as ->.
Qed.

Lemma pollClosed_selected_no_players :
  players (session "g" pollClosed) = []
  /\ imposterInboxId (session "g" pollClosed) = None.
Proof. split; computes. Qed.

Lemma assigned_roles_are_well_formed_witness :
  status (session "g" (assignRoles "g" sampleEnv pollClosed)) = assigning_roles
  /\ secretWord (session "g" (assignRoles "g" sampleEnv pollClosed))
     = Some (randomWord sampleEnv).
Proof.
  destruct pollClosed_selected_no_players as [Ep Ei].
  assert (Eb : clientInboxId pollClosed = "bot"%string) by computes.
  assert (El : nonBotMembers (clientInboxId pollClosed) sampleEnv
               = ["P1"; "P2"; "P3"]%string) by (rewrite Eb; reflexivity).
  destruct (assigned_roles_are_well_formed "g" sampleEnv pollClosed "P1" Ep Ei)
    as (H1 & H2 & _).
  - rewrite El. cbn. lia.
  - rewrite El. now left.
  - reflexivity.
  - split; [exact H1 | exact H2].
Defined.

(** X10. Who is told what: the private messages of a successful role
    assignment go to distinct players, one per player that can be reached;
    a message with a word carries the session's secret word and never goes
    to the imposter, and the imposter notice goes to nobody else; the
    number of messages is the number the group is told. *)
Theorem imposter_is_never_told_the_word (g : string) (env : Env)
    (m : GameManager) (id0 : string) :
  players (session g m) = [] ->
  imposterInboxId (session g m) = None ->
  3 <= List.length (nonBotMembers (clientInboxId m) env) ->
  In id0 (nonBotMembers (clientInboxId m) env) ->
  dmDelivered env id0 = true ->
  exists dms,
    outbox (assignRoles g env m)
    = outbox m ++ map (roleMessage (randomWord env)) dms
      ++ [Send g (MsgRolesAssigned (List.length dms)
                    (List.length (nonBotMembers (clientInboxId m) env)))]
    /\ NoDup (map inboxId dms)
    /\ (forall p, In p dms <->
          In (inboxId p, p) (players (session g (assignRoles g env m)))
          /\ dmDelivered env (inboxId p) = true)
    /\ (forall id word,
          In (SendDm id (DmSecretWord word))
             (map (roleMessage (randomWord env)) dms) ->
          secretWord (session g (assignRoles g env m)) = Some word
          /\ imposterInboxId (session g (assignRoles g env m)) <> Some id)
    /\ (forall id,
          In (SendDm id DmYouAreImposter)
             (map (roleMessage (randomWord env)) dms) ->
          imposterInboxId (session g (assignRoles g env m)) = Some id).
Proof.
  intros Ep Ei L I0 D0.
  set (bot := clientInboxId m) in *.
  destruct (assignedSession_facts bot env (session g m) Ep Ei L)
    as ([ND F] & Hh & (i & Hi & Hn) & R).
  pose proof (deliveredPlayers_spec bot env _ Ep Ei L) as Hd.
  set (s4 := assignedSession bot env (session g m)) in *.
  assert (Dn : deliveredPlayers env s4 <> []).
  { destruct (has_In_entry id0 _ (proj2 (Hh id0) I0)) as (p & Ip).
    pose proof (proj1 (F id0 p Ip)) as E.
    assert (In p (deliveredPlayers env s4)).
    { apply Hd. rewrite E. now split. }
    intros Z. now rewrite Z in H. }
  destruct (assignRoles_outcomes g env m) as (_ & _ & H).
  destruct (H L Dn) as (Hs & Ho & _). fold bot in Hs, Ho. fold s4 in Hs, Ho.
  rewrite Hs. exists (deliveredPlayers env s4).
  split; [exact Ho|].
  assert (Flag : forall p, In p (deliveredPlayers env s4) ->
            (isImposter p = true <-> inboxId p = i)).
  { intros p Ip. apply Hd in Ip. destruct Ip as [Ip _].
    destruct (proj1 R i Hi) as ((pi & Gi & Fi) & Hoth). split.
    - intros Fl. now apply (Hoth _ p).
    - intros E. rewrite E in Ip.
      rewrite (In_get _ _ _ ND Ip) in Gi. now injection Gi as ->. }
  split.
  { (* distinct recipients *)
    assert (Sub : forall l : list (string * Player),
              NoDup (map fst l) ->
              (forall k p, In (k, p) l -> inboxId p = k) ->
              NoDup (map inboxId
                       (filter (fun p => dmDelivered env (inboxId p))
                               (map snd l)))).
    { induction l as [|[k p] l IH]; cbn [map fst snd filter]; intros N Hk;
        [constructor|].
      inversion N as [|? ? Hnin N']; subst.
      assert (IHl : NoDup (map inboxId
                (filter (fun p => dmDelivered env (inboxId p)) (map snd l)))).
      { apply IH; [assumption|]. intros k' p' I'. apply Hk. now right. }
      destruct (dmDelivered env (inboxId p)); [|assumption].
      cbn [map]. constructor; [|assumption].
      intros I. apply in_map_iff in I. destruct I as (q & Eq & Iq).
      apply filter_In in Iq. destruct Iq as [Iq _].
      apply in_map_iff in Iq. destruct Iq as ([k' q'] & Es & Iq).
      cbn in Es. subst q'. apply Hnin.
      rewrite <- (Hk k p (or_introl eq_refl)), <- Eq.
      rewrite (Hk k' q (or_intror Iq)).
      change k' with (fst (k', q)). now apply in_map. }
    apply (Sub (players s4) ND). intros k p I. now apply (F k p I). }
  split; [exact Hd|].
  split.
  - intros id word I. apply in_map_iff in I. destruct I as (p & E & Ip).
    unfold roleMessage in E. destruct (isImposter p) eqn:Fl; [discriminate|].
    injection E as <- <-.
    split; [unfold s4; now rewrite assignedSession_shape|].
    rewrite Hi. intros [= E]. symmetry in E. apply (Flag p Ip) in E.
    congruence.
  - intros id I. apply in_map_iff in I. destruct I as (p & E & Ip).
    unfold roleMessage in E. destruct (isImposter p) eqn:Fl; [|discriminate].
    injection E as <-. rewrite Hi. f_equal. symmetry. now apply (Flag p Ip).
Qed.

Lemma imposter_is_never_told_the_word_witness :
  exists dms,
    outbox (assignRoles "g" sampleEnv pollClosed)
    = outbox pollClosed ++ map (roleMessage (randomWord sampleEnv)) dms
      ++ [Send "g" (MsgRolesAssigned (List.length dms)
                      (List.length (nonBotMembers (clientInboxId pollClosed)
                                      sampleEnv)))]
    /\ NoDup (map inboxId dms).
Proof.
  destruct pollClosed_selected_no_players as [Ep Ei].
  assert (Eb : clientInboxId pollClosed = "bot"%string) by computes.
  assert (El : nonBotMembers (clientInboxId pollClosed) sampleEnv
               = ["P1"; "P2"; "P3"]%string) by (rewrite Eb; reflexivity).
  destruct (imposter_is_never_told_the_word "g" sampleEnv pollClosed "P1" Ep Ei)
    as (dms & Ho & Hn & _).
  - rewrite El. cbn. lia.
  - rewrite El. now left.
  - reflexivity.
  - exists dms. split; [exact Ho | exact Hn].
Defined.

(** X11. When no member other than the bot can be reached privately, role
    assignment is called off: the failure is reported to the group, the
    session is reset, no private message is sent and no timeout is armed. *)
Theorem unreachable_players_call_the_game_off (g : string) (env : Env)
    (m : GameManager) :
  players (session g m) = [] ->
  imposterInboxId (session g m) = None ->
  3 <= List.length (nonBotMembers (clientInboxId m) env) ->
  (forall id, In id (members env) -> dmDelivered env id = false) ->
  session g (assignRoles g env m) = resetGameState (session g m)
  /\ outbox (assignRoles g env m) = outbox m ++ [Send g MsgDmFailed]
  /\ pending (assignRoles g env m) = pending m
  /\ timers (assignRoles g env m) = timers m.
Proof.
  intros Ep Ei L Hno.
  set (bot := clientInboxId m) in *.
  destruct (assignedSession_facts bot env (session g m) Ep Ei L)
    as (_ & Hh & _).
  pose proof (deliveredPlayers_spec bot env _ Ep Ei L) as Hd.
  assert (Dn : deliveredPlayers env (assignedSession bot env (session g m)) = []).
  { assert (Hnone : forall p,
              ~ In p (deliveredPlayers env
                        (assignedSession bot env (session g m)))).
    { intros p Ip. apply Hd in Ip. destruct Ip as [Ip Dp].
      apply In_entry_has, Hh in Ip. unfold nonBotMembers in Ip.
      apply filter_In in Ip. rewrite (Hno _ (proj1 Ip)) in Dp. discriminate. }
    destruct (deliveredPlayers env _) as [|p rest]; [reflexivity|].
    destruct (Hnone p). now left. }
  destruct (assignRoles_outcomes g env m) as (_ & H & _).
  exact (H L Dn).
Qed.

Lemma unreachable_players_call_the_game_off_witness :
  outbox (assignRoles "g" unreachableEnv pollClosed)
  = outbox pollClosed ++ [Send "g" MsgDmFailed]
  /\ pending (assignRoles "g" unreachableEnv pollClosed) = pending pollClosed.
Proof.
  destruct pollClosed_selected_no_players as [Ep Ei].
  assert (Eb : clientInboxId pollClosed = "bot"%string) by computes.
  destruct (unreachable_players_call_the_game_off "g" unreachableEnv pollClosed
              Ep Ei) as (_ & Ho & Hp & _).
  - rewrite Eb. cbn. lia.
  - reflexivity.
  - split; [exact Ho | exact Hp].
Defined.

Lemma getGameState_idem_frame g m :
  forall g', session g' (snd (getGameState g m)) = session g' m.
Proof. intros g'. apply session_getGameState_at. Qed.

(** X12. Votes count in their own phase only, and silently: a duration
    vote is recorded exactly when the session is in the duration poll, an
    accusation exactly when it is in the accusation poll; otherwise the
    session is left as it is, and in no case is anything sent, armed or
    disarmed. *)
Theorem votes_are_phase_gated_and_silent (g voter votee : string)
    (d : GameDuration) (m : GameManager) :
  (session g (handleDurationVote g voter d m)
   = if GameStatus_eqb (status (session g m)) voting_duration
     then recordDurationVote (session g m) voter d else session g m)
  /\ outbox (handleDurationVote g voter d m) = outbox m
  /\ pending (handleDurationVote g voter d m) = pending m
  /\ timers (handleDurationVote g voter d m) = timers m
  /\ (session g (handlePlayerVote g voter votee m)
      = if GameStatus_eqb (status (session g m)) voting
        then recordVote (session g m) voter votee else session g m)
  /\ outbox (handlePlayerVote g voter votee m) = outbox m
  /\ pending (handlePlayerVote g voter votee m) = pending m
  /\ timers (handlePlayerVote g voter votee m) = timers m.
Proof.
  destruct (getGameState_frame g m) as (Ht & Hp & _ & _ & Ho & _).
  split; [apply handleDurationVote_session|].
  assert (F1 : outbox (handleDurationVote g voter d m) = outbox m
               /\ pending (handleDurationVote g voter d m) = pending m
               /\ timers (handleDurationVote g voter d m) = timers m).
  { unfold handleDurationVote. rewrite (surjective_pairing (getGameState g m)).
    destruct (negb _); cbn [storeGame set_games outbox pending timers]; auto. }
  assert (F2 : outbox (handlePlayerVote g voter votee m) = outbox m
               /\ pending (handlePlayerVote g voter votee m) = pending m
               /\ timers (handlePlayerVote g voter votee m) = timers m).
  { unfold handlePlayerVote. rewrite (surjective_pairing (getGameState g m)).
    destruct (negb _); cbn [storeGame set_games outbox pending timers]; auto. }
  split; [apply F1|]. split; [apply F1|]. split; [apply F1|].
  split; [apply handlePlayerVote_session|]. exact F2.
Qed.

Lemma selectRandomSpeaker_outcome (g : string) (env : Env)
    (m : GameManager) :
  (players (session g m) = [] ->
     session g (selectRandomSpeaker g env m) = session g m
     /\ outbox (selectRandomSpeaker g env m)
        = outbox m ++ [Threw (cbSelectRandomSpeaker g)]
     /\ pending (selectRandomSpeaker g env m) = pending m
     /\ timers (selectRandomSpeaker g env m) = timers m)
  /\ (players (session g m) <> [] ->
      exists speaker,
        In speaker (JsMap.values (players (session g m)))
        /\ session g (selectRandomSpeaker g env m)
           = discussionSession (now m) speaker (session g m)
        /\ status (session g (selectRandomSpeaker g env m)) = discussion
        /\ currentSpeakerInboxId (session g (selectRandomSpeaker g env m))
           = Some (inboxId speaker)
        /\ discussionEndTime (session g (selectRandomSpeaker g env m))
           = Some (now m + discussionMs (session g m))%Z
        /\ outbox (selectRandomSpeaker g env m)
           = outbox m ++ [Send g (MsgSpeaker (resolveName env (address speaker))
                                    (selectedDuration (session g m)))]
        /\ JsMap.get g (timers (selectRandomSpeaker g env m))
           = Some (nextHandle m)
        /\ pending (selectRandomSpeaker g env m)
           = withoutTracked g m
             ++ [mkTimeout (nextHandle m)
                   (now m + discussionMs (session g m))
                   (cbEndDiscussionPhase g)]).
Proof.
  pose proof (selectRandomSpeaker_session g env m) as Hs.
  remember (session g (selectRandomSpeaker g env m)) as sess eqn:Esess.
  clear Esess.
  destruct (getGameState_frame g m) as (Ht & Hp & Hn & Hw & Ho & _).
  unfold selectRandomSpeaker. rewrite (surjective_pairing (getGameState g m)).
  change (fst (getGameState g m)) with (session g m).
  set (m1 := snd (getGameState g m)) in *.
  set (ps := JsMap.values (players (session g m))) in *.
  split.
  - intros E. assert (Eps : ps = []) by (subst ps; now rewrite E).
    rewrite Eps in *. cbn [List.length randomIndex nth_error] in *.
    split; [exact Hs|]. cbn [emit outbox pending timers].
    now rewrite Ho, Hp, Ht.
  - intros N.
    assert (Lp : 0 < List.length ps).
    { subst ps. unfold JsMap.values. rewrite length_map.
      destruct (players (session g m)); [contradiction | cbn; lia]. }
    pose proof (randomIndex_lt (randomSpeaker env) _ Lp) as Lt.
    destruct (nth_error ps _) as [sp|] eqn:E;
      [|apply nth_error_None in E; lia].
    exists sp. split; [eapply nth_error_In, E|].
    split; [exact Hs|]. rewrite Hs.
    split; [reflexivity|]. split; [reflexivity|]. split; [reflexivity|].
    unfold startDiscussionPhase.
    match goal with
    | |- context [getGameState g ?x] => set (m2 := x)
    end.
    rewrite (surjective_pairing (getGameState g m2)).
    change (fst (getGameState g m2)) with (session g m2).
    destruct (getGameState_frame g m2) as (Ht2 & Hp2 & Hn2 & Hw2 & Ho2 & _).
    assert (S2 : session g m2
                 = set_currentSpeakerInboxId (Some (inboxId sp)) (session g m)).
    { subst m2. now autorewrite with session_db. }
    set (m3 := storeGame g _ (snd (getGameState g m2))).
    destruct (setTimer_spec g (cbEndDiscussionPhase g)
                ((match selectedDuration (session g m2) with
                  | Some d => minutes d | None => 5 end) * 60 * 1000)%Z m3)
      as (Et & Ep & Eo & _).
    rewrite Et, Ep, Eo. unfold withoutTracked.
    subst m3. cbn [storeGame set_games outbox pending timers nextHandle now].
    rewrite Ht2, Hp2, Hn2, Hw2, Ho2. subst m2.
    cbn [send emit storeGame set_games outbox pending timers nextHandle now].
    rewrite Ht, Hp, Hn, Hw, Ho, get_set_same.
    rewrite S2. cbn [selectedDuration set_currentSpeakerInboxId].
    unfold discussionMs. repeat split.
Qed.

(** X13. [selectRandomSpeaker] does not look at the phase.  With players
    it names one of them as speaker, puts the session into the discussion
    phase with its players and votes as they are, announces the speaker,
    and replaces the tracked timer of the group by one that calls
    [endDiscussionPhase] after the selected number of minutes (five if
    none is selected); without players it throws and changes nothing. *)
Theorem discussion_starts_with_a_player_speaking (g : string) (env : Env)
    (m : GameManager) :
  (players (session g m) = [] ->
     session g (selectRandomSpeaker g env m) = session g m
     /\ outbox (selectRandomSpeaker g env m)
        = outbox m ++ [Threw (cbSelectRandomSpeaker g)]
     /\ pending (selectRandomSpeaker g env m) = pending m
     /\ timers (selectRandomSpeaker g env m) = timers m)
  /\ (players (session g m) <> [] ->
      exists speaker t,
        In speaker (JsMap.values (players (session g m)))
        /\ status (session g (selectRandomSpeaker g env m)) = discussion
        /\ currentSpeakerInboxId (session g (selectRandomSpeaker g env m))
           = Some (inboxId speaker)
        /\ players (session g (selectRandomSpeaker g env m))
           = players (session g m)
        /\ votes (session g (selectRandomSpeaker g env m))
           = votes (session g m)
        /\ outbox (selectRandomSpeaker g env m)
           = outbox m ++ [Send g (MsgSpeaker (resolveName env (address speaker))
                                    (selectedDuration (session g m)))]
        /\ JsMap.get g (timers (selectRandomSpeaker g env m))
           = Some (handle t)
        /\ callback t = cbEndDiscussionPhase g
        /\ (due t - now m = discussionMs (session g m))%Z
        /\ pending (selectRandomSpeaker g env m) = withoutTracked g m ++ [t]).
Proof.
  destruct (selectRandomSpeaker_outcome g env m) as [He Hn].
  split; [exact He|]. intros N.
  destruct (Hn N) as (sp & I & Es & St & Ec & _ & Eo & Et & Ep).
  exists sp, (mkTimeout (nextHandle m) (now m + discussionMs (session g m))
                (cbEndDiscussionPhase g)).
  split; [exact I|]. split; [exact St|]. split; [exact Ec|].
  split; [now rewrite Es|]. split; [now rewrite Es|].
  split; [exact Eo|]. split; [exact Et|]. split; [reflexivity|].
  split; [cbn [due]; lia | exact Ep].
Qed.

Lemma discussion_starts_with_a_player_speaking_witness :
  exists speaker t,
    status (session "g" (selectRandomSpeaker "g" sampleEnv rolesDealt))
    = discussion
    /\ currentSpeakerInboxId
         (session "g" (selectRandomSpeaker "g" sampleEnv rolesDealt))
       = Some (inboxId speaker)
    /\ pending (selectRandomSpeaker "g" sampleEnv rolesDealt)
       = withoutTracked "g" rolesDealt ++ [t].
Proof.
  destruct (proj2 (discussion_starts_with_a_player_speaking
                     "g" sampleEnv rolesDealt))
    as (sp & t & _ & St & Ec & _ & _ & _ & _ & _ & _ & Ep).
  - vm_compute. discriminate.
  - exists sp, t. split; [exact St|]. split; [exact Ec | exact Ep].
Defined.

Lemma values_keys_ids (s : GameState) :
  (forall k p, In (k, p) (players s) -> inboxId p = k) ->
  map inboxId (JsMap.values (players s)) = JsMap.keys (players s).
Proof.
  unfold JsMap.values, JsMap.keys. induction (players s) as [|[k p] l IH];
    intros H; [reflexivity|].
  cbn [map fst snd]. f_equal.
  - apply H. now left.
  - apply IH. intros k' p' I. apply H. now right.
Qed.






(* ================================================================== *)
(** ** The timers of the manager                                        *)
(* ================================================================== *)

Lemma In_withoutTracked g m t :
  In t (withoutTracked g m)
  <-> In t (pending m) /\ JsMap.get g (timers m) <> Some (handle t).
Proof.
  unfold withoutTracked. destruct (JsMap.get g (timers m)) as [h|].
  - rewrite filter_In. split; intros [I N]; split; auto.
    + intros E. injection E as ->. now rewrite Nat.eqb_refl in N.
    + destruct (Nat.eqb_spec (handle t) h) as [E|];
        [elim N; now rewrite E | reflexivity].
  - split; [intros I; split; [exact I | discriminate] | tauto].
Qed.

Lemma handles_filter (keep : Timeout -> bool) (ts : list Timeout) :
  NoDup (map handle ts) -> NoDup (map handle (filter keep ts)).
Proof.
  intros Hd. induction ts as [|t ts IH]; cbn [filter map]; [constructor|].
  cbn [map] in Hd. apply NoDup_cons_iff in Hd as [Hn Hd].
  destruct (keep t); cbn [map]; [|now apply IH].
  apply NoDup_cons; [|now apply IH].
  intros I. apply Hn. apply in_map_iff in I as (x & E & Ix).
  apply filter_In in Ix as [Ix _]. apply in_map_iff. now exists x.
Qed.

Lemma NoDup_map_withoutTracked g m :
  NoDup (map handle (pending m)) -> NoDup (map handle (withoutTracked g m)).
Proof.
  unfold withoutTracked. destruct (JsMap.get g (timers m)); [|auto].
  apply handles_filter.
Qed.

Lemma NoDup_map_snoc (l : list Timeout) (t : Timeout) :
  NoDup (map handle l) -> (forall x, In x l -> handle x <> handle t) ->
  NoDup (map handle (l ++ [t])).
Proof.
  intros Hd Hn. rewrite map_app. cbn [map].
  apply NoDup_app; [exact Hd | repeat constructor; intros [] |].
  intros a Ia [<-|[]]. apply in_map_iff in Ia as (x & E & Ix).
  now apply (Hn x Ix).
Qed.

Lemma NoDup_keys_delete {V : Type} (k : string) (m : JsMap.t string V) :
  NoDup (JsMap.keys m) -> NoDup (JsMap.keys (JsMap.delete k m)).
Proof.
  unfold JsMap.keys.
  induction m as [|[k0 v0] m IH]; cbn [JsMap.delete map fst]; [auto|].
  intros H. inversion H as [|? ? Hn Hd]; subst.
  destruct (keqb k0 k); [exact Hd|]. cbn [map fst].
  constructor; [|auto]. intros I. apply Hn.
  apply in_map_iff in I as ([k1 v1] & E & I). apply In_delete in I.
  apply in_map_iff. now exists (k1, v1).
Qed.

Lemma timersIssued_get g h m :
  timersIssued m -> JsMap.get g (timers m) = Some h -> h < nextHandle m.
Proof. intros H E. apply get_In in E. exact (H _ E). Qed.

Lemma timersWF_new bot t0 : timersWF (newGameManager bot t0).
Proof.
  constructor; cbn.
  - constructor.
  - intros e [].
  - constructor.
  - constructor.
  - intros t [].
  - intros g t [].
Qed.

Lemma timersWF_clearTimeout h m : timersWF m -> timersWF (clearTimeout h m).
Proof.
  intros [Hi Ht Hk Hd Hs Ho].
  constructor; unfold clearTimeout;
    cbn [pending timers nextHandle set_pending] in *.
  - unfold handlesIssued in *. cbn [pending nextHandle set_pending].
    rewrite Forall_forall in *. intros t I. apply filter_In in I as [I _]. auto.
  - exact Ht.
  - exact Hk.
  - now apply handles_filter.
  - intros t I. apply filter_In in I as [I _]. auto.
  - intros g t I. apply filter_In in I as [I _]. auto.
Qed.

Lemma timersWF_effect g m m' : timersWF m -> timerEffect g m m' -> timersWF m'.
Proof.
  intros [Hi Ht Hk Hd Hs Ho] E.
  assert (Hi' : forall t, In t (pending m) -> handle t < nextHandle m).
  { unfold handlesIssued in Hi. now rewrite Forall_forall in Hi. }
  destruct E as [Et Ep En | cb d K G Et Ep En | cb d K Et Ep En | Et Ep En].
  - constructor; unfold handlesIssued, timersIssued in *;
      rewrite ?Et, ?Ep, ?En; auto.
  - constructor; unfold handlesIssued, timersIssued; rewrite ?Et, ?Ep, ?En.
    + apply Forall_forall. intros t I. apply in_app_or in I as [I|[<-|[]]].
      * apply In_withoutTracked in I as [I _]. specialize (Hi' t I). lia.
      * cbn. lia.
    + intros [k v] I. apply In_set_inv in I as [[_ ->]|I]; cbn [snd]; [lia|].
      specialize (Ht _ I). cbn [snd] in Ht. lia.
    + now apply NoDup_keys_set.
    + apply NoDup_map_snoc; [now apply NoDup_map_withoutTracked|].
      intros x I. apply In_withoutTracked in I as [I _]. specialize (Hi' x I).
      cbn [handle]. lia.
    + intros t I Kt. apply in_app_or in I as [I|[<-|[]]].
      * apply In_withoutTracked in I as [I N].
        pose proof (Hs t I Kt) as Eg.
        destruct (string_dec g (callbackGroup (callback t))) as [Eq|Ng];
          [rewrite <- Eq in Eg; contradiction|].
        now rewrite get_set_other.
      * cbn [callback handle]. rewrite G. apply get_set_same.
    + intros g' t I Eg. apply in_app_or in I as [I|[<-|[]]].
      * apply In_withoutTracked in I as [I N]. specialize (Hi' t I).
        destruct (string_dec g g') as [<-|Ng].
        -- rewrite get_set_same in Eg. injection Eg as Eg. lia.
        -- rewrite get_set_other in Eg by exact Ng. now apply Ho.
      * cbn [callback handle] in *.
        destruct (string_dec g g') as [<-|Ng]; [now split|].
        rewrite get_set_other in Eg by exact Ng.
        pose proof (timersIssued_get _ _ _ Ht Eg). lia.
  - constructor; unfold handlesIssued, timersIssued; rewrite ?Et, ?Ep, ?En.
    + apply Forall_forall. intros t I. apply in_app_or in I as [I|[<-|[]]].
      * specialize (Hi' t I). lia.
      * cbn. lia.
    + intros e I. specialize (Ht _ I). lia.
    + exact Hk.
    + apply NoDup_map_snoc; [exact Hd|].
      intros x I. specialize (Hi' x I). cbn [handle]. lia.
    + intros t I Kt. apply in_app_or in I as [I|[<-|[]]]; [now apply Hs|].
      cbn [callback] in Kt. congruence.
    + intros g' t I Eg. apply in_app_or in I as [I|[<-|[]]]; [now apply Ho|].
      cbn [handle] in Eg. pose proof (timersIssued_get _ _ _ Ht Eg). lia.
  - constructor; unfold handlesIssued, timersIssued; rewrite ?Et, ?Ep, ?En.
    + apply Forall_forall. intros t I.
      apply In_withoutTracked in I as [I _]. auto.
    + intros e I. apply In_delete in I. auto.
    + now apply NoDup_keys_delete.
    + now apply NoDup_map_withoutTracked.
    + intros t I Kt. apply In_withoutTracked in I as [I N].
      pose proof (Hs t I Kt) as Eg.
      destruct (string_dec g (callbackGroup (callback t))) as [Eq|Ng];
        [rewrite <- Eq in Eg; contradiction|].
      now rewrite get_delete_other.
    + intros g' t I Eg. apply In_withoutTracked in I as [I N].
      destruct (string_dec g g') as [<-|Ng].
      * now rewrite get_delete_same in Eg by exact Hk.
      * rewrite get_delete_other in Eg by exact Ng. now apply Ho.
Qed.

Lemma sameTimers_refl m : sameTimers m m.
Proof. now repeat split. Qed.

Lemma sameTimers_trans m1 m2 m3 :
  sameTimers m1 m2 -> sameTimers m2 m3 -> sameTimers m1 m3.
Proof.
  intros (A1 & A2 & A3 & A4) (B1 & B2 & B3 & B4).
  repeat split; congruence.
Qed.

Lemma sameTimers_getGameState g m : sameTimers m (snd (getGameState g m)).
Proof.
  destruct (getGameState_frame g m) as (Ht & Hp & Hn & Hw & _).
  now repeat split.
Qed.

Lemma sameTimers_storeGame g s m : sameTimers m (storeGame g s m).
Proof. now repeat split. Qed.

Lemma sameTimers_emit o m : sameTimers m (emit o m).
Proof. now repeat split. Qed.

Lemma sameTimers_dmPlayers env word ps m :
  sameTimers m (snd (dmPlayers env word ps m)).
Proof.
  destruct (dmPlayers_frame env word ps 0 m) as (_ & Ht & Hp & Hn & Hw & _).
  unfold dmPlayers. now repeat split.
Qed.

Ltac same_chain :=
  repeat
    (first
       [ apply sameTimers_refl
       | match goal with
         | |- sameTimers ?m (snd (getGameState ?g ?x)) =>
             apply (sameTimers_trans m x); [|apply sameTimers_getGameState]
         | |- sameTimers ?m (send ?g ?msg ?x) =>
             apply (sameTimers_trans m x); [|apply sameTimers_emit]
         | |- sameTimers ?m (emit ?o ?x) =>
             apply (sameTimers_trans m x); [|apply sameTimers_emit]
         | |- sameTimers ?m (storeGame ?g ?s ?x) =>
             apply (sameTimers_trans m x); [|apply sameTimers_storeGame]
         | |- sameTimers ?m (snd (dmPlayers ?e ?w ?ps ?x)) =>
             apply (sameTimers_trans m x); [|apply sameTimers_dmPlayers]
         end ]).

Lemma withoutTracked_same g m x :
  sameTimers m x -> withoutTracked g x = withoutTracked g m.
Proof. intros (Et & Ep & _). unfold withoutTracked. now rewrite Et, Ep. Qed.

Lemma effect_same g m m' : sameTimers m m' -> timerEffect g m m'.
Proof. intros (Et & Ep & En & _). now apply teNone. Qed.

Lemma effect_setTimer g cb d m x :
  sameTimers m x -> trackedKind cb = true -> callbackGroup cb = g ->
  timerEffect g m (setTimer g cb d x).
Proof.
  intros S K G. destruct (setTimer_spec g cb d x) as (Et & Ep & _ & En).
  rewrite (withoutTracked_same g m x S) in Ep.
  destruct S as (St & Sp & Sn & Sw). rewrite St, Sn in *.
  now apply (teTracked g _ _ cb (now x + d)).
Qed.

Lemma effect_setTimeout g cb d m x :
  sameTimers m x -> trackedKind cb = false ->
  timerEffect g m (snd (setTimeout cb d x)).
Proof.
  intros (St & Sp & Sn & Sw) K.
  apply (teUntracked g _ _ cb (now x + d)); [exact K | | |];
    unfold setTimeout; cbn [snd timers pending nextHandle set_nextHandle
                            set_pending]; congruence.
Qed.

Lemma effect_clearTimer g m x : sameTimers m x -> timerEffect g m (clearTimer g x).
Proof.
  intros (St & Sp & Sn & Sw). unfold clearTimer. rewrite St.
  destruct (JsMap.get g (timers m)) as [h|] eqn:E.
  - apply teClear; unfold clearTimeout, withoutTracked;
      cbn [timers pending nextHandle set_timers set_pending];
      rewrite ?E; congruence.
  - now apply teNone.
Qed.

Lemma effect_after g m x m' :
  timerEffect g m x -> sameTimers x m' -> timerEffect g m m'.
Proof.
  intros E (St & Sp & Sn & _).
  destruct E as [Et Ep En | cb d K G Et Ep En | cb d K Et Ep En | Et Ep En].
  - apply teNone; congruence.
  - apply (teTracked g _ _ cb d); congruence.
  - apply (teUntracked g _ _ cb d); congruence.
  - apply teClear; congruence.
Qed.

Lemma startGame_effect g env m : timerEffect g m (startGame g env m).
Proof.
  unfold startGame. rewrite (surjective_pairing (getGameState g m)).
  destruct (isGameActive _); [apply effect_same; same_chain|].
  destruct (_ <? 3); [apply effect_same; same_chain|].
  apply effect_setTimer; [same_chain | reflexivity | reflexivity].
Qed.

Lemma cancelGame_effect g m : timerEffect g m (cancelGame g m).
Proof.
  unfold cancelGame. rewrite (surjective_pairing (getGameState g m)).
  destruct (negb _); [apply effect_same; same_chain|].
  apply (effect_after g m (clearTimer g (snd (getGameState g m))));
    [apply effect_clearTimer; same_chain|].
  same_chain.
Qed.

Lemma handleDurationVote_effect g voter d m :
  timerEffect g m (handleDurationVote g voter d m).
Proof.
  unfold handleDurationVote. rewrite (surjective_pairing (getGameState g m)).
  destruct (negb _); apply effect_same; same_chain.
Qed.

Lemma handlePlayerVote_effect g voter votee m :
  timerEffect g m (handlePlayerVote g voter votee m).
Proof.
  unfold handlePlayerVote. rewrite (surjective_pairing (getGameState g m)).
  destruct (negb _); apply effect_same; same_chain.
Qed.

Lemma assignRoles_effect g env m x :
  sameTimers m x -> timerEffect g m (assignRoles g env x).
Proof.
  intros S. unfold assignRoles. rewrite (surjective_pairing (getGameState g x)).
  destruct (_ <? 3);
    [apply effect_same; apply (sameTimers_trans _ x); [exact S | same_chain]|].
  rewrite (surjective_pairing (dmPlayers _ _ _ _)).
  destruct (_ =? 0);
    [apply effect_same; apply (sameTimers_trans _ x); [exact S | same_chain]|].
  apply effect_setTimeout; [|reflexivity].
  apply (sameTimers_trans _ x); [exact S | same_chain].
Qed.

Lemma runCallback_effect cb env m :
  timerEffect (callbackGroup cb) m (runCallback cb env m).
Proof.
  destruct cb as [g|g|g|g|g]; cbn [callbackGroup runCallback].
  - unfold finalizeDurationVote. rewrite (surjective_pairing (getGameState g m)).
    destruct (negb _); [apply effect_same; same_chain|].
    destruct (calculateWinningDuration _); [|apply effect_same; same_chain].
    apply assignRoles_effect. same_chain.
  - unfold selectRandomSpeaker. rewrite (surjective_pairing (getGameState g m)).
    destruct (nth_error _ _); [|apply effect_same; same_chain].
    unfold startDiscussionPhase.
    match goal with
    | |- context [getGameState g ?x] =>
        rewrite (surjective_pairing (getGameState g x))
    end.
    apply effect_setTimer; [same_chain | reflexivity | reflexivity].
  - unfold endDiscussionPhase. rewrite (surjective_pairing (getGameState g m)).
    destruct (negb _); [apply effect_same; same_chain|].
    unfold startVotingPhase.
    match goal with
    | |- context [getGameState g ?x] =>
        rewrite (surjective_pairing (getGameState g x))
    end.
    apply effect_setTimer; [same_chain | reflexivity | reflexivity].
  - unfold finalizeVoting. rewrite (surjective_pairing (getGameState g m)).
    destruct (negb _); [apply effect_same; same_chain|].
    destruct (calculateVoteResults _); [|apply effect_same; same_chain].
    destruct (JsMap.get _ _); [|apply effect_same; same_chain].
    apply effect_setTimeout; [same_chain | reflexivity].
  - unfold resetCallback. rewrite (surjective_pairing (getGameState g m)).
    apply effect_same; same_chain.
Qed.

Lemma timersWF_step m e : timersWF m -> timersWF (step m e).
Proof.
  intros W. destruct e as [g env|g|g voter d|g voter votee|dt|h env];
    cbn [step].
  - exact (timersWF_effect g _ _ W (startGame_effect g env m)).
  - exact (timersWF_effect g _ _ W (cancelGame_effect g m)).
  - exact (timersWF_effect g _ _ W (handleDurationVote_effect g voter d m)).
  - exact (timersWF_effect g _ _ W (handlePlayerVote_effect g voter votee m)).
  - apply (timersWF_effect EmptyString m); [exact W|].
    apply teNone; unfold elapse; now destruct (0 <=? dt)%Z.
  - unfold fire. destruct (findTimeout h m) as [t|]; [|exact W].
    destruct (due t <=? now m)%Z; [|exact W].
    eapply timersWF_effect; [apply timersWF_clearTimeout, W|].
    apply runCallback_effect.
Qed.

Lemma timersWF_run es : forall m, timersWF m -> timersWF (run m es).
Proof.
  induction es as [|e es IH]; intros m W; [exact W|].
  apply IH, timersWF_step, W.
Qed.

Lemma timersWF_reachable m : reachable m -> timersWF m.
Proof. intros (bot & t0 & es & ->). apply timersWF_run, timersWF_new. Qed.

Lemma handle_inj (l : list Timeout) (a b : Timeout) :
  NoDup (map handle l) -> In a l -> In b l -> handle a = handle b -> a = b.
Proof.
  induction l as [|x l IH]; cbn [map]; [intros _ []|].
  intros H Ia Ib E. inversion H as [|? ? Hn Hd]; subst.
  destruct Ia as [->|Ia], Ib as [->|Ib]; auto.
  - elim Hn. rewrite E. now apply in_map.
  - elim Hn. rewrite <- E. now apply in_map.
Qed.

(** X16. The timers stay in order along every run: no handle is armed
    twice, every armed handle was handed out before, a group has at most
    one timeout of the tracked kinds armed (the closing of either poll or
    the end of the discussion), and an armed timeout whose handle a group
    tracks is of such a kind and calls back into that very group. *)
Theorem one_tracked_deadline_per_group (m : GameManager) (R : reachable m) :
  NoDup (map handle (pending m))
  /\ (forall t, In t (pending m) -> handle t < nextHandle m)
  /\ (forall t1 t2, In t1 (pending m) -> In t2 (pending m) ->
        trackedKind (callback t1) = true ->
        trackedKind (callback t2) = true ->
        callbackGroup (callback t1) = callbackGroup (callback t2) ->
        t1 = t2)
  /\ (forall g t, In t (pending m) ->
        JsMap.get g (timers m) = Some (handle t) ->
        trackedKind (callback t) = true /\ callbackGroup (callback t) = g).
Proof.
  pose proof (timersWF_reachable m R) as W.
  split; [apply (tw_nodup _ W)|].
  split; [apply Forall_forall, (tw_issued _ W)|].
  split; [|apply (tw_owner _ W)].
  intros t1 t2 I1 I2 K1 K2 G.
  apply (handle_inj (pending m)); auto; [apply (tw_nodup _ W)|].
  pose proof (tw_single _ W t1 I1 K1) as E1.
  pose proof (tw_single _ W t2 I2 K2) as E2.
  rewrite G in E1. congruence.
Qed.

Lemma one_tracked_deadline_per_group_witness :
  NoDup (map handle (pending twoGroups)).
Proof.
  exact (proj1 (one_tracked_deadline_per_group twoGroups twoGroups_reachable)).
Defined.

Lemma pending_clearAll (hs : list nat) : forall m,
  pending (fold_left (fun acc timer => clearTimeout timer acc) hs m)
  = filter (fun t => negb (existsb (Nat.eqb (handle t)) hs)) (pending m).
Proof.
  induction hs as [|h hs IH]; intros m; cbn [fold_left existsb].
  - cbn [negb]. induction (pending m) as [|a l IHl]; cbn [filter]; congruence.
  - rewrite IH. unfold clearTimeout. cbn [pending set_pending].
    induction (pending m) as [|a l IHl]; cbn [filter]; [reflexivity|].
    destruct (handle a =? h) eqn:E; cbn [negb filter orb].
    + exact IHl.
    + destruct (existsb _ hs); cbn [negb]; [exact IHl | now rewrite IHl].
Qed.

Lemma frame_clearAll (hs : list nat) : forall m,
  games (fold_left (fun acc timer => clearTimeout timer acc) hs m) = games m
  /\ outbox (fold_left (fun acc timer => clearTimeout timer acc) hs m)
     = outbox m
  /\ nextHandle (fold_left (fun acc timer => clearTimeout timer acc) hs m)
     = nextHandle m.
Proof.
  induction hs as [|h hs IH]; intros m; cbn [fold_left]; [auto|].
  destruct (IH (clearTimeout h m)) as (A & B & C). now rewrite A, B, C.
Qed.

Lemma tracked_iff_kind m t :
  timersWF m -> In t (pending m) ->
  In (handle t) (trackedHandles m) <-> trackedKind (callback t) = true.
Proof.
  intros W I. unfold trackedHandles, JsMap.values. split.
  - intros H. apply in_map_iff in H as ([g h] & E & Ie). cbn [snd] in E.
    subst h. apply In_get in Ie; [|apply (tw_keys _ W)].
    now destruct (tw_owner _ W g t I Ie).
  - intros K. pose proof (tw_single _ W t I K) as E. apply get_In in E.
    apply in_map_iff. now exists (callbackGroup (callback t), handle t).
Qed.

(** X17. [shutdown] forgets every tracked handle and disarms exactly the
    timeouts of the tracked kinds: in a state the manager can reach, a
    timeout is still armed afterwards if and only if it was armed before
    and is a speaker selection or a reset, which were armed outside
    [setTimer].  Sessions and messages are left as they are. *)
Theorem shutdown_disarms_tracked_timeouts_only (m : GameManager)
    (R : reachable m) :
  timers (shutdown m) = JsMap.empty
  /\ (forall t, In t (pending (shutdown m))
        <-> In t (pending m) /\ trackedKind (callback t) = false)
  /\ games (shutdown m) = games m
  /\ outbox (shutdown m) = outbox m.
Proof.
  pose proof (timersWF_reachable m R) as W.
  unfold shutdown. cbn [timers pending games outbox set_timers].
  destruct (frame_clearAll (JsMap.values (timers m)) m) as (Eg & Eo & _).
  split; [reflexivity|]. split; [|now split].
  intros t. rewrite pending_clearAll, filter_In.
  split; intros [I H]; split; auto.
  - destruct (trackedKind (callback t)) eqn:K; [|reflexivity].
    apply (tracked_iff_kind m t W I) in K.
    assert (X : existsb (Nat.eqb (handle t)) (JsMap.values (timers m)) = true).
    { apply existsb_exists. exists (handle t). split; [exact K|].
      apply Nat.eqb_refl. }
    now rewrite X in H.
  - destruct (existsb _ _) eqn:X; [|reflexivity].
    apply existsb_exists in X as (h & Ih & Eh). apply Nat.eqb_eq in Eh.
    subst h. apply (tracked_iff_kind m t W I) in Ih. congruence.
Qed.

Lemma shutdown_disarms_tracked_timeouts_only_witness :
  timers (shutdown rolesDealt) = JsMap.empty
  /\ pending (shutdown rolesDealt) <> [].
Proof.
  assert (R : reachable rolesDealt).
  { exists "bot"%string, 0%Z. eexists. reflexivity. }
  destruct (shutdown_disarms_tracked_timeouts_only rolesDealt R)
    as (Et & Hp & _).
  split; [exact Et|].
  assert (I : In (mkTimeout 1 62000 (cbSelectRandomSpeaker "g"))
                 (pending (shutdown rolesDealt))).
  { apply Hp. split; [|reflexivity]. vm_compute. now left. }
  intros E. rewrite E in I. exact I.
Defined.

(** X18. Cancelling a running game disarms its tracked deadline for good:
    afterwards the group tracks no handle, and a timeout that is still
    armed for the group can only be a speaker selection or a reset. *)
Theorem cancelGame_disarms_the_tracked_deadline (m : GameManager) (g : string)
    (R : reachable m) (A : isGameActive (session g m) = true) :
  JsMap.get g (timers (cancelGame g m)) = None
  /\ forall t, In t (pending (cancelGame g m)) ->
       callbackGroup (callback t) = g -> trackedKind (callback t) = false.
Proof.
  pose proof (timersWF_reachable m R) as W.
  destruct (cancelGame_active g m A) as (_ & _ & Ep & _).
  split.
  - unfold cancelGame. rewrite (surjective_pairing (getGameState g m)).
    change (fst (getGameState g m)) with (session g m). rewrite A.
    cbn [negb send emit storeGame set_games timers].
    destruct (getGameState_frame g m) as (Ht & _).
    unfold clearTimer. rewrite Ht.
    destruct (JsMap.get g (timers m)) eqn:E.
    + cbn [timers set_timers clearTimeout set_pending]. rewrite Ht.
      apply get_delete_same, (tw_keys _ W).
    + now rewrite Ht.
  - intros t I G. rewrite Ep in I. apply In_withoutTracked in I as [I N].
    destruct (trackedKind (callback t)) eqn:K; [|reflexivity].
    elim N. rewrite <- G. now apply (tw_single _ W).
Qed.

Lemma cancelGame_disarms_the_tracked_deadline_witness :
  JsMap.get "g"%string (timers (cancelGame "g" votingWithVotes)) = None.
Proof.
  refine (proj1 (cancelGame_disarms_the_tracked_deadline votingWithVotes "g"
                   votingWithVotes_reachable _)).
  computes.
Defined.



(* ================================================================== *)
(** ** Majorities                                                       *)
(* ================================================================== *)

Section MajorityFacts.
Context {K : Type} `{EqKey K}.

Lemma occ_le_length (k : K) ks : occ k ks <= List.length ks.
Proof.
  induction ks as [|x r IH]; cbn [occ List.length]; [lia|].
  destruct (keqb x k); lia.
Qed.

Lemma occ_two (k w : K) ks :
  k <> w -> occ k ks + occ w ks <= List.length ks.
Proof.
  intros N. induction ks as [|x r IH]; cbn [occ List.length]; [lia|].
  destruct (keqb x k) eqn:Ek, (keqb x w) eqn:Ew; try lia.
  apply keqb_eq in Ek, Ew. congruence.
Qed.

Lemma pluralityFirst_majority (k w : K) ks :
  pluralityFirst w ks -> List.length ks < 2 * occ k ks -> w = k.
Proof.
  intros (_ & Hmax & _) M.
  destruct (keqb w k) eqn:E; [now apply keqb_eq in E|].
  apply keqb_neq in E. specialize (Hmax k).
  assert (k <> w) as N by congruence.
  pose proof (occ_two k w ks N). lia.
Qed.
End MajorityFacts.

(** X20. A strict majority decides both polls.  A duration chosen by more
    than half of the duration votes is the winning duration, and a
    non-empty identifier accused by more than half of the voters is the one
    voted out, with its exact number of votes.  Whatever the votes, a
    reported result names an identifier that somebody accused and carries
    between one vote and as many votes as there are voters. *)
Theorem strict_majority_decides (s : GameState) :
  (forall d,
     List.length (durationVotes s)
     < 2 * occ d (map duration (durationVotes s)) ->
     calculateWinningDuration s = Some d)
  /\ (forall id,
        id <> EmptyString ->
        JsMap.size (votes s) < 2 * occ id (JsMap.values (votes s)) ->
        calculateVoteResults s
        = Some (mkVoteResults id (occ id (JsMap.values (votes s)))))
  /\ (forall r,
        calculateVoteResults s = Some r ->
        1 <= voteCount r <= JsMap.size (votes s)
        /\ In (votedOut r) (JsMap.values (votes s))
        /\ votedOut r <> EmptyString).
Proof.
  assert (Hsize : JsMap.size (votes s) = List.length (JsMap.values (votes s))).
  { unfold JsMap.size, JsMap.values. now rewrite length_map. }
  repeat apply conj.
  - intros d M.
    assert (NE : durationVotes s <> []).
    { intros E. rewrite E in M. cbn in M. lia. }
    destruct (calculateWinningDuration_pluralityFirst s NE) as (w & E & P).
    rewrite E. f_equal. apply (pluralityFirst_majority d w _ P).
    now rewrite length_map.
  - intros id Nid M.
    assert (NE : votes s <> []).
    { intros E. rewrite E in M. cbn in M. lia. }
    destruct (calculateVoteResults_pluralityFirst s NE) as (w & P & E).
    rewrite Hsize in M.
    pose proof (pluralityFirst_majority id w _ P M) as ->.
    rewrite E. apply String.eqb_neq in Nid. now rewrite Nid.
  - intros r E.
    pose proof E as E0.
    apply calculateVoteResults_Some in E as (NE & (Iw & Hmax & _) & Ec).
    rewrite Ec, Hsize. repeat split.
    + now apply occ_pos_In.
    + apply occ_le_length.
    + exact Iw.
    + intros Z. destruct (calculateVoteResults_pluralityFirst s NE)
        as (w & P & E').
      rewrite E' in E0. destruct (String.eqb w EmptyString) eqn:Ew;
        [discriminate|].
      apply String.eqb_neq in Ew. injection E0 as E0.
      rewrite <- E0 in Z. cbn [votedOut] in Z. contradiction.
Qed.

Lemma strict_majority_decides_witness :
  calculateWinningDuration sampleVotes = Some D5
  /\ calculateVoteResults sampleVotes = Some (mkVoteResults "B" 2)
  /\ voteCount (mkVoteResults "B" 2) <= JsMap.size (votes sampleVotes).
Proof.
  destruct (strict_majority_decides sampleVotes) as (Hd & Hv & Hr).
  split; [apply Hd; vm_compute; lia|].
  split.
  - replace 2 with (occ "B"%string (JsMap.values (votes sampleVotes)))
      by computes.
    apply Hv; [discriminate | vm_compute; lia].
  - apply (Hr (mkVoteResults "B" 2)). computes.
Defined.

Lemma finalizeVoting_majority (g : string) (env : Env)
    (m : GameManager) (id : string) (p : Player)
    (St : status (session g m) = voting)
    (Hp : JsMap.get id (players (session g m)) = Some p)
    (Nid : id <> EmptyString)
    (M : JsMap.size (votes (session g m))
         < 2 * occ id (JsMap.values (votes (session g m)))) :
  let s' := session g (finalizeVoting g env m) in
  status s' = ended
  /\ votedOutInboxId s' = Some id
  /\ winner s'
     = Some (if option_eq_dec_string (imposterInboxId (session g m)) (Some id)
             then group else imposter)
  /\ players s' = players (session g m)
  /\ votes s' = votes (session g m).
Proof.
  cbv zeta. rewrite finalizeVoting_session, St. cbn [GameStatus_eqb].
  assert (NE : votes (session g m) <> []).
  { intros E. rewrite E in M. cbn in M. lia. }
  assert (Hsize : JsMap.size (votes (session g m))
                  = List.length (JsMap.values (votes (session g m)))).
  { unfold JsMap.size, JsMap.values. now rewrite length_map. }
  destruct (calculateVoteResults_pluralityFirst _ NE) as (w & P & E).
  rewrite Hsize in M.
  pose proof (pluralityFirst_majority id w _ P M) as ->.
  apply String.eqb_neq in Nid. rewrite Nid in E. rewrite E.
  cbn [votedOut]. rewrite Hp.
  unfold endedSession. cbn [status votedOutInboxId winner players votes
    set_status set_winner set_votedOutInboxId votedOut].
  repeat split. f_equal.
  destruct (option_eq_dec_string _ _) as [Ei|Ni].
  - now apply determineWinner_group.
  - destruct (determineWinner (session g m) id) eqn:D; try reflexivity.
    apply determineWinner_group in D. contradiction.
Qed.

(** X21. When more than half of the voters accuse one player, the
    accusation poll ends with that player voted out, and the group wins
    exactly when that player is the imposter. *)
Theorem majority_accusation_ends_the_game (g : string) (env : Env)
    (m : GameManager) (id : string) (p : Player)
    (St : status (session g m) = voting)
    (Hp : JsMap.get id (players (session g m)) = Some p)
    (Nid : id <> EmptyString)
    (M : JsMap.size (votes (session g m))
         < 2 * occ id (JsMap.values (votes (session g m)))) :
  let s' := session g (finalizeVoting g env m) in
  status s' = ended
  /\ votedOutInboxId s' = Some id
  /\ winner s'
     = Some (if option_eq_dec_string (imposterInboxId (session g m)) (Some id)
             then group else imposter)
  /\ players s' = players (session g m)
  /\ votes s' = votes (session g m).
Proof.
  exact (finalizeVoting_majority g env m id p St Hp Nid M).
Qed.

Lemma majority_accusation_ends_the_game_witness :
  status (session "g" (finalizeVoting "g" sampleEnv votingWithVotes)) = ended
  /\ votedOutInboxId (session "g" (finalizeVoting "g" sampleEnv votingWithVotes))
     = Some "P2"%string.
Proof.
  assert (Hp : exists p, JsMap.get "P2"%string
                 (players (session "g" votingWithVotes)) = Some p).
  { eexists. computes. }
  destruct Hp as [p Hp].
  destruct (majority_accusation_ends_the_game "g" sampleEnv votingWithVotes
              "P2" p) as (A & B & _).
  - computes.
  - exact Hp.
  - discriminate.
  - vm_compute. lia.
  - split; [exact A | exact B].
Defined.

(* ================================================================== *)
(** ** The message handlers                                             *)
(* ================================================================== *)

Lemma reachable_step m e : reachable m -> reachable (step m e).
Proof.
  intros (bot & t0 & es & ->). exists bot, t0, (es ++ [e]).
  unfold run. now rewrite fold_left_app.
Qed.

Lemma handleNumberResponse_event g number sender m :
  handleNumberResponse g number sender m = m
  \/ exists e, isCommandEvent g e
               /\ handleNumberResponse g number sender m = step m e.
Proof.
  unfold handleNumberResponse. destruct (getGameStatus g m) as [s|]; [|now left].
  destruct (GameStatus_eqb (status s) voting_duration).
  - right. now exists (evDurationVote g sender (durationMap number)).
  - destruct (GameStatus_eqb (status s) voting); [|now left].
    destruct (nth_error _ _) as [p|]; [|now left].
    right. now exists (evPlayerVote g sender (inboxId p)).
Qed.

Lemma handleTextMessage_event g env content sender m :
  (fst (handleTextMessage g env content sender m) = m
   \/ exists e, isCommandEvent g e
                /\ fst (handleTextMessage g env content sender m) = step m e)
  /\ (snd (handleTextMessage g env content sender m) <> None ->
      fst (handleTextMessage g env content sender m) = m).
Proof.
  unfold handleTextMessage.
  destruct (isCommand _ "/imposter start" "/start").
  { split; [right; now exists (evStartGame g env) | intros N; now elim N]. }
  destruct (isCommand _ "/imposter cancel" "/cancel").
  { split; [right; now exists (evCancelGame g) | intros N; now elim N]. }
  destruct (isCommand _ "/imposter help" "/help"); [split; auto|].
  destruct (isCommand _ "/imposter status" "/status"); [split; auto|].
  destruct (digitOf _) as [d|]; [|split; auto].
  split; [apply handleNumberResponse_event | intros N; now elim N].
Qed.

Lemma handleIntentMessage_event parseInt g id actionId voter m :
  handleIntentMessage parseInt g id actionId voter m = m
  \/ exists e, isCommandEvent g e
               /\ handleIntentMessage parseInt g id actionId voter m = step m e.
Proof.
  unfold handleIntentMessage. destruct (getGameStatus g m); [|now left].
  destruct (String.prefix "duration-" id).
  - destruct (parseInt actionId) as [z|]; [|now left].
    destruct (durationOf z) as [d|]; [|now left].
    right. now exists (evDurationVote g voter d).
  - destruct (String.prefix "voting-" id); [|now left].
    right. now exists (evPlayerVote g voter actionId).
Qed.

(** X22. Chat messages reach the game through the manager only.  A text
    message or a button intent either leaves the manager as it is or acts
    as exactly one start, cancel, duration-vote or accusation event of its
    own group; a text message that is answered by the handler itself (help,
    status) changes nothing.  Hence every state reached with messages is a
    state reached with events, and all that holds along a run holds after
    any message. *)
Theorem messages_act_through_the_manager (parseInt : string -> option Z)
    (g : string) (env : Env) (content sender id actionId : string)
    (m : GameManager) :
  (fst (handleTextMessage g env content sender m) = m
   \/ exists e, isCommandEvent g e
                /\ fst (handleTextMessage g env content sender m) = step m e)
  /\ (snd (handleTextMessage g env content sender m) <> None ->
      fst (handleTextMessage g env content sender m) = m)
  /\ (handleIntentMessage parseInt g id actionId sender m = m
      \/ exists e, isCommandEvent g e
                   /\ handleIntentMessage parseInt g id actionId sender m
                      = step m e)
  /\ (reachable m ->
      reachable (fst (handleTextMessage g env content sender m))
      /\ reachable (handleIntentMessage parseInt g id actionId sender m)).
Proof.
  destruct (handleTextMessage_event g env content sender m) as [Ht Hr].
  pose proof (handleIntentMessage_event parseInt g id actionId sender m) as Hi.
  split; [exact Ht|]. split; [exact Hr|]. split; [exact Hi|].
  intros R. split.
  - destruct Ht as [->|(e & _ & ->)]; [auto | now apply reachable_step].
  - destruct Hi as [->|(e & _ & ->)]; [auto | now apply reachable_step].
Qed.

Lemma messages_act_through_the_manager_witness :
  reachable (fst (handleTextMessage "g" sampleEnv " /Start " "P1"
                    votingWithVotes))
  /\ reachable (handleIntentMessage (fun _ => Some 7%Z) "g" "duration-1" "7"
                  "P1" votingWithVotes).
Proof.
  destruct (messages_act_through_the_manager (fun _ => Some 7%Z) "g" sampleEnv
              " /Start " "P1" "duration-1" "7" votingWithVotes)
    as (_ & _ & _ & H).
  exact (H votingWithVotes_reachable).
Defined.

Lemma digitOf_Some command d :
  digitOf command = Some d ->
  (command = "1"%string /\ d = one) \/ (command = "2"%string /\ d = two)
  \/ (command = "3"%string /\ d = three).
Proof.
  unfold digitOf.
  destruct (String.eqb_spec command "1") as [->|_];
    [intros [= <-]; now left|].
  destruct (String.eqb_spec command "2") as [->|_];
    [intros [= <-]; right; now left|].
  destruct (String.eqb_spec command "3") as [->|_];
    [intros [= <-]; right; now right | discriminate].
Qed.

Lemma getGameStatus_session g m s :
  getGameStatus g m = Some s -> session g m = s.
Proof. apply session_present. Qed.

Lemma getGameStatus_None g m :
  getGameStatus g m = None -> session g m = createGameState g.
Proof. apply session_created. Qed.

(** X23. A reply of 1, 2 or 3 is a fallback for the poll buttons.  During
    the duration poll it records the sender's vote for 5, 7 or 10 minutes;
    during the accusation poll it records an accusation of the first,
    second or third player in joining order, and does nothing if there is
    no such player; in every other phase, and for a group the manager has
    no session for, the manager is left exactly as it is.  The handler
    itself sends nothing. *)
Theorem digit_reply_votes_like_the_poll (g : string) (env : Env)
    (content sender : string) (m : GameManager) (number : Digit)
    (R : reachable m)
    (D : digitOf (trim (toLowerCase content)) = Some number) :
  let m' := fst (handleTextMessage g env content sender m) in
  snd (handleTextMessage g env content sender m) = None
  /\ (status (session g m) = voting_duration ->
      session g m'
      = recordDurationVote (session g m) sender (durationMap number))
  /\ (status (session g m) = voting ->
      match nth_error (JsMap.keys (players (session g m)))
                      (playerIndex number) with
      | Some accused => session g m' = recordVote (session g m) sender accused
      | None => m' = m
      end)
  /\ (status (session g m) <> voting_duration ->
      status (session g m) <> voting -> m' = m).
Proof.
  cbv zeta. pose proof (sessionWF_reachable m g R) as W.
  assert (E : handleTextMessage g env content sender m
              = (handleNumberResponse g number sender m, None)).
  { unfold handleTextMessage. rewrite D.
    destruct (digitOf_Some _ _ D) as [[-> _]|[[-> _]|[-> _]]]; reflexivity. }
  rewrite E. cbn [fst snd]. split; [reflexivity|].
  unfold handleNumberResponse.
  destruct (getGameStatus g m) as [s|] eqn:G.
  - pose proof (getGameStatus_session g m s G) as Es. rewrite Es in *.
    repeat apply conj; intros St.
    + rewrite St. cbn [GameStatus_eqb].
      now rewrite handleDurationVote_session, Es, St.
    + rewrite St. cbn [GameStatus_eqb].
      rewrite <- (values_keys_ids s (wf_playerIds s W)), nth_error_map.
      destruct (nth_error (JsMap.values (players s)) (playerIndex number))
        as [p|]; cbn [option_map]; [|reflexivity].
      now rewrite handlePlayerVote_session, Es, St.
    + intros Sv. destruct (status s); try reflexivity; congruence.
  - pose proof (getGameStatus_None g m G) as Es. rewrite Es.
    repeat apply conj; try discriminate. reflexivity.
Qed.

Lemma digit_reply_votes_like_the_poll_witness :
  session "g" (fst (handleTextMessage "g" sampleEnv " 2 " "P3" votingWithVotes))
  = recordVote (session "g" votingWithVotes) "P3" "P2".
Proof.
  assert (D : digitOf (trim (toLowerCase " 2 ")) = Some two) by reflexivity.
  destruct (digit_reply_votes_like_the_poll "g" sampleEnv " 2 " "P3"
              votingWithVotes two votingWithVotes_reachable D)
    as (_ & _ & V & _).
  assert (St : status (session "g" votingWithVotes) = voting) by computes.
  specialize (V St).
  replace (nth_error (JsMap.keys (players (session "g" votingWithVotes)))
                     (playerIndex two))
    with (Some "P2"%string) in V by computes.
  exact V.
Defined.

(** X24. The status command during a discussion.  For a stored session in
    the discussion phase the report gives minutes and seconds, the seconds
    between 0 and 59, that add up to the whole seconds from the present
    instant to the stored [discussionEndTime]: 0:00 once that instant has
    passed or when none is stored, and otherwise the time left rounded down
    to the second.  The reported player count is the size of the player
    map. *)
Theorem status_report_counts_down (m : GameManager) (g : string)
    (s : GameState) (G : getGameStatus g m = Some s)
    (St : status s = discussion) :
  exists mm ss,
    handleStatusCommand g m = StDiscussion mm ss (JsMap.size (players s))
    /\ (0 <= ss < 60)%Z /\ (0 <= mm)%Z
    /\ match discussionEndTime s with
       | Some e =>
           (mm * 60 + ss = Z.max 0 ((e - now m) / 1000))%Z
           /\ (e <= now m -> mm = 0 /\ ss = 0)%Z
           /\ (now m <= e ->
               1000 * (mm * 60 + ss) <= e - now m
               < 1000 * (mm * 60 + ss) + 1000)%Z
       | None => (mm = 0 /\ ss = 0)%Z
       end.
Proof.
  set (tl := timeLeft s (now m)).
  assert (Hpos : (0 <= tl)%Z).
  { unfold tl, timeLeft. destruct (discussionEndTime s); lia. }
  exists (tl / 60)%Z, (Z.rem tl 60).
  rewrite Z.rem_mod_nonneg by lia.
  pose proof (Z.mod_pos_bound tl 60 ltac:(lia)) as Hb.
  pose proof (Z.div_mod tl 60 ltac:(lia)) as Hd.
  pose proof (Z.div_pos tl 60 Hpos ltac:(lia)) as Hq.
  split.
  - unfold handleStatusCommand. rewrite G, St. fold tl.
    now rewrite Z.rem_mod_nonneg by lia.
  - split; [lia|]. split; [lia|].
    unfold tl, timeLeft in *. destruct (discussionEndTime s) as [e|].
    + pose proof (Z.div_mod (e - now m) 1000 ltac:(lia)) as Hd1.
      pose proof (Z.mod_pos_bound (e - now m) 1000 ltac:(lia)) as Hb1.
      split; [lia|]. split; intros L.
      * assert (E0 : Z.max 0 ((e - now m) / 1000) = 0%Z) by lia.
        rewrite E0. split; reflexivity.
      * lia.
    + split; reflexivity.
Qed.

Lemma status_report_counts_down_witness :
  exists mm ss,
    handleStatusCommand "g" inDiscussion
    = StDiscussion mm ss (JsMap.size (players (session "g" inDiscussion)))
    /\ (0 <= ss < 60)%Z /\ (0 <= mm)%Z.
Proof.
  assert (G : getGameStatus "g" inDiscussion
              = Some (session "g" inDiscussion)) by computes.
  assert (St : status (session "g" inDiscussion) = discussion) by computes.
  destruct (status_report_counts_down inDiscussion "g" _ G St)
    as (mm & ss & H & Hs & Hm & _).
  exists mm, ss. split; [exact H|]. split; [exact Hs | exact Hm].
Defined.

(* ================================================================== *)
(** ** The word list                                                    *)
(* ================================================================== *)

Lemma isValidWord_In word : isValidWord word = true <-> In word WORD_LIST.
Proof.
  unfold isValidWord. rewrite existsb_exists. split.
  - intros (x & I & E). apply String.eqb_eq in E. now subst.
  - intros I. exists word. split; [exact I | apply String.eqb_refl].
Qed.

Lemma WORD_LIST_length : List.length WORD_LIST = 120.
Proof. computes. Qed.

Lemma WORD_LIST_repeats : ~ NoDup WORD_LIST.
Proof.
  intros H.
  assert (E : 45 = 55); [|discriminate E].
  apply (proj1 (NoDup_nth WORD_LIST EmptyString) H);
    [rewrite WORD_LIST_length; lia | rewrite WORD_LIST_length; lia | computes].
Qed.

Lemma sliceTo_incl {A : Type} (l : list A) e x : In x (sliceTo l e) -> In x l.
Proof.
  unfold sliceTo. cbv zeta. set (k := Z.to_nat _). intros I.
  rewrite <- (firstn_skipn k l). apply in_or_app. left. exact I.
Qed.

Lemma sliceTo_length {A : Type} (l : list A) e :
  List.length (sliceTo l e)
  = Z.to_nat (if (e <? 0)%Z then Z.max (Z.of_nat (List.length l) + e) 0
              else Z.min e (Z.of_nat (List.length l))).
Proof.
  unfold sliceTo. rewrite length_firstn.
  destruct (Z.ltb_spec e 0); lia.
Qed.

(** X25. Drawing from the word list.  [getRandomWord] always yields a word
    of the list.  [getRandomWords], whatever rearrangement the shuffle
    produced, yields words of the list only: the first [count] of them for
    a count from 0 to 120, all 120 for a larger count, and for a negative
    count all but the last [-count].  The words need not be distinct: the
    list repeats three of its entries, so asking for 120 or more words
    always returns a repeated word. *)
Theorem word_draws_stay_in_the_list :
  (forall r, exists word,
      getRandomWord r = Some word /\ isValidWord word = true)
  /\ (forall shuffled count,
        Permutation WORD_LIST shuffled ->
        (forall word, In word (getRandomWords shuffled count) ->
                      isValidWord word = true)
        /\ (0 <= count ->
            List.length (getRandomWords shuffled count)
            = Z.to_nat (Z.min count 120))%Z
        /\ (count < 0 ->
            List.length (getRandomWords shuffled count)
            = Z.to_nat (Z.max (120 + count) 0))%Z
        /\ (120 <= count ->
            ~ NoDup (getRandomWords shuffled count))%Z).
Proof.
  split.
  - intros r. unfold getRandomWord.
    assert (L : randomIndex r (List.length WORD_LIST) < List.length WORD_LIST).
    { apply randomIndex_lt. rewrite WORD_LIST_length. lia. }
    destruct (nth_error WORD_LIST _) as [w|] eqn:E;
      [|apply nth_error_None in E; lia].
    exists w. split; [reflexivity|].
    apply isValidWord_In. eapply nth_error_In, E.
  - intros shuffled count P.
    pose proof (Permutation_length P) as Len. rewrite WORD_LIST_length in Len.
    unfold getRandomWords. rewrite WORD_LIST_length.
    repeat apply conj.
    + intros w I. apply sliceTo_incl in I. apply isValidWord_In.
      apply (Permutation_in w (Permutation_sym P) I).
    + intros C. rewrite sliceTo_length, <- Len.
      destruct (Z.ltb_spec (Z.min count (Z.of_nat 120)) 0); lia.
    + intros C. rewrite sliceTo_length, <- Len.
      destruct (Z.ltb_spec (Z.min count (Z.of_nat 120)) 0); lia.
    + intros C N. apply WORD_LIST_repeats.
      apply (Permutation_NoDup (Permutation_sym P)).
      replace shuffled with (sliceTo shuffled (Z.min count (Z.of_nat 120)));
        [exact N|].
      unfold sliceTo. rewrite <- Len.
      destruct (Z.ltb_spec (Z.min count (Z.of_nat 120)) 0); [lia|].
      replace (Z.to_nat _) with (List.length shuffled) by lia.
      apply firstn_all.
Qed.

Lemma word_draws_stay_in_the_list_witness :
  List.length (getRandomWords WORD_LIST (-1)) = 119
  /\ ~ NoDup (getRandomWords WORD_LIST 120).
Proof.
  destruct (proj2 word_draws_stay_in_the_list WORD_LIST (-1)%Z
              (Permutation_refl _)) as (_ & _ & Hn & _).
  destruct (proj2 word_draws_stay_in_the_list WORD_LIST 120%Z
              (Permutation_refl _)) as (_ & _ & _ & Hd).
  split; [rewrite Hn by lia; reflexivity | apply Hd; lia].
Defined.

(* ================================================================== *)
(** ** Poll contents                                                    *)
(* ================================================================== *)

Lemma isEmpty_false s : isEmpty s = false <-> s <> EmptyString.
Proof. apply String.eqb_neq. Qed.

Lemma checkOptions_None os : forall index,
  checkOptions os index = None
  <-> forall o, In o os -> option_id o <> EmptyString /\ label o <> EmptyString.
Proof.
  induction os as [|o os IH]; intros index; cbn [checkOptions].
  - split; [intros _ o [] | reflexivity].
  - destruct (isEmpty (option_id o)) eqn:Ei.
    + split; [discriminate|]. intros H.
      destruct (H o (or_introl eq_refl)) as [N _].
      apply isEmpty_false in N. congruence.
    + destruct (isEmpty (label o)) eqn:El.
      * split; [discriminate|]. intros H.
        destruct (H o (or_introl eq_refl)) as [_ N].
        apply isEmpty_false in N. congruence.
      * rewrite IH. apply isEmpty_false in Ei, El. split.
        -- intros H o' [<-|I]; auto.
        -- intros H o' I. apply H. now right.
Qed.

Lemma nodup_length_NoDup (l : list string) :
  List.length l = List.length (nodup string_dec l) <-> NoDup l.
Proof.
  split.
  - induction l as [|a l IH]; cbn [nodup List.length]; [constructor|].
    destruct (in_dec string_dec a l) as [I|N]; cbn [List.length].
    + intros E.
      assert (Hle : List.length (nodup string_dec l) <= List.length l).
      { apply NoDup_incl_length; [apply NoDup_nodup|].
        intros x Ix. now apply nodup_In in Ix. }
      lia.
    + intros E. constructor; [exact N | apply IH; lia].
  - intros H. now rewrite nodup_fixed_point.
Qed.

(** X26. [validateContent] accepts a poll exactly when its id and its
    question are non-empty, it has between one and ten options, every
    option has a non-empty id and a non-empty label, no two options share
    an id, and a non-empty expiry passes the timestamp check. *)
Theorem validateContent_accepts_exactly (isValidISO8601 : string -> bool)
    (content : PollContent) :
  validateContent isValidISO8601 content = None
  <-> poll_id content <> EmptyString
      /\ question content <> EmptyString
      /\ 1 <= List.length (options content) <= 10
      /\ (forall o, In o (options content) ->
            option_id o <> EmptyString /\ label o <> EmptyString)
      /\ NoDup (map option_id (options content))
      /\ (forall timestamp, expiresAt content = Some timestamp ->
            timestamp <> EmptyString -> isValidISO8601 timestamp = true).
Proof.
  unfold validateContent, distinctCount.
  destruct (isEmpty (poll_id content)) eqn:Ei.
  { split; [discriminate|]. intros (N & _). apply isEmpty_false in N.
    congruence. }
  destruct (isEmpty (question content)) eqn:Eq.
  { split; [discriminate|]. intros (_ & N & _). apply isEmpty_false in N.
    congruence. }
  apply isEmpty_false in Ei, Eq.
  destruct (Nat.eqb_spec (List.length (options content)) 0) as [L0|L0].
  { split; [discriminate|]. intros (_ & _ & L & _). lia. }
  destruct (Nat.ltb_spec 10 (List.length (options content))) as [L1|L1].
  { split; [discriminate|]. intros (_ & _ & L & _). lia. }
  destruct (checkOptions (options content) 0) as [e|] eqn:C.
  { split; [discriminate|]. intros (_ & _ & _ & H & _).
    apply (proj2 (checkOptions_None (options content) 0)) in H.
    rewrite H in C. discriminate. }
  pose proof (proj1 (checkOptions_None _ _) C) as Ho.
  destruct (Nat.eqb_spec (List.length (map option_id (options content)))
              (List.length (nodup string_dec
                              (map option_id (options content))))) as [U|U];
    cbn [negb].
  - apply nodup_length_NoDup in U.
    destruct (expiresAt content) as [ts|].
    + destruct (isEmpty ts) eqn:Et; cbn [negb andb].
      * split; [|reflexivity]. intros _.
        split; [exact Ei|]. split; [exact Eq|]. split; [lia|].
        split; [exact Ho|]. split; [exact U|].
        intros ts' [= <-] N. apply isEmpty_false in N. congruence.
      * destruct (isValidISO8601 ts) eqn:V; cbn [negb].
        -- split; [|reflexivity]. intros _.
           split; [exact Ei|]. split; [exact Eq|]. split; [lia|].
           split; [exact Ho|]. split; [exact U|].
           now intros ts' [= <-] _.
        -- split; [discriminate|]. intros (_ & _ & _ & _ & _ & H).
           apply isEmpty_false in Et. specialize (H ts eq_refl Et).
           congruence.
    + split; [|reflexivity]. intros _.
      split; [exact Ei|]. split; [exact Eq|]. split; [lia|].
      split; [exact Ho|]. split; [exact U|]. discriminate.
  - split; [discriminate|]. intros (_ & _ & _ & _ & H & _).
    apply nodup_length_NoDup in H. contradiction.
Qed.

Lemma validateContent_accepts_exactly_witness :
  validateContent (fun _ => false)
    (createPoll "duration-1" "How long?"
       [mkPollOption "5" "5 min"; mkPollOption "7" "7 min"]) = None.
Proof.
  apply (proj2 (validateContent_accepts_exactly (fun _ => false) _)).
  cbn. split; [discriminate|]. split; [discriminate|]. split; [lia|].
  split; [|split; [|discriminate]].
  - intros o [<-|[<-|[]]]; split; discriminate.
  - repeat constructor; cbn; intuition discriminate.
Defined.

(* ================================================================== *)
(** ** Names                                                            *)
(* ================================================================== *)

Lemma length_substring n m s :
  n + m <= String.length s -> String.length (String.substring n m s) = m.
Proof.
  revert n m. induction s as [|c s IH]; intros n m; cbn [String.length].
  - intros L. assert (n = 0) by lia. assert (m = 0) by lia. now subst.
  - destruct n as [|n]; destruct m as [|m]; cbn [String.substring String.length];
      intros L; try reflexivity.
    + f_equal. apply IH. lia.
    + apply IH. lia.
    + apply IH. lia.
Qed.

Lemma length_append (a b : string) :
  String.length (a ++ b) = String.length a + String.length b.
Proof. induction a as [|c a IH]; cbn; [reflexivity | now rewrite IH]. Qed.

Lemma substring_0_append (p r : string) :
  String.substring 0 (String.length p) (p ++ r) = p.
Proof.
  induction p as [|c p IH]; cbn [String.length String.append String.substring].
  - now destruct r.
  - now rewrite IH.
Qed.

Lemma substring_0_length (p : string) :
  String.substring 0 (String.length p) p = p.
Proof.
  induction p as [|c p IH]; cbn [String.length String.substring];
    [reflexivity | now rewrite IH].
Qed.

Lemma substring_skip_append (p r : string) n m :
  String.substring (String.length p + n) m (p ++ r) = String.substring n m r.
Proof.
  induction p as [|c p IH]; cbn [String.length String.append Nat.add];
    [reflexivity|].
  cbn [String.substring]. exact IH.
Qed.

Lemma shortenAddress_long address :
  10 <= String.length address ->
  exists p q,
    String.length p = 6 /\ String.length q = 4
    /\ p = String.substring 0 6 address
    /\ q = String.substring (String.length address - 4) 4 address
    /\ shortenAddress address = (p ++ "..." ++ q)%string.
Proof.
  intros L. exists (String.substring 0 6 address),
    (String.substring (String.length address - 4) 4 address).
  repeat split; try (apply length_substring; lia).
  unfold shortenAddress. destruct (Nat.ltb_spec (String.length address) 10);
    [lia | reflexivity].
Qed.

(** X27. [shortenAddress] leaves an address of fewer than ten characters
    alone and turns a longer one into thirteen characters: its first six,
    three dots, its last four.  Shortening twice is the same as shortening
    once. *)
Theorem shortenAddress_is_idempotent (address : string) :
  (String.length address < 10 -> shortenAddress address = address)
  /\ (10 <= String.length address ->
      String.length (shortenAddress address) = 13
      /\ String.substring 0 6 (shortenAddress address)
         = String.substring 0 6 address
      /\ String.substring 6 3 (shortenAddress address) = "..."%string
      /\ String.substring 9 4 (shortenAddress address)
         = String.substring (String.length address - 4) 4 address)
  /\ shortenAddress (shortenAddress address) = shortenAddress address.
Proof.
  assert (Hs : String.length address < 10 -> shortenAddress address = address).
  { intros L. unfold shortenAddress.
    destruct (Nat.ltb_spec (String.length address) 10); [reflexivity | lia]. }
  assert (Hl : 10 <= String.length address ->
               String.length (shortenAddress address) = 13
               /\ String.substring 0 6 (shortenAddress address)
                  = String.substring 0 6 address
               /\ String.substring 6 3 (shortenAddress address) = "..."%string
               /\ String.substring 9 4 (shortenAddress address)
                  = String.substring (String.length address - 4) 4 address).
  { intros L. destruct (shortenAddress_long address L)
      as (p & q & Lp & Lq & Ep & Eq & E).
    rewrite E, <- Ep, <- Eq. repeat split.
    - rewrite !length_append, Lp, Lq. reflexivity.
    - rewrite <- Lp at 1. apply substring_0_append.
    - replace 6 with (String.length p + 0) by lia.
      rewrite substring_skip_append.
      apply (substring_0_append "..." q).
    - replace 9 with (String.length p + 3) by lia.
      rewrite substring_skip_append.
      change 3 with (String.length "..." + 0).
      rewrite substring_skip_append. rewrite <- Lq at 1.
      apply substring_0_length. }
  split; [exact Hs|]. split; [exact Hl|].
  destruct (Nat.ltb_spec (String.length address) 10) as [L|L].
  - now rewrite !Hs.
  - destruct (Hl L) as (L13 & E1 & _ & E3).
    destruct (shortenAddress_long address L)
      as (p & q & Lp & Lq & Ep & Eq & E).
    destruct (shortenAddress_long (shortenAddress address)) as
      (p' & q' & _ & _ & Ep' & Eq' & E'); [lia|].
    rewrite E', Ep', Eq', L13. cbn [Nat.sub]. rewrite E1, E3.
    now rewrite E, Ep, Eq.
Qed.

Lemma shortenAddress_is_idempotent_witness :
  String.length (shortenAddress "0x1234567890abcdef") = 13.
Proof.
  refine (proj1 (proj1 (proj2 (shortenAddress_is_idempotent
                                 "0x1234567890abcdef")) _)).
  cbn. lia.
Defined.

Lemma found_noLookup address : found (noLookup address) = None.
Proof. reflexivity. Qed.



(* ================================================================== *)
(** ** Who may vote, and who is a player                                *)
(* ================================================================== *)

(** X29. Accusations are not restricted to the players.  If, during the
    accusation poll, somebody who is not a player casts the only vote and
    names a player, the poll ends with that player voted out by one vote:
    the vote is stored and tallied although no player record is marked as
    having voted. *)
Theorem outsider_votes_are_counted (g : string) (env : Env)
    (m : GameManager) (voter votee : string) (p : Player)
    (St : status (session g m) = voting)
    (Hv : votes (session g m) = [])
    (Ho : JsMap.get voter (players (session g m)) = None)
    (Hp : JsMap.get votee (players (session g m)) = Some p)
    (Nv : votee <> EmptyString) :
  let m1 := handlePlayerVote g voter votee m in
  let s' := session g (finalizeVoting g env m1) in
  votes (session g m1) = [(voter, votee)]
  /\ players (session g m1) = players (session g m)
  /\ calculateVoteResults (session g m1) = Some (mkVoteResults votee 1)
  /\ status s' = ended
  /\ votedOutInboxId s' = Some votee.
Proof.
  cbv zeta.
  assert (E1 : session g (handlePlayerVote g voter votee m)
               = set_votes [(voter, votee)] (session g m)).
  { rewrite handlePlayerVote_session, St. cbn [GameStatus_eqb].
    unfold recordVote. rewrite Hv. cbn [JsMap.set players set_votes].
    now rewrite Ho. }
  assert (Ev : calculateVoteResults (session g (handlePlayerVote g voter votee m))
               = Some (mkVoteResults votee 1)).
  { rewrite E1. unfold calculateVoteResults. cbn [votes set_votes].
    apply String.eqb_neq in Nv. cbn. now rewrite Nv. }
  split; [now rewrite E1|]. split; [now rewrite E1|]. split; [exact Ev|].
  destruct (finalizeVoting_majority g env (handlePlayerVote g voter votee m)
              votee p) as (A & B & _); auto.
  - now rewrite E1.
  - now rewrite E1.
  - rewrite E1. cbn [votes set_votes JsMap.size JsMap.values map snd
                     List.length occ].
    cbn [keqb EqKey_string]. rewrite String.eqb_refl. lia.
Qed.

Lemma outsider_votes_are_counted_witness :
  votedOutInboxId
    (session "g" (finalizeVoting "g" sampleEnv
                    (handlePlayerVote "g" "bot" "P1"
                       (run sampleManager toVoting))))
  = Some "P1"%string.
Proof.
  assert (Hp : exists p, JsMap.get "P1"%string
                 (players (session "g" (run sampleManager toVoting)))
               = Some p).
  { eexists. computes. }
  destruct Hp as [p Hp].
  destruct (outsider_votes_are_counted "g" sampleEnv
              (run sampleManager toVoting) "bot" "P1" p)
    as (_ & _ & _ & _ & V).
  - computes.
  - computes.
  - computes.
  - exact Hp.
  - discriminate.
  - exact V.
Defined.

Lemma size_set {V : Type} (k : string) (v : V) (m : JsMap.t string V) :
  JsMap.size (JsMap.set k v m)
  = if JsMap.has k m then JsMap.size m else S (JsMap.size m).
Proof.
  unfold JsMap.size, JsMap.has.
  induction m as [|[k0 v0] m IH]; cbn [JsMap.set JsMap.get List.length];
    [reflexivity|].
  destruct (keqb k0 k); cbn [List.length]; [reflexivity|].
  rewrite IH. now destruct (JsMap.get k m).
Qed.

(** X30. [addPlayer] never overwrites.  Adding an identifier that is
    already a player changes nothing, so the record keeps its role and its
    vote; adding a new one appends a fresh record (not imposter, not voted)
    and raises the player count by one.  The other players are never
    affected. *)
Theorem addPlayer_never_overwrites (s : GameState) (id addr : string) :
  (forall p, getPlayer s id = Some p ->
             addPlayer s id addr = s)
  /\ (getPlayer s id = None ->
      getPlayer (addPlayer s id addr) id
      = Some (mkPlayer id addr false false None)
      /\ getPlayerCount (addPlayer s id addr) = S (getPlayerCount s)
      /\ JsMap.keys (players (addPlayer s id addr))
         = JsMap.keys (players s) ++ [id])
  /\ (forall other, other <> id ->
        getPlayer (addPlayer s id addr) other = getPlayer s other).
Proof.
  unfold getPlayer, getPlayerCount, addPlayer, JsMap.has.
  repeat apply conj.
  - intros p E. now rewrite E.
  - intros E. rewrite E. cbn [players set_players].
    split; [apply get_set_same|].
    split.
    + rewrite size_set. unfold JsMap.has. now rewrite E.
    + rewrite keys_set. unfold JsMap.has. now rewrite E.
  - intros other N. destruct (JsMap.get id (players s)); [reflexivity|].
    cbn [players set_players]. apply get_set_other. congruence.
Qed.

Lemma addPlayer_never_overwrites_witness :
  addPlayer twoPlayersOneImposter "A" "0xOther" = twoPlayersOneImposter.
Proof.
  assert (E : exists p, getPlayer twoPlayersOneImposter "A" = Some p).
  { eexists. computes. }
  destruct E as [p E].
  exact (proj1 (addPlayer_never_overwrites twoPlayersOneImposter "A" "0xOther")
           p E).
Defined.
